(** * The tracer agent (agents/tracer/agent.ts): a shallow embedding

    The agent resolves a trace specification into a plan of native and
    managed targets, fetches one handler script per target from the host in
    pages of 1000 members, attaches probes, and keeps a per-thread call depth
    for the events it emits.

    Conventions of the embedding:
    - a JavaScript string is a [string]; its characters stand for UTF-16 code
      units (the separators and names the agent inspects are ASCII);
    - a JavaScript number that holds an id, a depth, a size or a timestamp is
      a [Z]: the agent only adds and subtracts small integers, which doubles
      do exactly;
    - a JavaScript [Map] whose iteration order is observable is a [JsMap.t],
      an association list in insertion order; the thread depth table and the
      handler table, which are only looked up and counted, are [gmap]s;
    - what the agent asks of Frida or of the host (regular expressions, the
      Objective-C and Java runtimes, the interceptor, the message channel)
      is an explicit argument or a type class. *)

From Stdlib Require Import ZArith String Ascii List Lia DecimalString.
From stdpp Require Import gmap strings list.

(** * Part I: the embedding *)

(** ** JavaScript strings *)

Module JsString.

(** [s.substring(n)] *)
Fixpoint drop (n : nat) (s : string) : string :=
  match n, s with
  | O, _ => s
  | S n', String _ s' => drop n' s'
  | S _, EmptyString => EmptyString
  end.

(** [s.substr(0, n)] *)
Fixpoint take (n : nat) (s : string) : string :=
  match n, s with
  | S n', String c s' => String c (take n' s')
  | _, _ => EmptyString
  end.

(** [s.replace(search, repl)] with a string [search]: only the FIRST
    occurrence of [search] is replaced. *)
Fixpoint replace (search repl s : string) : string :=
  if String.prefix search s
  then repl +:+ drop (String.length search) s
  else match s with
       | EmptyString => EmptyString
       | String c s' => String c (replace search repl s')
       end.

(** Cutting a string at every character that satisfies [p]; the pieces
    between two cuts may be empty and the result is never empty. *)
Fixpoint split_where (p : ascii -> bool) (s : string) : list string :=
  match s with
  | EmptyString => [EmptyString]
  | String c s' =>
      if p c then EmptyString :: split_where p s'
      else match split_where p s' with
           | [] => [String c EmptyString]
           | f :: fs => String c f :: fs
           end
  end.

(** [s.split(sep)] for a separator of one code unit and no limit. *)
Definition split (sep : ascii) (s : string) : list string :=
  split_where (Ascii.eqb sep) s.

(** Number of characters of [s] that satisfy [p]. *)
Fixpoint count_where (p : ascii -> bool) (s : string) : nat :=
  match s with
  | EmptyString => 0
  | String c s' => (if p c then 1 else 0) + count_where p s'
  end.

(** [s.indexOf(c)], [None] for -1. *)
Fixpoint indexOf (c : ascii) (s : string) : option nat :=
  match s with
  | EmptyString => None
  | String d s' => if Ascii.eqb d c then Some 0 else S <$> indexOf c s'
  end.

(** [parts.join(sep)] *)
Definition join (sep : string) (parts : list string) : string :=
  String.concat sep parts.

(** [ch.toUpperCase()] on one code unit, for the ASCII letters. *)
Definition upper_char (c : ascii) : ascii :=
  let n := nat_of_ascii c in
  if (97 <=? n)%nat && (n <=? 122)%nat then ascii_of_nat (n - 32) else c.

End JsString.

(** ** JavaScript [Map]: insertion-ordered, one entry per key *)

Module JsMap.

Abbreviation t K V := (list (K * V)) (only parsing).

Section Ops.
Context {K V : Type} `{EqDecision K}.

(** [new Map()] *)
Definition empty : t K V := [].

(** [m.get(k)], [None] for [undefined]. *)
Fixpoint get (k : K) (m : t K V) : option V :=
  match m with
  | [] => None
  | (k', v) :: m' => if decide (k' = k) then Some v else get k m'
  end.

(** [m.set(k, v)]: an existing key keeps its place in the order, a new key
    goes last. *)
Fixpoint set (k : K) (v : V) (m : t K V) : t K V :=
  match m with
  | [] => [(k, v)]
  | (k', v') :: m' =>
      if decide (k' = k) then (k, v) :: m' else (k', v') :: set k v m'
  end.

(** [m.delete(k)] *)
Definition delete (k : K) (m : t K V) : t K V :=
  filter (fun e => e.1 <> k) m.

(** [m.entries()], [m.keys()], [m.size] *)
Definition entries (m : t K V) : list (K * V) := m.
Definition keys (m : t K V) : list K := m.*1.
Definition size (m : t K V) : nat := length m.

(** [new Map(pairs)]: a later pair with the same key overrides the value of
    an earlier one. *)
Definition of_entries (pairs : list (K * V)) : t K V :=
  fold_left (fun m e => set e.1 e.2 m) pairs empty.

End Ops.

End JsMap.

(** ** Regular expressions

    The agent only builds expressions with [new RegExp(pt, "g")] and calls
    [test] on them.  What an engine must provide is the compilation of a
    pattern (which fails with a SyntaxError on a malformed one) and the search
    for the leftmost match that starts at or after an index.  [RegExp_test]
    is RegExpBuiltinExec on top of it: with the [g] flag the search starts at
    [lastIndex], which a match moves to the end of the match and a failure
    resets to 0. *)

Class RegExpEngine := {
  Pattern : Type;
  (** [None]: the pattern is malformed. *)
  compile : string -> option Pattern;
  (** [search p s i]: the end index of the leftmost match of [p] in [s] that
      starts at an index [>= i]; [None] when there is none or [i] is past the
      end of [s]. *)
  search : Pattern -> string -> nat -> option nat
}.

Record RegExp `{RegExpEngine} := {
  source : Pattern;
  global : bool;
  lastIndex : nat
}.

Inductive SyntaxError := syntax_error (pattern : string).

(** [new RegExp(pt, flags)] *)
Definition RegExp_new `{RegExpEngine} (pt flags : string)
  : RegExp + SyntaxError :=
  match compile pt with
  | Some p =>
      inl {| source := p;
             global := bool_decide (is_Some (JsString.indexOf "g" flags));
             lastIndex := 0 |}
  | None => inr (syntax_error pt)
  end.

(** [reg.test(s)]: the answer and the expression with its new [lastIndex]. *)
Definition RegExp_test `{RegExpEngine} (reg : RegExp) (s : string)
  : bool * RegExp :=
  let start := if global reg then lastIndex reg else 0 in
  match search (source reg) s start with
  | Some e =>
      (true, if global reg
             then {| source := source reg; global := true; lastIndex := e |}
             else reg)
  | None =>
      (false, if global reg
              then {| source := source reg; global := true; lastIndex := 0 |}
              else reg)
  end.

(** An engine for the patterns without metacharacters: letters, digits,
    space, [-], [_] and [:] match themselves, so the pattern matches exactly
    where it occurs as a substring.  Every other pattern is rejected; that is
    what ECMAScript does with [(], [\[], [*], [+], [?], [)] and a lone
    backslash, and it is all this instance is used for. *)
Definition literal_char (c : ascii) : bool :=
  let n := nat_of_ascii c in
  ((48 <=? n)%nat && (n <=? 57)%nat) || ((65 <=? n)%nat && (n <=? 90)%nat)
  || ((97 <=? n)%nat && (n <=? 122)%nat)
  || bool_decide (c = " "%char) || bool_decide (c = "-"%char)
  || bool_decide (c = "_"%char) || bool_decide (c = ":"%char).

Definition literal_compile (pt : string) : option string :=
  if (JsString.count_where (fun c => negb (literal_char c)) pt =? 0)%nat
  then Some pt else None.

Definition literal_search (p s : string) (i : nat) : option nat :=
  (fun start => start + String.length p) <$> String.index i p s.

Definition literal_engine : RegExpEngine :=
  {| Pattern := string; compile := literal_compile; search := literal_search |}.

(** ** The target plan *)

Module TargetPlan.

(** ["c" | "objc" | "swift" | "java"], and the three of them that a native
    target can have. *)
Inductive TargetType := TypeC | TypeObjC | TypeSwift | TypeJava.

Inductive NativeType := NativeC | NativeObjC | NativeSwift.

Definition ScopeName := string.
Definition NativeId := string.

Record MethodTypeSignature := {
  argInfo : gmap nat bool;
  retType : bool;
  sel : option string
}.

(** [MemberName]: a bare name, [[name, displayName]], or
    [[name, displayName, signature]]. *)
Inductive MemberName :=
| MemberBare (name : string)
| MemberPair (name displayName : string)
| MemberTyped (name displayName : string) (signature : MethodTypeSignature).

(** [typeof name === "string" ? name : name[1]] *)
Definition displayName_of (name : MemberName) : string :=
  match name with
  | MemberBare n => n
  | MemberPair _ d => d
  | MemberTyped _ d _ => d
  end.

Definition NativeTarget : Type := NativeType * ScopeName * MemberName.
Definition NativeTargets : Type := JsMap.t NativeId NativeTarget.

Definition JavaClassName := string.
Definition JavaMethodName := string.

Record JavaTargetClass := {
  methods : JsMap.t JavaMethodName string
}.

(** A class loader is the identity of the Java object behind the wrapper;
    [None] is the [null] loader. *)
Definition Loader := nat.

Record JavaTargetGroup := {
  loader : option Loader;
  classes : JsMap.t JavaClassName JavaTargetClass
}.

Record TracePlan := {
  native : NativeTargets;
  java : list JavaTargetGroup
}.

(** What a resolver returns: the name and [address.toString()]. *)
Record ApiResolverMatch := {
  match_name : string;
  match_address : NativeId
}.

(** [Java.enumerateMethods] results. *)
Record EnumerateMethodsMatchClass := {
  class_name : string;
  class_methods : list string
}.

Record EnumerateMethodsMatchGroup := {
  group_loader : option Loader;
  group_classes : list EnumerateMethodsMatchClass
}.

(** What [excludeObjCProperty] learns of a class name: [ObjC.classes] has no
    such class or it has no [alloc]; [cls.alloc().$ivars] throws; or the keys
    of the instance variables. *)
Inductive ClassProbe :=
| NoSuchClass
| AllocThrows
| IvarKeys (keys : list string).

(** The Objective-C runtime as the agent sees it. *)
Class ObjCRuntime := {
  (** [getObjcResolver().enumerateMatches(pt)] *)
  objc_enumerateMatches : string -> list ApiResolverMatch;
  (** [runtime.methdTypeSignatureOf] on the method that [runtime.methodFromAPI]
      finds for a match, with its selector. *)
  objc_signature : ApiResolverMatch -> MethodTypeSignature;
  (** [ObjC.classes[className]], [alloc] and [$ivars]. *)
  objc_probe : string -> ClassProbe
}.

(** The Java runtime as the agent sees it. *)
Class JavaRuntime := {
  java_available : bool;
  java_enumerateMethods : string -> list EnumerateMethodsMatchGroup
}.

Definition with_native (plan : TracePlan) (n : NativeTargets) : TracePlan :=
  {| native := n; java := java plan |}.

Definition with_java (plan : TracePlan) (j : list JavaTargetGroup)
  : TracePlan :=
  {| native := native plan; java := j |}.

(** [parseMethodPattern]: nothing for the empty pattern; otherwise the FIRST
    [;] becomes a [,] and the pattern is cut at every [,]. *)
Definition parseMethodPattern (pattern : string) : list string :=
  match pattern with
  | EmptyString => []
  | _ => JsString.split "," (JsString.replace ";" "," pattern)
  end.

(** [name.substr(2, name.length - 3).split(" ", 2)]: the class and the method
    of ["-[Class method]"]; a missing half is [undefined], here the empty
    string. *)
Definition objc_name_parts (name : string) : string * string :=
  let inner := JsString.take (String.length name - 3) (JsString.drop 2 name) in
  match JsString.split " " inner with
  | cls :: m :: _ => (cls, m)
  | [cls] => (cls, EmptyString)
  | [] => (EmptyString, EmptyString)
  end.

Definition objcMethodTargetFromMatch `{ObjCRuntime} (m : ApiResolverMatch)
  : NativeTarget :=
  let '(className, methodName) := objc_name_parts (match_name m) in
  (NativeObjC, className,
   MemberTyped methodName (match_name m) (objc_signature m)).

Section ObjC.
Context `{ObjCRuntime} `{RegExpEngine}.

Definition includeObjCMethod (pattern : string) (plan : TracePlan)
  : TracePlan :=
  with_native plan
    (fold_left
       (fun native pt =>
          fold_left
            (fun native m =>
               JsMap.set (match_address m) (objcMethodTargetFromMatch m) native)
            (objc_enumerateMatches pt) native)
       (parseMethodPattern pattern) (native plan)).

Definition excludeObjCMethod (pattern : string) (plan : TracePlan)
  : TracePlan :=
  with_native plan
    (fold_left
       (fun native pt =>
          fold_left
            (fun native m => JsMap.delete (match_address m) native)
            (objc_enumerateMatches pt) native)
       (parseMethodPattern pattern) (native plan)).

(** The first loop of [filterObjCMethod]: one expression per fragment, a
    fragment whose compilation throws is skipped by the empty [catch]. *)
Definition build_regList (fragments : list string) : list RegExp :=
  fold_left
    (fun regList pt =>
       match RegExp_new pt "g" with
       | inl reg => regList ++ [reg]
       | inr _ => regList
       end)
    fragments [].

(** What [new RegExp(pt, "g")] gives for a well-formed fragment, nothing
    for a malformed one. *)
Definition fresh_regexp (pt : string) : option RegExp :=
  match RegExp_new pt "g" with
  | inl reg => Some reg
  | inr _ => None
  end.

(** The inner loop: [test] each expression in turn and stop at the first
    that matches.  Every expression that was tested keeps its new
    [lastIndex]. *)
Fixpoint test_any (regList : list RegExp) (displayName : string)
  : bool * list RegExp :=
  match regList with
  | [] => (false, [])
  | reg :: rest =>
      let '(matched, reg') := RegExp_test reg displayName in
      if matched then (true, reg' :: rest)
      else let '(m, rest') := test_any rest displayName in (m, reg' :: rest')
  end.

(** One turn of the loop over [native.entries()]. *)
Definition filter_step (st : list RegExp * NativeTargets)
  (entry : NativeId * NativeTarget) : list RegExp * NativeTargets :=
  let '(regList, native) := st in
  let '(addr, (_, _, name)) := entry in
  let '(matched, regList') := test_any regList (displayName_of name) in
  (regList', if matched then native else JsMap.delete addr native).

(** The second half of [filterObjCMethod], from the test of
    [regList.length] on.  The loop deletes only the entry it is visiting, so
    it visits exactly the entries the map had when it began. *)
Definition filter_targets (regList : list RegExp) (plan : TracePlan)
  : TracePlan :=
  match regList with
  | [] => plan
  | _ :: _ =>
      with_native plan
        (fold_left filter_step (JsMap.entries (native plan))
           (regList, native plan)).2
  end.

(** [filterObjCMethod] *)
Definition filterObjCMethod (pattern : string) (plan : TracePlan)
  : TracePlan :=
  filter_targets (build_regList (parseMethodPattern pattern)) plan.

(** Following the spec's words, to be compared with [filterObjCMethod]: one
    expression per well-formed fragment; every planned native target whose
    display name matches none of them is dropped; without any expression the
    plan stays as it is.  A name matches when the expression has a match
    somewhere in it. *)
Definition matches_some (pats : list Pattern) (displayName : string) : bool :=
  existsb (fun p => bool_decide (is_Some (search p displayName 0))) pats.

Definition filterObjCMethod_spec (pattern : string) (plan : TracePlan)
  : TracePlan :=
  match omap compile (parseMethodPattern pattern) with
  | [] => plan
  | pats =>
      with_native plan
        (filter (fun e : NativeId * NativeTarget =>
                   matches_some pats (displayName_of e.2.2) = true)
           (native plan))
  end.

(** [str.replace(/^./, s => s.toUpperCase())] *)
Definition capitalizeFirstLetter (str : string) : string :=
  match str with
  | EmptyString => EmptyString
  | String c s => String (JsString.upper_char c) s
  end.

(** The two names pushed for each key of [$ivars]. *)
Definition property_names (className : string) (keys : list string)
  : list string :=
  flat_map
    (fun key =>
       let name := JsString.drop 1 key in
       let capitalName := capitalizeFirstLetter name in
       [ "-[" +:+ className +:+ " " +:+ name +:+ "]";
         "-[" +:+ className +:+ " set" +:+ capitalName +:+ ":]" ])
    keys.

Definition propertyMethodNames (classNames : list string) : list string :=
  fold_left
    (fun acc className =>
       match objc_probe className with
       | IvarKeys keys => acc ++ property_names className keys
       | NoSuchClass | AllocThrows => acc
       end)
    classNames [].

Definition otherIgnoreSet : list string := ["cxx_destruct"; "dealloc"; "alloc"].

Definition excludeObjCProperty (pattern : string) (plan : TracePlan)
  : TracePlan :=
  match pattern with
  | EmptyString => plan
  | _ =>
      let classNames := JsString.split "," (JsString.replace ";" "," pattern) in
      let methodNameSet := propertyMethodNames classNames in
      with_native plan
        (fold_left
           (fun native (entry : NativeId * NativeTarget) =>
              let '(addr, (_, _, name)) := entry in
              let displayName := displayName_of name in
              if bool_decide (displayName ∈ methodNameSet)
                 || bool_decide (displayName ∈ otherIgnoreSet)
              then JsMap.delete addr native else native)
           (JsMap.entries (native plan)) (native plan))
  end.

End ObjC.

(** [javaBareMethodNameFromMethodName]: the name up to its first [(]. *)
Definition javaBareMethodNameFromMethodName (fullName : string) : string :=
  match JsString.indexOf "(" fullName with
  | None => fullName
  | Some signatureStart => JsString.take signatureStart fullName
  end.

Definition javaTargetClassFromMatchClass (klass : EnumerateMethodsMatchClass)
  : JavaTargetClass :=
  {| methods :=
       JsMap.of_entries
         (map (fun fullName =>
                 (javaBareMethodNameFromMethodName fullName, fullName))
            (class_methods klass)) |}.

Definition javaTargetGroupFromMatchGroup (group : EnumerateMethodsMatchGroup)
  : JavaTargetGroup :=
  {| loader := group_loader group;
     classes :=
       JsMap.of_entries
         (map (fun klass =>
                 (class_name klass, javaTargetClassFromMatchClass klass))
            (group_classes group)) |}.

(** The predicate given to [find]: [equals] between two loaders, [===] when
    one of them is [null]. *)
Definition same_loader (candidateLoader loader : option Loader) : bool :=
  match candidateLoader, loader with
  | Some a, Some b => Nat.eqb a b
  | None, None => true
  | _, _ => false
  end.

(** [find(existingGroups, ...)]: the first group of that loader and where it
    is. *)
Fixpoint find_group (loader : option Loader) (groups : list JavaTargetGroup)
  : option (nat * JavaTargetGroup) :=
  match groups with
  | [] => None
  | g :: rest =>
      if same_loader (TargetPlan.loader g) loader then Some (0, g)
      else prod_map S id <$> find_group loader rest
  end.

(** The innermost loop of [includeJavaMethod]: the longer of the known and
    the new name stays under the bare name. *)
Definition include_method (existingMethods : JsMap.t JavaMethodName string)
  (methodName : string) : JsMap.t JavaMethodName string :=
  let bareMethodName := javaBareMethodNameFromMethodName methodName in
  match JsMap.get bareMethodName existingMethods with
  | None => JsMap.set bareMethodName methodName existingMethods
  | Some existingName =>
      JsMap.set bareMethodName
        (if (String.length existingName <? String.length methodName)%nat
         then methodName else existingName)
        existingMethods
  end.

Definition include_class (existingClasses : JsMap.t JavaClassName JavaTargetClass)
  (klass : EnumerateMethodsMatchClass)
  : JsMap.t JavaClassName JavaTargetClass :=
  match JsMap.get (class_name klass) existingClasses with
  | None =>
      JsMap.set (class_name klass) (javaTargetClassFromMatchClass klass)
        existingClasses
  | Some existingClass =>
      JsMap.set (class_name klass)
        {| methods :=
             fold_left include_method (class_methods klass)
               (methods existingClass) |}
        existingClasses
  end.

Definition include_group (existingGroups : list JavaTargetGroup)
  (group : EnumerateMethodsMatchGroup) : list JavaTargetGroup :=
  match find_group (group_loader group) existingGroups with
  | None => existingGroups ++ [javaTargetGroupFromMatchGroup group]
  | Some (i, existingGroup) =>
      <[i := {| loader := loader existingGroup;
                classes :=
                  fold_left include_class (group_classes group)
                    (classes existingGroup) |}]> existingGroups
  end.

Definition includeJavaMethod `{JavaRuntime} (pattern : string)
  (plan : TracePlan) : TracePlan :=
  with_java plan
    (fold_left include_group (java_enumerateMethods pattern) (java plan)).

Definition exclude_class (existingClasses : JsMap.t JavaClassName JavaTargetClass)
  (klass : EnumerateMethodsMatchClass)
  : JsMap.t JavaClassName JavaTargetClass :=
  match JsMap.get (class_name klass) existingClasses with
  | None => existingClasses
  | Some existingClass =>
      JsMap.set (class_name klass)
        {| methods :=
             fold_left
               (fun existingMethods methodName =>
                  JsMap.delete (javaBareMethodNameFromMethodName methodName)
                    existingMethods)
               (class_methods klass) (methods existingClass) |}
        existingClasses
  end.

Definition exclude_group (existingGroups : list JavaTargetGroup)
  (group : EnumerateMethodsMatchGroup) : list JavaTargetGroup :=
  match find_group (group_loader group) existingGroups with
  | None => existingGroups
  | Some (i, existingGroup) =>
      <[i := {| loader := loader existingGroup;
                classes :=
                  fold_left exclude_class (group_classes group)
                    (classes existingGroup) |}]> existingGroups
  end.

Definition excludeJavaMethod `{JavaRuntime} (pattern : string)
  (plan : TracePlan) : TracePlan :=
  with_java plan
    (fold_left exclude_group (java_enumerateMethods pattern) (java plan)).

(** Following the spec's words, to be compared with [parseMethodPattern]:
    the pattern is a [;]- or [,]-separated list, cut at every separator. *)
Definition is_separator (c : ascii) : bool :=
  Ascii.eqb c ";" || Ascii.eqb c ",".

Definition parseMethodPattern_spec (pattern : string) : list string :=
  JsString.split_where is_separator pattern.

(** The signature kept for a bare name when one more name arrives. *)
Definition merged (known : option string) (methodName : string) : string :=
  match known with
  | None => methodName
  | Some existingName =>
      if (String.length existingName <? String.length methodName)%nat
      then methodName else existingName
  end.

(** The signature the plan holds for a method of a class of a loader. *)
Definition java_lookup (groups : list JavaTargetGroup)
  (l : option Loader) (className bareName : string) : option string :=
  '(_, g) ← find_group l groups;
  cls ← JsMap.get className (classes g);
  JsMap.get bareName (methods cls).

End TargetPlan.

(** ** Handler provisioning *)

Module Provisioning.
Import TargetPlan.

Record HandlerRequestScope := {
  scope_name : string;
  scope_members : list MemberName
}.

(** A [handlers:get] request. *)
Record HandlerRequest := {
  flavor : TargetType;
  baseId : Z;
  scopes : list HandlerRequestScope
}.

Definition HandlerScript := string.

Record HandlerResponse := {
  scripts : list HandlerScript
}.

(** The host: the reply it correlates with a request, [None] when it never
    sends one. *)
Definition Host := HandlerRequest -> option HandlerResponse.

(** How a call of [getHandlers] ends: it returns, or it waits for ever for a
    reply.  [OutOfFuel] is an artefact of the bounded loop below and never
    the result of [getHandlers]. *)
Inductive Outcome :=
| Returned (response : HandlerResponse)
| Stalled
| OutOfFuel.

(** The members of a list of scopes, in order. *)
Definition flat_members (ss : list HandlerRequestScope) : list MemberName :=
  concat (map scope_members ss).

(** The loop over [pendingMembers]: [curMembers], [size] and [exhausted]
    when it ends. *)
Fixpoint take_members (pendingMembers curMembers : list MemberName) (size : Z)
  : list MemberName * Z * bool :=
  match pendingMembers with
  | [] => (curMembers, size, false)
  | member :: rest =>
      let curMembers := curMembers ++ [member] in
      let size := (size + 1)%Z in
      if (size =? 1000)%Z then (curMembers, size, true)
      else take_members rest curMembers size
  end.

(** The loop over [pendingScopes]: [curScopes], the pending scopes after
    their [splice], and [size]. *)
Fixpoint fill_request (pendingScopes curScopes : list HandlerRequestScope)
  (size : Z) : list HandlerRequestScope * list HandlerRequestScope * Z :=
  match pendingScopes with
  | [] => (curScopes, [], size)
  | sc :: rest =>
      let '(curMembers, size, exhausted) :=
        take_members (scope_members sc) [] size in
      let curScopes :=
        curScopes
        ++ [{| scope_name := scope_name sc; scope_members := curMembers |}] in
      let sc' :=
        {| scope_name := scope_name sc;
           scope_members := drop (length curMembers) (scope_members sc) |} in
      if exhausted then (curScopes, sc' :: rest, size)
      else
        let '(curScopes, rest, size) := fill_request rest curScopes size in
        (curScopes, sc' :: rest, size)
  end.

(** The [while] loop that removes the leading scopes without members. *)
Fixpoint drop_empty (pendingScopes : list HandlerRequestScope)
  : list HandlerRequestScope :=
  match pendingScopes with
  | [] => []
  | sc :: rest =>
      match scope_members sc with
      | [] => drop_empty rest
      | _ :: _ => pendingScopes
      end
  end.

(** The [do ... while] loop, at most [fuel] passes.  It gives the requests
    sent, in order, and how the call ends. *)
Fixpoint getHandlers_loop (fuel : nat) (host : Host) (flavor : TargetType)
  (pendingScopes : list HandlerRequestScope) (id : Z)
  (scripts : list HandlerScript) (sent : list HandlerRequest)
  : list HandlerRequest * Outcome :=
  match fuel with
  | O => (sent, OutOfFuel)
  | S fuel =>
      let '(curScopes, pendingScopes, size) :=
        fill_request pendingScopes [] 0%Z in
      let pendingScopes := drop_empty pendingScopes in
      let curRequest :=
        {| flavor := flavor; baseId := id; scopes := curScopes |} in
      let sent := sent ++ [curRequest] in
      match host curRequest with
      | None => (sent, Stalled)
      | Some response =>
          let scripts := scripts ++ Provisioning.scripts response in
          let id := (id + size)%Z in
          match pendingScopes with
          | [] => (sent, Returned {| Provisioning.scripts := scripts |})
          | _ :: _ =>
              getHandlers_loop fuel host flavor pendingScopes id scripts sent
          end
      end
  end.

(** [getHandlers].  Every pass but the last takes members away, so one pass
    more than there are members is enough. *)
Definition getHandlers (host : Host) (request : HandlerRequest)
  : list HandlerRequest * Outcome :=
  getHandlers_loop (S (length (flat_members (scopes request)))) host
    (flavor request) (scopes request) (baseId request) [] [].

(** The members of a list of scopes in order, each with the name of its
    scope. *)
Definition tagged_members (ss : list HandlerRequestScope)
  : list (string * MemberName) :=
  flat_map (fun sc => map (pair (scope_name sc)) (scope_members sc)) ss.

(** The requests that carry the members [T] from the id [id] on, in pages
    of 1000: each holds the next 1000 members, under the names of their
    scopes and under the id its first member gets; the last holds what is
    left. *)
Inductive pages (fl : TargetType) : Z -> list (string * MemberName)
  -> list HandlerRequest -> Prop :=
| pages_last id T r :
    length T <= 1000 ->
    flavor r = fl -> baseId r = id -> tagged_members (scopes r) = T ->
    pages fl id T [r]
| pages_more id T r rs :
    1000 < length T ->
    flavor r = fl -> baseId r = id ->
    tagged_members (scopes r) = take 1000 T ->
    pages fl (id + 1000)%Z (drop 1000 T) rs ->
    pages fl id T (r :: rs).

(** The scripts of the host's reply to a request, none without a reply. *)
Definition reply_scripts (host : Host) (req : HandlerRequest)
  : list HandlerScript :=
  match host req with
  | Some response => scripts response
  | None => []
  end.

(** A host that answers every request. *)
Definition responsive (host : Host) : Prop :=
  forall req, is_Some (host req).

(** A host that answers every request with one script per member, in the
    order of the request: [answer i m] is its script for the member [m] with
    target id [i]. *)
Definition answers_in_order (host : Host)
  (answer : Z -> MemberName -> HandlerScript) : Prop :=
  forall req,
    host req
    = Some {| scripts :=
                imap (fun k m => answer (baseId req + Z.of_nat k)%Z m)
                  (flat_members (scopes req)) |}.

End Provisioning.

(** ** Dispatch and depth tracking *)

Module Dispatch.

Definition ThreadId := Z.
Definition TraceTargetId := Z.

(** [">"] and ["<"] *)
Inductive CutPoint := Enter | Leave.

(** [[id, timestamp, threadId, depth, message]] *)
Definition TraceEvent : Type := TraceTargetId * Z * ThreadId * Z * string.

Definition event_depth (e : TraceEvent) : Z := e.1.2.

Definition event_timestamp (e : TraceEvent) : Z := e.1.1.1.2.

(** [updateDepth]: the table after the call and the depth returned.  On
    entry the depth returned is the one read, before the increment; on exit
    it is the decremented one. *)
Definition updateDepth (threadId : ThreadId) (cutPoint : CutPoint)
  (depthEntries : gmap ThreadId Z) : gmap ThreadId Z * Z :=
  let depth := default 0%Z (depthEntries !! threadId) in
  match cutPoint with
  | Enter => (<[threadId := (depth + 1)%Z]> depthEntries, depth)
  | Leave =>
      let depth := (depth - 1)%Z in
      if bool_decide (depth <> 0%Z)
      then (<[threadId := depth]> depthEntries, depth)
      else (delete threadId depthEntries, depth)
  end.

Section Handlers.
(** The argument of a handler ([args] or [retval]) and the state shared by
    the handlers are whatever the scripts make of them. *)
Context {Param TraceState : Type}.

(** What the agent sees of a handler: the calls of [log] it makes, each with
    its arguments, and what it leaves in the shared state. *)
Definition Callback : Type :=
  Param -> TraceState -> list (list string) * TraceState.

(** [[onEnter, onLeave]] *)
Definition TraceHandler : Type := Callback * Callback.

Definition noop : Callback := fun _ st => ([], st).

(** The fields of the agent that dispatch reads and writes.  [flushTimer]
    tells whether a flush is scheduled. *)
Record Agent := {
  stackDepth : gmap ThreadId Z;
  traceState : TraceState;
  started : Z;
  pendingEvents : list TraceEvent;
  flushTimer : bool
}.

(** [emit] *)
Definition emit (event : TraceEvent) (a : Agent) : Agent :=
  {| stackDepth := stackDepth a;
     traceState := traceState a;
     started := started a;
     pendingEvents := pendingEvents a ++ [event];
     flushTimer := true |}.

(** [flush]: the agent afterwards and the batch sent in [events:add], if
    any. *)
Definition flush (a : Agent) : Agent * option (list TraceEvent) :=
  match pendingEvents a with
  | [] =>
      ({| stackDepth := stackDepth a; traceState := traceState a;
          started := started a; pendingEvents := []; flushTimer := false |},
       None)
  | events =>
      ({| stackDepth := stackDepth a; traceState := traceState a;
          started := started a; pendingEvents := []; flushTimer := false |},
       Some events)
  end.

(** The calls of [log] of one handler invocation, in order: each joins its
    arguments with a space and emits one event. *)
Definition log_all (id : TraceTargetId) (timestamp : Z) (threadId : ThreadId)
  (depth : Z) (logged : list (list string)) (a : Agent) : Agent :=
  fold_left
    (fun a message =>
       emit (id, timestamp, threadId, depth, JsString.join " " message) a)
    logged a.

(** [invokeNativeHandler]; [now] is what [Date.now()] reads. *)
Definition invokeNativeHandler (now : Z) (id : TraceTargetId)
  (callback : Callback) (threadId : ThreadId) (param : Param)
  (cutPoint : CutPoint) (a : Agent) : Agent :=
  let timestamp := (now - started a)%Z in
  let '(depthEntries, depth) := updateDepth threadId cutPoint (stackDepth a) in
  let '(logged, state) := callback param (traceState a) in
  log_all id timestamp threadId depth logged
    {| stackDepth := depthEntries;
       traceState := state;
       started := started a;
       pendingEvents := pendingEvents a;
       flushTimer := flushTimer a |}.

(** The two callbacks of [makeNativeListenerCallbacks], and a traced call:
    the probe fires on entry and on exit. *)
Definition onEnter (now : Z) (id : TraceTargetId) (handler : TraceHandler)
  (threadId : ThreadId) (args : Param) : Agent -> Agent :=
  invokeNativeHandler now id handler.1 threadId args Enter.

Definition onLeave (now : Z) (id : TraceTargetId) (handler : TraceHandler)
  (threadId : ThreadId) (retval : Param) : Agent -> Agent :=
  invokeNativeHandler now id handler.2 threadId retval Leave.

Definition traced_call (now_enter now_leave : Z) (id : TraceTargetId)
  (handler : TraceHandler) (threadId : ThreadId) (args retval : Param)
  (a : Agent) : Agent :=
  onLeave now_leave id handler threadId retval
    (onEnter now_enter id handler threadId args a).

(** One probe callback on a thread: when, for which target, with which
    handler and argument. *)
Record ProbeCall := {
  call_cutPoint : CutPoint;
  call_now : Z;
  call_id : TraceTargetId;
  call_callback : Callback;
  call_param : Param
}.

(** The agent after a sequence of probe callbacks on one thread. *)
Definition run_calls (threadId : ThreadId) (calls : list ProbeCall)
  (a : Agent) : Agent :=
  fold_left
    (fun a c =>
       invokeNativeHandler (call_now c) (call_id c) (call_callback c)
         threadId (call_param c) (call_cutPoint c) a)
    calls a.

End Handlers.

Arguments Agent : clear implicits.
Arguments ProbeCall : clear implicits.

(** Entries minus exits. *)
Definition balance (cutPoints : list CutPoint) : Z :=
  fold_left
    (fun n c => match c with Enter => (n + 1)%Z | Leave => (n - 1)%Z end)
    cutPoints 0%Z.

(** With [open] calls in progress, no exit comes without its entry. *)
Fixpoint nested (open : nat) (cutPoints : list CutPoint) : bool :=
  match cutPoints with
  | [] => true
  | Enter :: rest => nested (S open) rest
  | Leave :: rest =>
      match open with
      | O => false
      | S open' => nested open' rest
      end
  end.

(** The entry of a thread with [open] calls in progress: none when there is
    no call in progress. *)
Definition entry_of (open : Z) : option Z :=
  if bool_decide (open = 0%Z) then None else Some open.

End Dispatch.

(** ** Attachment and session start-up *)

Module Session.
Import TargetPlan Provisioning Dispatch.

(** What the agent sends to the host. *)
Inductive Message :=
| AgentInitialized
| AgentStarted (count : nat)
| AgentWarning (message : string)
| AgentError (message : string)
| EventsAdd (events : list TraceEvent)
| HandlersGet (request : HandlerRequest).

Inductive TraceSpecOperation := Include | Exclude | Filter.

(** [[name, ptr(id)]] *)
Definition NativeItem : Type := MemberName * NativeId.
Definition NativeTargetScopes : Type := list (ScopeName * list NativeItem).

(** Whether an asynchronous step has completed or still awaits a reply of
    the host. *)
Inductive Completion := Done | Pending.

Definition both (c1 c2 : Completion) : Completion :=
  match c1, c2 with
  | Done, Done => Done
  | _, _ => Pending
  end.

(** One double quote. *)
Definition dquote : string := String "034"%char EmptyString.

(** [`${name}`] for a member name: an array is joined with commas and an
    object prints as [[object Object]]. *)
Definition member_to_string (name : MemberName) : string :=
  match name with
  | MemberBare n => n
  | MemberPair n d => n +:+ "," +:+ d
  | MemberTyped n d _ => n +:+ "," +:+ d +:+ ",[object Object]"
  end.

Section Agent.
Context {Param TraceState : Type}.

(** Frida as the attachment manager sees it. *)
Class Frida := {
  (** [(1, eval)("(" + script + ")")] and the reading of [onEnter] and
      [onLeave], with [noop] for a missing one: the handler pair, or the
      message of the error thrown. *)
  eval_handler : string -> @TraceHandler Param TraceState + string;
  (** [Interceptor.attach(address, callbacks)]: [None] when the probe is
      attached, the message of the error thrown otherwise. *)
  attach_error : NativeId -> option string;
  (** Whether [Java.perform] runs its callback before it returns. *)
  java_perform_now : bool
}.

(** The handler table and the id counter of the agent, what it has sent,
    and what it has installed: the listeners attached by the interceptor
    and the Java methods whose implementations were replaced, with the
    target id they report. *)
Record World := {
  handlers : gmap TraceTargetId (@TraceHandler Param TraceState);
  nextId : Z;
  sent : list Message;
  listeners : list (NativeId * TraceTargetId);
  wrappers : list (JavaClassName * JavaMethodName * TraceTargetId)
}.

Definition send (m : Message) (w : World) : World :=
  {| handlers := handlers w; nextId := nextId w; sent := sent w ++ [m];
     listeners := listeners w; wrappers := wrappers w |}.

Definition set_handler (id : TraceTargetId) (h : TraceHandler) (w : World)
  : World :=
  {| handlers := <[id := h]> (handlers w); nextId := nextId w;
     sent := sent w; listeners := listeners w; wrappers := wrappers w |}.

Definition advance_nextId (n : nat) (w : World) : World :=
  {| handlers := handlers w; nextId := (nextId w + Z.of_nat n)%Z;
     sent := sent w; listeners := listeners w; wrappers := wrappers w |}.

Definition add_listener (address : NativeId) (id : TraceTargetId) (w : World)
  : World :=
  {| handlers := handlers w; nextId := nextId w; sent := sent w;
     listeners := listeners w ++ [(address, id)]; wrappers := wrappers w |}.

Definition add_wrapper (className : JavaClassName) (bareName : JavaMethodName)
  (id : TraceTargetId) (w : World) : World :=
  {| handlers := handlers w; nextId := nextId w; sent := sent w;
     listeners := listeners w;
     wrappers := wrappers w ++ [(className, bareName, id)] |}.

(** Every id of the handler table is below [bound]. *)
Definition ids_below (bound : Z) (w : World) : Prop :=
  forall k, is_Some (handlers w !! k) -> (k < bound)%Z.

(** The targets with a probe in place. *)
Definition attached_count (w : World) : nat :=
  length (listeners w) + length (wrappers w).

Context `{Frida}.

(** [parseHandler] *)
Definition parseHandler (name script : string) (w : World)
  : TraceHandler * World :=
  match eval_handler ("(" +:+ script +:+ ")") with
  | inl h => (h, w)
  | inr message =>
      ((noop, noop),
       send (AgentWarning ("Invalid handler for " +:+ dquote +:+ name
                           +:+ dquote +:+ ": " +:+ message)) w)
  end.

(** [scripts[offset]] inside a string concatenation: a missing script
    prints as [undefined]. *)
Definition script_at (scripts : list HandlerScript) (offset : nat) : string :=
  default "undefined" (scripts !! offset).

(** The loop of [traceNativeTargets] that sorts the targets by type and
    scope. *)
Definition add_to_group (entries : NativeTargetScopes) (scope : ScopeName)
  (item : NativeItem) : NativeTargetScopes :=
  match JsMap.get scope entries with
  | None => JsMap.set scope [item] entries
  | Some group => JsMap.set scope (group ++ [item]) entries
  end.

Definition group_targets (targets : NativeTargets)
  : NativeTargetScopes * NativeTargetScopes * NativeTargetScopes :=
  fold_left
    (fun (groups : NativeTargetScopes * NativeTargetScopes
                   * NativeTargetScopes)
         (entry : NativeId * NativeTarget) =>
       let '(cGroups, objcGroups, swiftGroups) := groups in
       let '(id, (type, scope, name)) := entry in
       match type with
       | NativeC => (add_to_group cGroups scope (name, id),
                     objcGroups, swiftGroups)
       | NativeObjC => (cGroups, add_to_group objcGroups scope (name, id),
                        swiftGroups)
       | NativeSwift => (cGroups, objcGroups,
                         add_to_group swiftGroups scope (name, id))
       end)
    (JsMap.entries targets) ([], [], []).

(** One turn of the attachment loop of [traceNativeEntries]: the handler is
    registered before the probe is attached, and a failed attachment only
    sends a warning. *)
Definition attach_item (baseId : Z) (scripts : list HandlerScript)
  (st : World * nat) (item : NativeItem) : World * nat :=
  let '(w, offset) := st in
  let '(name, address) := item in
  let id := (baseId + Z.of_nat offset)%Z in
  let displayName := displayName_of name in
  let '(handler, w) := parseHandler displayName (script_at scripts offset) w in
  let w := set_handler id handler w in
  let w :=
    match attach_error address with
    | None => add_listener address id w
    | Some message =>
        send (AgentWarning ("Skipping " +:+ dquote +:+ member_to_string name
                            +:+ dquote +:+ ": " +:+ message)) w
    end in
  (w, S offset).

(** [traceNativeEntries] *)
Definition traceNativeEntries (host : Host) (flavor : TargetType)
  (groups : NativeTargetScopes) (w : World) : World * Completion :=
  match groups with
  | [] => (w, Done)
  | _ :: _ =>
      let baseId := nextId w in
      let scopes :=
        map (fun g : ScopeName * list NativeItem =>
               {| scope_name := g.1; scope_members := g.2.*1 |})
          (JsMap.entries groups) in
      let w := advance_nextId (length (concat groups.*2)) w in
      let request :=
        {| Provisioning.flavor := flavor; baseId := baseId;
           scopes := scopes |} in
      let '(requests, outcome) := getHandlers host request in
      let w := fold_left (fun w r => send (HandlersGet r) w) requests w in
      match outcome with
      | Returned response =>
          ((fold_left (attach_item baseId (scripts response))
              (concat groups.*2) (w, 0)).1, Done)
      | Stalled | OutOfFuel => (w, Pending)
      end
  end.

(** [traceNativeTargets].  The three batches run one after the other here;
    in the agent each takes its ids and sends its first request in this
    order and the replies may then interleave, which permutes what is sent
    and leaves the ids and the tables the same.  A batch that waits for ever
    does not keep the others from running. *)
Definition traceNativeTargets (host : Host) (targets : NativeTargets)
  (w : World) : World * Completion :=
  let '(cGroups, objcGroups, swiftGroups) := group_targets targets in
  let '(w, c1) := traceNativeEntries host TypeC cGroups w in
  let '(w, c2) := traceNativeEntries host TypeObjC objcGroups w in
  let '(w, c3) := traceNativeEntries host TypeSwift swiftGroups w in
  (w, both c1 (both c2 c3)).

(** The scopes of the request of [traceJavaTargets]: one per class, its
    members the bare names with [Class.name] for display. *)
Definition java_scope (entry : JavaClassName * JavaTargetClass)
  : HandlerRequestScope :=
  let className := entry.1 in
  let bareClassName :=
    List.last (JsString.split "." className) EmptyString in
  {| scope_name := className;
     scope_members :=
       map (fun bareName =>
              MemberPair bareName (bareClassName +:+ "." +:+ bareName))
         (JsMap.keys (methods entry.2)) |}.

(** The methods of the groups, in the order of the request. *)
Definition java_methods (groups : list JavaTargetGroup)
  : list (JavaClassName * JavaMethodName * string) :=
  flat_map
    (fun group =>
       flat_map
         (fun entry : JavaClassName * JavaTargetClass =>
            map (fun m : JavaMethodName * string => (entry.1, m.1, m.2))
              (JsMap.entries (methods entry.2)))
         (JsMap.entries (classes group)))
    groups.

(** One turn of the innermost loop of [traceJavaTargets]. *)
Definition wrap_method (baseId : Z) (scripts : list HandlerScript)
  (st : World * nat) (m : JavaClassName * JavaMethodName * string)
  : World * nat :=
  let '(w, offset) := st in
  let '(className, bareName, fullName) := m in
  let id := (baseId + Z.of_nat offset)%Z in
  let '(handler, w) := parseHandler fullName (script_at scripts offset) w in
  let w := set_handler id handler w in
  (add_wrapper className bareName id w, S offset).

(** [traceJavaTargets] *)
Definition traceJavaTargets (host : Host) (groups : list JavaTargetGroup)
  (w : World) : World * Completion :=
  let baseId := nextId w in
  let scopes :=
    flat_map (fun group => map java_scope (JsMap.entries (classes group)))
      groups in
  let w := advance_nextId (length (flat_members scopes)) w in
  let request :=
    {| Provisioning.flavor := TypeJava; baseId := baseId; scopes := scopes |} in
  let '(requests, outcome) := getHandlers host request in
  let w := fold_left (fun w r => send (HandlersGet r) w) requests w in
  match outcome with
  | Returned response =>
      ((fold_left (wrap_method baseId (scripts response))
          (java_methods groups) (w, 0)).1, Done)
  | Stalled | OutOfFuel => (w, Pending)
  end.

(** The callback given to [Java.perform]: the queued rules, then
    [traceJavaTargets]. *)
Definition apply_java_entries `{JavaRuntime}
  (javaEntries : list (TraceSpecOperation * string)) (plan : TracePlan)
  : TracePlan :=
  fold_left
    (fun plan (entry : TraceSpecOperation * string) =>
       match entry.1 with
       | Include => includeJavaMethod entry.2 plan
       | Exclude | Filter => excludeJavaMethod entry.2 plan
       end)
    javaEntries plan.

Definition java_start `{JavaRuntime} (host : Host)
  (javaEntries : list (TraceSpecOperation * string)) (plan : TracePlan)
  (w : World) : World * Completion :=
  traceJavaTargets host (java (apply_java_entries javaEntries plan)) w.

(** The Java methods that [start] provisions: those of the plan after the
    queued rules, none when no rule was queued. *)
Definition managed_targets `{JavaRuntime}
  (javaEntries : list (TraceSpecOperation * string)) (plan : TracePlan)
  : nat :=
  match javaEntries with
  | [] => 0
  | _ :: _ =>
      length (java_methods (java (apply_java_entries javaEntries plan)))
  end.

(** [start] from the end of its loop over the rules: [plan] holds the native
    targets the loop resolved and [javaEntries] the Java rules it queued.  An
    error thrown here is the one that [init] reports with [agent:error].
    When [Java.perform] defers its callback, the callback runs here once the
    native targets are done; in the agent it may run earlier, between two
    replies of the host, and take its ids earlier. *)
Definition start `{JavaRuntime} (host : Host)
  (javaEntries : list (TraceSpecOperation * string)) (plan : TracePlan)
  (w : World) : World :=
  let started w := send (AgentStarted (size (handlers w))) w in
  match javaEntries with
  | [] =>
      let '(w, c) := traceNativeTargets host (native plan) w in
      match c with
      | Done => started (send AgentInitialized w)
      | Pending => w
      end
  | _ :: _ =>
      if negb java_available
      then send (AgentError "Java runtime is not available") w
      else if java_perform_now then
        let '(w, cj) := java_start host javaEntries plan w in
        let '(w, cn) := traceNativeTargets host (native plan) w in
        match both cn cj with
        | Done => started (send AgentInitialized w)
        | Pending => w
        end
      else
        let '(w, cn) := traceNativeTargets host (native plan) w in
        let w := match cn with
                 | Done => send AgentInitialized w
                 | Pending => w
                 end in
        let '(w, cj) := java_start host javaEntries plan w in
        match both cn cj with
        | Done => started w
        | Pending => w
        end
  end.

End Agent.

Arguments World : clear implicits.
Arguments Frida : clear implicits.

End Session.

(** ** Sample data for the worked examples *)

Module Samples.
Import TargetPlan.

Definition no_signature : MethodTypeSignature :=
  {| argInfo := ∅; retType := false; sel := None |}.

Definition objc_target (addr cls method : string)
  : NativeId * NativeTarget :=
  (addr, (NativeObjC, cls,
          MemberTyped method ("-[" +:+ cls +:+ " " +:+ method +:+ "]")
            no_signature)).

(** Three methods named [foo], of the classes [A], [B] and [C]. *)
Definition three_foo : TracePlan :=
  {| native := [objc_target "0x1" "A" "foo"; objc_target "0x2" "B" "foo";
                objc_target "0x3" "C" "foo"];
     java := [] |}.

(** A class [C] with one instance variable [_name]; no other class. *)
Definition only_class_C : ObjCRuntime :=
  {| objc_enumerateMatches := fun _ => [];
     objc_signature := fun _ => no_signature;
     objc_probe := fun className =>
       if decide (className = "C") then IvarKeys ["_name"] else NoSuchClass |}.

(** The accessors of [name] and the three lifecycle methods of [C], as the
    Objective-C resolver names them, and an exported C function [dealloc]. *)
Definition class_C_plan : TracePlan :=
  {| native :=
       [objc_target "0x10" "C" "name";
        objc_target "0x11" "C" "setName:";
        objc_target "0x12" "C" "dealloc";
        objc_target "0x13" "C" ".cxx_destruct";
        ("0x14", (NativeObjC, "C", MemberTyped "alloc" "+[C alloc]" no_signature));
        ("0x15", (NativeC, "libfoo.dylib", MemberBare "dealloc"))];
     java := [] |}.

(** A Java runtime in which two patterns enumerate one overload each of the
    method [foo] of the class [com.example.K] of the loader 5. *)
Definition one_overload (methodName : string) : EnumerateMethodsMatchGroup :=
  {| group_loader := Some 5;
     group_classes :=
       [{| class_name := "com.example.K"; class_methods := [methodName] |}] |}.

Definition two_overloads : JavaRuntime :=
  {| java_available := true;
     java_enumerateMethods := fun pattern =>
       if decide (pattern = "*K!foo()V") then [one_overload "foo()V"]
       else if decide (pattern = "*K!foo(I)V") then [one_overload "foo(I)V"]
       else [] |}.

(** A plan that knows the loader 5, for another class. *)
Definition other_class_plan : TracePlan :=
  {| native := [];
     java :=
       [{| loader := Some 5;
           classes :=
             [("com.example.Other", {| methods := [("bar", "bar()V")] |})] |}]
  |}.

(** An agent just created, at the time 1000, whose handlers take and log
    strings. *)
Definition fresh_agent : Dispatch.Agent unit :=
  {| Dispatch.stackDepth := ∅;
     Dispatch.traceState := tt;
     Dispatch.started := 1000%Z;
     Dispatch.pendingEvents := [];
     Dispatch.flushTimer := false |}.

(** A handler that logs once on entry and once on exit. *)
Definition open_handler : @Dispatch.TraceHandler string unit :=
  (fun args st => ([["open"; args]], st),
   fun retval st => ([["=>"; retval]], st)).

Definition call_of (cutPoint : Dispatch.CutPoint) (now : Z)
  : Dispatch.ProbeCall string unit :=
  {| Dispatch.call_cutPoint := cutPoint;
     Dispatch.call_now := now;
     Dispatch.call_id := 1%Z;
     Dispatch.call_callback :=
       match cutPoint with
       | Dispatch.Enter => open_handler.1
       | Dispatch.Leave => open_handler.2
       end;
     Dispatch.call_param := "x" |}.

(** A host that answers every request, with one script per member that
    names the target id and the member. *)
Definition sample_answer (id : Z) (m : MemberName)
  : Provisioning.HandlerScript :=
  "/* " +:+ NilZero.string_of_int (Z.to_int id) +:+ " "
  +:+ displayName_of m +:+ " */ {}".

Definition answering_host : Provisioning.Host :=
  fun req =>
    Some {| Provisioning.scripts :=
              imap (fun k m =>
                      sample_answer (Provisioning.baseId req + Z.of_nat k)%Z m)
                (Provisioning.flat_members (Provisioning.scopes req)) |}.

(** A host that never answers. *)
Definition silent_host : Provisioning.Host := fun _ => None.

(** [n] functions [f0], [f1], ... of one module. *)
Definition functions (start n : nat) : list MemberName :=
  map (fun k => MemberBare ("f" +:+ NilZero.string_of_uint (Nat.to_uint k)))
    (seq start n).

(** A request for [n] functions from the id 1 on, spread over a module with
    up to 1200 of them, a module with none and a module with the rest. *)
Definition request_of (n : nat) : Provisioning.HandlerRequest :=
  {| Provisioning.flavor := TypeC;
     Provisioning.baseId := 1%Z;
     Provisioning.scopes :=
       [{| Provisioning.scope_name := "libfoo.so";
           Provisioning.scope_members := functions 0 (n `min` 1200) |};
        {| Provisioning.scope_name := "libempty.so";
           Provisioning.scope_members := [] |};
        {| Provisioning.scope_name := "libbar.so";
           Provisioning.scope_members := functions 1200 (n - 1200) |}] |}.

(** The request of a Java class all of whose methods were excluded. *)
Definition empty_java_request : Provisioning.HandlerRequest :=
  {| Provisioning.flavor := TypeJava;
     Provisioning.baseId := 7%Z;
     Provisioning.scopes :=
       [{| Provisioning.scope_name := "com.example.Empty";
           Provisioning.scope_members := [] |}] |}.

(** A session in which the scripts are well formed and the interceptor
    refuses every address. *)
Definition refusing_interceptor : Session.Frida string unit :=
  {| Session.eval_handler := fun _ => inl (Dispatch.noop, Dispatch.noop);
     Session.attach_error := fun address =>
       Some ("unable to intercept function at " +:+ address);
     Session.java_perform_now := true |}.

Definition no_java : JavaRuntime :=
  {| java_available := false; java_enumerateMethods := fun _ => [] |}.

(** The plan of the rule [(include, function, "libfoo!bar")]. *)
Definition bar_plan : TracePlan :=
  {| native := [("0x1000", (NativeC, "libfoo", MemberBare "bar"))];
     java := [] |}.

Definition new_world : Session.World string unit :=
  {| Session.handlers := ∅;
     Session.nextId := 1%Z;
     Session.sent := [];
     Session.listeners := [];
     Session.wrappers := [] |}.

End Samples.

(** ** The event queue as the agent drives it *)

Module Batcher.
Import Dispatch.

Section Steps.
Context {TraceState : Type}.

(** What happens to the queue: a handler logs and [emit] runs, or [flush]
    runs because its timer fires or [dispose] is called. *)
Inductive Step :=
| Emitted (event : TraceEvent)
| Flushed.

(** [dispose] *)
Definition dispose (a : Agent TraceState)
  : Agent TraceState * option (list TraceEvent) :=
  flush a.

(** One step, with the batches sent to the host so far. *)
Definition step (st : Agent TraceState * list (list TraceEvent)) (s : Step)
  : Agent TraceState * list (list TraceEvent) :=
  match s with
  | Emitted event => (emit event st.1, st.2)
  | Flushed =>
      ((flush st.1).1,
       match (flush st.1).2 with
       | Some events => st.2 ++ [events]
       | None => st.2
       end)
  end.

Definition run (steps : list Step) (a : Agent TraceState)
  : Agent TraceState * list (list TraceEvent) :=
  fold_left step steps (a, []).

(** The events emitted by a sequence of steps, in order. *)
Definition emitted (steps : list Step) : list TraceEvent :=
  omap (fun s => match s with Emitted e => Some e | Flushed => None end)
    steps.

(** Events wait in the queue only while a flush is scheduled. *)
Definition scheduled (a : Agent TraceState) : Prop :=
  pendingEvents a <> [] -> flushTimer a = true.

End Steps.

End Batcher.

(** ** The depth table under the callbacks of several threads *)

Module Threads.
Import Dispatch.

(** The table after a sequence of probe callbacks, each on its thread. *)
Definition depth_after (calls : list (ThreadId * CutPoint))
  (m : gmap ThreadId Z) : gmap ThreadId Z :=
  fold_left (fun m c => (updateDepth c.1 c.2 m).1) calls m.

(** The cut points of the callbacks of one thread. *)
Definition calls_of (tid : ThreadId) (calls : list (ThreadId * CutPoint))
  : list CutPoint :=
  (filter (fun c : ThreadId * CutPoint => c.1 = tid) calls).*2.

(** What a callback adds to the depth of its thread. *)
Definition delta (c : CutPoint) : Z :=
  match c with Enter => 1%Z | Leave => (-1)%Z end.

(** The depth that the next callback of a thread reads. *)
Definition depth_read (tid : ThreadId) (m : gmap ThreadId Z) : Z :=
  default 0%Z (m !! tid).

End Threads.

(** ** The handler table *)

Module Registry.
Import TargetPlan Provisioning Dispatch Session.

Section Agent.
Context {Param TraceState : Type} `{!Frida Param TraceState}.

(** The pair that [parseHandler] makes of a script: what the script
    evaluates to, the two no-ops when its evaluation throws. *)
Definition handler_of_script (script : string)
  : @TraceHandler Param TraceState :=
  match eval_handler ("(" +:+ script +:+ ")") with
  | inl h => h
  | inr _ => (noop, noop)
  end.

(** [update]: it throws for an id without handler; otherwise both halves of
    the pair of the id are replaced by those of the new script.  The agent
    writes them into the pair that the probes of the target hold; here the
    probes hold the id and the pair is the entry of the table. *)
Definition update (id : TraceTargetId) (name script : string)
  (w : World Param TraceState) : World Param TraceState + string :=
  match handlers w !! id with
  | None => inr "Invalid target ID"
  | Some _ =>
      let '(newHandler, w) := parseHandler name script w in
      inl (set_handler id newHandler w)
  end.

(** The listeners that the attachment loop of [traceNativeEntries] leaves
    for a list of items: one for each item whose attachment does not throw,
    with the id of the place of the item. *)
Definition attached_listeners (baseId : Z) (offset : nat)
  (items : list NativeItem) : list (NativeId * TraceTargetId) :=
  omap (fun x => x)
    (imap (fun i (item : NativeItem) =>
             match attach_error item.2 with
             | None => Some (item.2, (baseId + Z.of_nat (offset + i))%Z)
             | Some _ => None
             end) items).

(** The [handlers:get] requests among the messages sent. *)
Definition is_request (m : Message) : option HandlerRequest :=
  match m with
  | HandlersGet r => Some r
  | _ => None
  end.

Definition requests_sent (ms : list Message) : list HandlerRequest :=
  omap is_request ms.

(** The messages that end [start]. *)
Definition is_final (m : Message) : bool :=
  match m with
  | AgentStarted _ | AgentError _ => true
  | _ => false
  end.

Definition is_warning (m : Message) : bool :=
  match m with
  | AgentWarning _ => true
  | _ => false
  end.

(** A step of [start] from [w] to [w'] with the completion [c]: it only
    adds to what was sent, neither [agent:started] nor [agent:error], and it
    is done
    exactly when the host has answered every request that it sent. *)
Definition phase (host : Host) (w w' : World Param TraceState)
  (c : Completion) : Prop :=
  exists ms,
    sent w' = sent w ++ ms
    /\ Forall (fun m => is_final m = false) ms
    /\ (c = Done <-> Forall (fun r => is_Some (host r)) (requests_sent ms)).

(** The targets of a plan as the attachment loop takes them: the name and
    the address. *)
Definition target_items (targets : NativeTargets) : list NativeItem :=
  map (fun entry : NativeId * NativeTarget => (entry.2.2, entry.1)) targets.

(** The ids from [first] on, [count] of them. *)
Definition id_range (first : Z) (count : nat) (k : Z) : Prop :=
  (first <= k < first + Z.of_nat count)%Z.

(** [w'] is [w] after the items were provisioned with the scripts of
    [answer]: the id counter has moved past one id per item; under each of
    these ids, and nowhere else, the table has changed; every item has its
    handler under one of them, and its listener when its attachment did not
    throw; and every listener gained belongs to such an item. *)
Definition provisioned (answer : Z -> MemberName -> HandlerScript)
  (items : list NativeItem) (w w' : World Param TraceState) : Prop :=
  nextId w' = (nextId w + Z.of_nat (length items))%Z
  /\ wrappers w' = wrappers w
  /\ (forall k, ~ id_range (nextId w) (length items) k ->
                handlers w' !! k = handlers w !! k)
  /\ (forall x, x ∈ listeners w -> x ∈ listeners w')
  /\ (forall item,
        item ∈ items ->
        exists k,
          id_range (nextId w) (length items) k
          /\ handlers w' !! k = Some (handler_of_script (answer k item.1))
          /\ (attach_error item.2 = None -> (item.2, k) ∈ listeners w'))
  /\ (forall address k,
        (address, k) ∈ listeners w' ->
        (address, k) ∈ listeners w
        \/ (id_range (nextId w) (length items) k
            /\ attach_error address = None
            /\ exists name,
                 (name, address) ∈ items
                 /\ handlers w' !! k
                    = Some (handler_of_script (answer k name)))).

(** The ids under which the probes in place report. *)
Definition probe_ids (w : World Param TraceState) : list TraceTargetId :=
  (listeners w).*2 ++ (wrappers w).*2.


(** The ids in use are those from [first] up to the id counter. *)
Definition consecutive (first : Z) (w : World Param TraceState) : Prop :=
  forall k, is_Some (handlers w !! k) <-> (first <= k < nextId w)%Z.

(** A step of [start] from [w] to [w'] that takes [n] ids: handlers and
    probes are only added, under the ids taken, each probe under an id of
    its own that has a handler; and when the step is done, each id taken
    has a handler. *)
Definition grows (n : nat) (c : Completion) (w w' : World Param TraceState)
  : Prop :=
  nextId w' = (nextId w + Z.of_nat n)%Z
  /\ (forall k, ~ id_range (nextId w) n k ->
                handlers w' !! k = handlers w !! k)
  /\ (forall k, is_Some (handlers w' !! k) ->
                is_Some (handlers w !! k) \/ id_range (nextId w) n k)
  /\ (c = Done -> forall k, id_range (nextId w) n k ->
                            is_Some (handlers w' !! k))
  /\ exists added,
       probe_ids w' ≡ₚ probe_ids w ++ added
       /\ NoDup added
       /\ forall k, k ∈ added ->
                    id_range (nextId w) n k /\ is_Some (handlers w' !! k).

(** Whether [update] threw. *)
Definition threw {A : Type} (r : A + string) : Prop :=
  match r with
  | inl _ => False
  | inr _ => True
  end.

End Agent.

End Registry.

(** ** Java dispatch *)

Module JavaDispatch.
Import Dispatch.

Section Java.
(** Java values, the wrappers of Java objects and of Java exceptions, and
    whatever else a script can throw. *)
Context {Value Instance Throwable Error TraceState : Type}.

(** What a [throw] carries: a Java exception, which is a wrapper and has
    [$h]; [null] or [undefined]; or any other value. *)
Inductive Thrown :=
| JavaException (e : Throwable)
| Nullish
| ScriptError (e : Error).

(** How a call ends. *)
Inductive Ending (A : Type) :=
| Returns (v : A)
| Throws (t : Thrown).
Arguments Returns {A}.
Arguments Throws {A}.

(** What the agent sees of a handler callback on a Java method: the calls
    of [log] it makes, what it leaves in the shared state, and how it ends;
    [Returns None] is a callback that returns [undefined]. *)
Definition JavaCallback (P : Type) : Type :=
  Instance -> P -> TraceState
  -> list (list string) * TraceState * Ending (option Value).

(** [[onEnter, onLeave]]: the first takes the arguments, the second the
    return value. *)
Definition JavaHandler : Type := JavaCallback (list Value) * JavaCallback Value.

(** The agent, and the errors given to [Script.nextTick] to be thrown from
    there, outside of the traced call. *)
Record JavaAgent := {
  agent : Agent TraceState;
  deferred : list Error
}.

(** The original implementation, [method.apply(instance, args)].  It may
    run traced methods in turn, so it works on the agent too. *)
Definition JavaMethod : Type :=
  Instance -> list Value -> JavaAgent -> JavaAgent * Ending Value.

(** The TypeError of reading [$h] of [null] or [undefined]. *)
Context (type_error : Error).

(** [invokeJavaHandler]; [now] is what [Date.now()] reads and [threadId]
    what [Process.getCurrentThreadId()] gives. *)
Definition invokeJavaHandler {P : Type} (now : Z) (threadId : ThreadId)
  (id : TraceTargetId) (callback : JavaCallback P) (instance : Instance)
  (param : P) (cutPoint : CutPoint) (s : JavaAgent)
  : JavaAgent * Ending (option Value) :=
  let a := agent s in
  let timestamp := (now - started a)%Z in
  let '(depthEntries, depth) := updateDepth threadId cutPoint (stackDepth a) in
  let '(logged, state, ending) := callback instance param (traceState a) in
  let a :=
    log_all id timestamp threadId depth logged
      {| stackDepth := depthEntries;
         traceState := state;
         started := started a;
         pendingEvents := pendingEvents a;
         flushTimer := flushTimer a |} in
  match ending with
  | Returns v => ({| agent := a; deferred := deferred s |}, Returns v)
  | Throws (JavaException e) =>
      ({| agent := a; deferred := deferred s |}, Throws (JavaException e))
  | Throws Nullish =>
      ({| agent := a; deferred := deferred s |},
       Throws (ScriptError type_error))
  | Throws (ScriptError e) =>
      ({| agent := a; deferred := deferred s ++ [e] |}, Returns None)
  end.

(** [handleJavaInvocation], the body of the wrapper that
    [makeJavaMethodWrapper] installs. *)
Definition handleJavaInvocation (now_enter now_leave : Z)
  (threadId : ThreadId) (id : TraceTargetId) (method : JavaMethod)
  (handler : JavaHandler) (instance : Instance) (args : list Value)
  (s : JavaAgent) : JavaAgent * Ending Value :=
  match invokeJavaHandler now_enter threadId id handler.1 instance args
          Enter s with
  | (s, Throws t) => (s, Throws t)
  | (s, Returns _) =>
      match method instance args s with
      | (s, Throws t) => (s, Throws t)
      | (s, Returns retval) =>
          match invokeJavaHandler now_leave threadId id handler.2 instance
                  retval Leave s with
          | (s, Throws t) => (s, Throws t)
          | (s, Returns None) => (s, Returns retval)
          | (s, Returns (Some replacementRetval)) =>
              (s, Returns replacementRetval)
          end
      end
  end.

(** A callback that, on this call, neither throws a Java exception nor
    [null] or [undefined]. *)
Definition contained {P : Type} (callback : JavaCallback P)
  (instance : Instance) (param : P) (state : TraceState) : Prop :=
  match (callback instance param state).2 with
  | Returns _ | Throws (ScriptError _) => True
  | Throws (JavaException _) | Throws Nullish => False
  end.

(** The value a callback returned and the error it left to be thrown
    later. *)
Definition returned (ending : Ending (option Value)) : option Value :=
  match ending with
  | Returns v => v
  | Throws _ => None
  end.

Definition script_errors (ending : Ending (option Value)) : list Error :=
  match ending with
  | Throws (ScriptError e) => [e]
  | _ => []
  end.

End Java.

Arguments Thrown : clear implicits.
Arguments Ending : clear implicits.
Arguments Returns {Throwable Error A}.
Arguments Throws {Throwable Error A}.
Arguments JavaAgent : clear implicits.

End JavaDispatch.

(** ** The rules of a trace specification *)

Module Rules.
Import TargetPlan Session.

Inductive TraceSpecScope :=
| ScopeModule
| ScopeFunction
| ScopeRelativeFunction
| ScopeImports
| ScopeObjCMethod
| ScopeObjCProperty
| ScopeSwiftFunc
| ScopeJavaMethod
| ScopeDebugSymbol.

Definition TraceSpecPattern := string.

Definition TraceSpec : Type :=
  list (TraceSpecOperation * TraceSpecScope * TraceSpecPattern).

(** [DebugSymbol.fromAddress(address)] with [address.toString()]. *)
Record DebugSymbolDetails := {
  symbol_address : NativeId;
  symbol_moduleName : option string;
  symbol_name : string
}.

(** What the rules ask of Frida, apart from the Objective-C runtime.  The
    enumerations are taken to return; where the agent itself catches or
    raises an error, the error is in the result. *)
Class NativeRuntime := {
  (** [getModuleResolver().enumerateMatches(query)] *)
  module_enumerateMatches : string -> list ApiResolverMatch;
  (** Whether [new ApiResolver("objc")] succeeds. *)
  objc_resolver_available : bool;
  (** [getSwiftResolver().enumerateMatches(query)]; [None] when
      [new ApiResolver("swift")] throws. *)
  swift_enumerateMatches : option (string -> list ApiResolverMatch);
  (** [Process.enumerateModules()[0].path] *)
  main_module_path : string;
  (** [DebugSymbol.findFunctionsMatching(pattern)], each address with its
      symbol. *)
  debug_findFunctionsMatching : string -> list DebugSymbolDetails;
  (** The JavaScript numbers that [parseInt] gives, [NaN] among them;
      [parseInt(x, 16)], where [None] is [undefined]; and [n.toString(16)]. *)
  JsNumber : Type;
  parseInt16 : option string -> JsNumber;
  toString16 : JsNumber -> string;
  (** [Module.getBaseAddress(module).add(offset).toString()], or the message
      of the error thrown. *)
  relative_address : string -> JsNumber -> NativeId + string
}.

(** [s.indexOf(c) === -1] *)
Definition free_of (c : ascii) (s : string) : Prop :=
  JsString.indexOf c s = None.

(** [tokens.slice(-2)] *)
Definition slice_last_two {A : Type} (tokens : list A) : list A :=
  drop (length tokens - 2) tokens.

(** A name that a destructuring leaves [undefined].  The resolvers name
    every function [module!function], so that this does not arise with
    them; the empty string stands for it. *)
Definition or_undefined (name : option string) : string :=
  default EmptyString name.

(** [moduleFunctionTargetFromMatch] *)
Definition moduleFunctionTargetFromMatch (m : ApiResolverMatch)
  : NativeTarget :=
  let tokens := slice_last_two (JsString.split "!" (match_name m)) in
  (NativeC, or_undefined (tokens !! 0), MemberBare (or_undefined (tokens !! 1))).

(** [swiftFuncTargetFromMatch] *)
Definition swiftFuncTargetFromMatch (m : ApiResolverMatch) : NativeTarget :=
  let tokens := take 2 (JsString.split "!" (match_name m)) in
  (NativeSwift, or_undefined (tokens !! 0),
   MemberBare (or_undefined (tokens !! 1))).

(** [debugSymbolTargetFromAddress] *)
Definition debugSymbolTargetFromAddress (symbol : DebugSymbolDetails)
  : NativeTarget :=
  (NativeC, default EmptyString (symbol_moduleName symbol),
   MemberBare (symbol_name symbol)).

(** [parseModuleFunctionPattern]: the module and the function. *)
Definition parseModuleFunctionPattern (pattern : string) : string * string :=
  match take 2 (JsString.split "!" pattern) with
  | [f] => ("*", f)
  | m :: f :: _ =>
      (match m with EmptyString => "*" | _ => m end,
       match f with EmptyString => "*" | _ => f end)
  | [] => ("*", EmptyString)
  end.

(** The loops over the matches of a resolver. *)
Definition set_matches (target : ApiResolverMatch -> NativeTarget)
  (matches : list ApiResolverMatch) (native : NativeTargets) : NativeTargets :=
  fold_left
    (fun native m => JsMap.set (match_address m) (target m) native)
    matches native.

Definition delete_matches (matches : list ApiResolverMatch)
  (native : NativeTargets) : NativeTargets :=
  fold_left (fun native m => JsMap.delete (match_address m) native)
    matches native.

Section Rules.
Context `{NativeRuntime} `{ObjCRuntime} `{RegExpEngine}.

(** [parseRelativeFunctionPattern]: the module and the offset. *)
Definition parseRelativeFunctionPattern (pattern : string)
  : string * JsNumber :=
  let tokens := take 2 (JsString.split "!" pattern) in
  (default EmptyString (tokens !! 0), parseInt16 (tokens !! 1)).

Definition module_query (pattern : string) : string :=
  "exports:" +:+ pattern +:+ "!*".

Definition function_query (pattern : string) : string :=
  let e := parseModuleFunctionPattern pattern in
  "exports:" +:+ e.1 +:+ "!" +:+ e.2.

Definition swift_query (pattern : string) : string :=
  "functions:" +:+ pattern.

Definition includeModule (pattern : string) (plan : TracePlan) : TracePlan :=
  with_native plan
    (set_matches moduleFunctionTargetFromMatch
       (module_enumerateMatches (module_query pattern)) (native plan)).

Definition excludeModule (pattern : string) (plan : TracePlan) : TracePlan :=
  with_native plan
    (delete_matches (module_enumerateMatches (module_query pattern))
       (native plan)).

Definition includeFunction (pattern : string) (plan : TracePlan)
  : TracePlan :=
  with_native plan
    (set_matches moduleFunctionTargetFromMatch
       (module_enumerateMatches (function_query pattern)) (native plan)).

Definition excludeFunction (pattern : string) (plan : TracePlan)
  : TracePlan :=
  with_native plan
    (delete_matches (module_enumerateMatches (function_query pattern))
       (native plan)).

(** [includeRelativeFunction]; the error is the one that
    [Module.getBaseAddress] or [add] throws. *)
Definition includeRelativeFunction (pattern : string) (plan : TracePlan)
  : TracePlan + string :=
  let e := parseRelativeFunctionPattern pattern in
  match relative_address e.1 e.2 with
  | inr message => inr message
  | inl address =>
      inl (with_native plan
             (JsMap.set address
                (NativeC, e.1, MemberBare ("sub_" +:+ toString16 e.2))
                (native plan)))
  end.

(** [includeImports]; [None] is the pattern [null]. *)
Definition includeImports (pattern : option string) (plan : TracePlan)
  : TracePlan :=
  let matches :=
    match pattern with
    | None =>
        module_enumerateMatches ("imports:" +:+ main_module_path +:+ "!*")
    | Some pattern =>
        module_enumerateMatches ("imports:" +:+ pattern +:+ "!*")
    end in
  with_native plan
    (set_matches moduleFunctionTargetFromMatch matches (native plan)).

(** [includeSwiftFunc] and [excludeSwiftFunc]; [getSwiftResolver] throws
    when the Swift runtime is not there. *)
Definition includeSwiftFunc (pattern : string) (plan : TracePlan)
  : TracePlan + string :=
  match swift_enumerateMatches with
  | None => inr "Swift runtime is not available"
  | Some enumerateMatches =>
      inl (with_native plan
             (set_matches swiftFuncTargetFromMatch
                (enumerateMatches (swift_query pattern)) (native plan)))
  end.

Definition excludeSwiftFunc (pattern : string) (plan : TracePlan)
  : TracePlan + string :=
  match swift_enumerateMatches with
  | None => inr "Swift runtime is not available"
  | Some enumerateMatches =>
      inl (with_native plan
             (delete_matches (enumerateMatches (swift_query pattern))
                (native plan)))
  end.

(** [includeDebugSymbol] *)
Definition includeDebugSymbol (pattern : string) (plan : TracePlan)
  : TracePlan :=
  with_native plan
    (fold_left
       (fun native symbol =>
          JsMap.set (symbol_address symbol)
            (debugSymbolTargetFromAddress symbol) native)
       (debug_findFunctionsMatching pattern) (native plan)).

(** [includeObjCMethod] and [excludeObjCMethod] ask for the resolver once
    per fragment of the pattern: [getObjcResolver] throws at the first
    fragment when the runtime is not there, and is not called for a pattern
    without fragments. *)
Definition with_objc_resolver (pattern : string) (plan : TracePlan)
  : TracePlan + string :=
  match parseMethodPattern pattern with
  | [] => inl plan
  | _ :: _ =>
      if objc_resolver_available then inl plan
      else inr "Objective-C runtime is not available"
  end.

(** One turn of the loop of [start] over the specification: the plan and
    the Java rules queued so far, or the message of the error thrown. *)
Definition apply_rule
  (st : TracePlan * list (TraceSpecOperation * string))
  (rule : TraceSpecOperation * TraceSpecScope * TraceSpecPattern)
  : TracePlan * list (TraceSpecOperation * string) + string :=
  let '(plan, javaEntries) := st in
  let '(operation, scope, pattern) := rule in
  let planned (r : TracePlan + string) :=
    match r with
    | inl plan => inl (plan, javaEntries)
    | inr message => inr message
    end in
  match scope with
  | ScopeModule =>
      match operation with
      | Include => planned (inl (includeModule pattern plan))
      | _ => planned (inl (excludeModule pattern plan))
      end
  | ScopeFunction =>
      match operation with
      | Include => planned (inl (includeFunction pattern plan))
      | _ => planned (inl (excludeFunction pattern plan))
      end
  | ScopeRelativeFunction =>
      match operation with
      | Include => planned (includeRelativeFunction pattern plan)
      | _ => planned (inl plan)
      end
  | ScopeImports =>
      match operation with
      | Include => planned (inl (includeImports (Some pattern) plan))
      | _ => planned (inl plan)
      end
  | ScopeObjCMethod =>
      match operation with
      | Include =>
          planned (with_objc_resolver pattern (includeObjCMethod pattern plan))
      | Exclude =>
          planned (with_objc_resolver pattern (excludeObjCMethod pattern plan))
      | Filter => planned (inl (filterObjCMethod pattern plan))
      end
  | ScopeObjCProperty =>
      match operation with
      | Exclude => planned (inl (excludeObjCProperty pattern plan))
      | _ => planned (inl plan)
      end
  | ScopeSwiftFunc =>
      match operation with
      | Include => planned (includeSwiftFunc pattern plan)
      | _ => planned (excludeSwiftFunc pattern plan)
      end
  | ScopeJavaMethod => inl (plan, javaEntries ++ [(operation, pattern)])
  | ScopeDebugSymbol =>
      match operation with
      | Include => planned (inl (includeDebugSymbol pattern plan))
      | _ => planned (inl plan)
      end
  end.

(** The loop of [start] over the specification, from the empty plan. *)
Definition apply_rules (spec : TraceSpec)
  (st : TracePlan * list (TraceSpecOperation * string))
  : TracePlan * list (TraceSpecOperation * string) + string :=
  fold_left
    (fun r rule =>
       match r with
       | inl st => apply_rule st rule
       | inr message => inr message
       end)
    spec (inl st).

Definition resolve (spec : TraceSpec)
  : TracePlan * list (TraceSpecOperation * string) + string :=
  apply_rules spec ({| native := JsMap.empty; java := [] |}, []).

(** The addresses that the resolver matches for a rule of the scopes
    [module], [function], [swift-func] and [objc-method]. *)
Definition matched_addresses (scope : TraceSpecScope)
  (pattern : TraceSpecPattern) : list NativeId :=
  match_address <$>
    match scope with
    | ScopeModule => module_enumerateMatches (module_query pattern)
    | ScopeFunction => module_enumerateMatches (function_query pattern)
    | ScopeSwiftFunc =>
        match swift_enumerateMatches with
        | Some enumerateMatches => enumerateMatches (swift_query pattern)
        | None => []
        end
    | ScopeObjCMethod =>
        flat_map objc_enumerateMatches (parseMethodPattern pattern)
    | _ => []
    end.

(** The scopes whose rules include and exclude what a resolver matches. *)
Definition resolver_scope (scope : TraceSpecScope) : bool :=
  match scope with
  | ScopeModule | ScopeFunction | ScopeSwiftFunc | ScopeObjCMethod => true
  | _ => false
  end.

(** The Java rules of a specification, in order. *)
Definition java_rules (spec : TraceSpec)
  : list (TraceSpecOperation * string) :=
  omap
    (fun rule : TraceSpecOperation * TraceSpecScope * TraceSpecPattern =>
       match rule.1.2 with
       | ScopeJavaMethod => Some (rule.1.1, rule.2)
       | _ => None
       end)
    spec.

End Rules.

End Rules.

(** ** From [init] to [agent:started] *)

Module Lifecycle.
Import TargetPlan Provisioning Session Rules.

(** An init script: its file name and, when its evaluation throws, the
    stack of the error. *)
Record InitScript := {
  script_filename : string;
  script_stack : option string
}.

(** The loop of [init] over the init scripts: the message of the error it
    throws at the first script whose evaluation throws. *)
Fixpoint load_scripts (initScripts : list InitScript) : option string :=
  match initScripts with
  | [] => None
  | script :: rest =>
      match script_stack script with
      | Some stack =>
          Some ("Unable to load " +:+ script_filename script +:+ ": "
                +:+ stack)
      | None => load_scripts rest
      end
  end.

Section Agent.
Context {Param TraceState : Type} `{!Frida Param TraceState}.
Context `{NativeRuntime} `{ObjCRuntime} `{RegExpEngine} `{JavaRuntime}.

(** [init]: it throws when an init script cannot be loaded; otherwise it
    runs [start] on the specification and reports what [start] throws with
    [agent:error]. *)
Definition init (initScripts : list InitScript) (host : Host)
  (spec : TraceSpec) (w : World Param TraceState)
  : World Param TraceState + string :=
  match load_scripts initScripts with
  | Some message => inr message
  | None =>
      inl match resolve spec with
          | inl (plan, javaEntries) => start host javaEntries plan w
          | inr message => send (AgentError message) w
          end
  end.

End Agent.

End Lifecycle.

(** ** The Java part of the plan *)

Module JavaPlan.
Import TargetPlan Provisioning Session.

(** The scopes of the request of [traceJavaTargets]. *)
Definition java_request_scopes (groups : list JavaTargetGroup)
  : list HandlerRequestScope :=
  flat_map (fun group => map java_scope (JsMap.entries (classes group)))
    groups.

(** The member that the request of [traceJavaTargets] has for a method:
    its bare name, and for display the last piece of the class name, a dot
    and the bare name. *)
Definition java_member (m : JavaClassName * JavaMethodName * string)
  : MemberName :=
  MemberPair m.1.2
    (List.last (JsString.split "." m.1.1) EmptyString +:+ "." +:+ m.1.2).

(** The loaders of the plan, each with the names of its classes. *)
Definition class_names (groups : list JavaTargetGroup)
  : list (option Loader * list JavaClassName) :=
  map (fun group => (loader group, JsMap.keys (classes group))) groups.

(** The signature that a map of classes holds for a method of a class. *)
Definition class_lookup (classes : JsMap.t JavaClassName JavaTargetClass)
  (className bareName : string) : option string :=
  cls ← JsMap.get className classes; JsMap.get bareName (methods cls).

(** A signature that is kept or replaced by one that is not shorter. *)
Definition grown (before after : option string) : Prop :=
  forall signature,
    before = Some signature ->
    exists signature',
      after = Some signature'
      /\ String.length signature <= String.length signature'.

(** A signature that is kept or removed. *)
Definition shrunk (before after : option string) : Prop :=
  forall signature, after = Some signature -> before = Some signature.

End JavaPlan.

(** ** Objective-C type encodings *)

Module ObjCTypes.
Import TargetPlan.

(** [/^[rnNoORV]/]: the type qualifiers of an encoding. *)
Definition is_qualifier (c : ascii) : bool :=
  existsb (Ascii.eqb c) ["r"; "n"; "N"; "o"; "O"; "R"; "V"]%char.

(** The loop of [isObjcType]: the leading qualifiers are cut off. *)
Fixpoint strip_qualifiers (typeStr : string) : string :=
  match typeStr with
  | String c rest => if is_qualifier c then strip_qualifiers rest else typeStr
  | EmptyString => EmptyString
  end.

(** [isObjcType]; [None] is the [null] that [readUtf8String] gives for a
    null pointer, which the loop skips and the last test reads as the word
    [null]. *)
Definition isObjcType (typeStr : option string) : bool :=
  match typeStr with
  | None => false
  | Some typeStr =>
      match strip_qualifiers typeStr with
      | String c EmptyString => Ascii.eqb c "@" || Ascii.eqb c "#"
      | _ => false
      end
  end.

(** [methdTypeSignatureOf] on a method with [numberOfArg] arguments, the
    receiver and the selector among them, whose encodings the runtime gives
    as [argumentType] and [returnType]. *)
Definition methdTypeSignatureOf (numberOfArg : nat)
  (argumentType : nat -> option string) (returnType : option string)
  : MethodTypeSignature :=
  {| argInfo :=
       fold_left
         (fun argInfo argIndex =>
            if isObjcType (argumentType argIndex)
            then <[argIndex - 2 := true]> argInfo
            else argInfo)
         (seq 2 (numberOfArg - 2)) ∅;
     retType := isObjcType returnType;
     sel := None |}.

(** A string of qualifiers. *)
Fixpoint qualifiers (s : string) : bool :=
  match s with
  | String c rest => is_qualifier c && qualifiers rest
  | EmptyString => true
  end.

End ObjCTypes.

(** ** More sample data *)

Module MoreSamples.
Import TargetPlan Provisioning Dispatch Session Rules JavaDispatch Lifecycle.
Import Samples.

(** A session in which the scripts are well formed and the interceptor
    attaches every probe. *)
Definition accepting_interceptor : Session.Frida string unit :=
  {| Session.eval_handler := fun _ => inl (Dispatch.noop, Dispatch.noop);
     Session.attach_error := fun _ => None;
     Session.java_perform_now := true |}.

(** Two events are logged, the queue is flushed, a third is logged. *)
Definition sample_steps : list Batcher.Step :=
  [Batcher.Emitted (1, 5, 7, 0, "open x")%Z;
   Batcher.Emitted (1, 6, 7, 0, "=> 3")%Z;
   Batcher.Flushed;
   Batcher.Emitted (2, 9, 7, 0, "close 3")%Z].

(** While the thread 1 is in a call, the thread 2 enters one and the thread
    1 makes a nested call. *)
Definition sample_calls : list (ThreadId * CutPoint) :=
  [(2, Enter); (1, Enter); (1, Leave)]%Z.

(** The exports of a module [libfoo], and a process without Swift. *)
Definition libfoo_bar : ApiResolverMatch :=
  {| match_name := "libfoo!bar"; match_address := "0x1000" |}.

Definition libfoo_baz : ApiResolverMatch :=
  {| match_name := "libfoo!baz"; match_address := "0x2000" |}.

Definition sample_runtime : NativeRuntime :=
  {| module_enumerateMatches := fun query =>
       if decide (query = "exports:libfoo!*") then [libfoo_bar; libfoo_baz]
       else if decide (query = "exports:libfoo!bar") then [libfoo_bar]
       else [];
     objc_resolver_available := true;
     swift_enumerateMatches := None;
     main_module_path := "/bin/app";
     debug_findFunctionsMatching := fun _ => [];
     JsNumber := Z;
     parseInt16 := fun _ => 0%Z;
     toString16 := fun _ => "0";
     relative_address := fun _ _ => inr "unable to find module" |}.

Definition empty_plan : TracePlan := {| native := JsMap.empty; java := [] |}.

(** Every export of [libfoo] but [bar], and a Java method. *)
Definition sample_spec : TraceSpec :=
  [(Include, ScopeJavaMethod, "*K!foo()V");
   (Include, ScopeModule, "libfoo");
   (Exclude, ScopeFunction, "libfoo!bar")].

Definition libfoo_plan : TracePlan :=
  {| native := [("0x1000", (NativeC, "libfoo", MemberBare "bar"));
                ("0x2000", (NativeC, "libfoo", MemberBare "baz"))];
     java := [] |}.

Definition baz_plan : TracePlan :=
  {| native := [("0x2000", (NativeC, "libfoo", MemberBare "baz"))];
     java := [] |}.

(** A traced Java method over integers: [onEnter] throws a script error and
    [onLeave] replaces the return value by 42. *)
Definition sample_java_handler
  : @JavaHandler Z unit string string unit :=
  (fun _ _ st => ([["enter"]], st, Throws (ScriptError "boom")),
   fun _ _ st => ([["leave"]], st, Returns (Some 42%Z))).

Definition returning_method : @JavaMethod Z unit string string unit :=
  fun _ _ s => (s, Returns 7%Z).

Definition throwing_method : @JavaMethod Z unit string string unit :=
  fun _ _ s => (s, Throws (JavaException "java.io.IOException")).

Definition sample_java_agent : JavaAgent string unit :=
  {| agent := fresh_agent; deferred := [] |}.

End MoreSamples.

(** * Part II: properties *)

(** ** Strings *)

Section StringFacts.

Lemma split_where_nonempty p s : JsString.split_where p s <> [].
Proof.
  destruct s as [|c s]; simpl; [discriminate|].
  destruct (p c); [discriminate|].
  destruct (JsString.split_where p s); discriminate.
Qed.

Lemma split_where_length p s :
  length (JsString.split_where p s) = S (JsString.count_where p s).
Proof.
  induction s as [|c s IH]; simpl; [reflexivity|].
  destruct (p c); simpl; [now rewrite IH|].
  pose proof (split_where_nonempty p s) as Hne.
  destruct (JsString.split_where p s); [contradiction|]. simpl in *. exact IH.
Qed.

(** Two predicates that agree on the characters they meet cut alike. *)
Lemma split_where_agree p q s :
  JsString.count_where (fun c => negb (Bool.eqb (p c) (q c))) s = 0 ->
  JsString.split_where p s = JsString.split_where q s.
Proof.
  induction s as [|c s IH]; simpl; intros Hc; [reflexivity|].
  destruct (p c) eqn:Hp, (q c) eqn:Hq; simpl in Hc; try discriminate;
    now rewrite IH.
Qed.

Lemma count_where_le p q s :
  (forall c, p c = true -> q c = true) ->
  JsString.count_where p s <= JsString.count_where q s.
Proof.
  intros Hpq. induction s as [|c s IH]; simpl; [lia|].
  destruct (p c) eqn:Hp; [rewrite (Hpq _ Hp); lia|].
  destruct (q c); lia.
Qed.

(** Without any [;], cutting at [,] is cutting at the separators. *)
Lemma split_comma_no_semicolon s :
  JsString.count_where (Ascii.eqb ";") s = 0 ->
  JsString.split "," s = JsString.split_where TargetPlan.is_separator s.
Proof.
  intros Hc. apply split_where_agree.
  induction s as [|c s IH]; [reflexivity|].
  cbn [JsString.count_where] in *.
  unfold TargetPlan.is_separator at 1.
  destruct (Ascii.eqb_spec ";" c) as [<-|Hne]; [discriminate|].
  rewrite (IH Hc).
  rewrite (Ascii.eqb_sym c ","), (Ascii.eqb_sym c ";").
  apply Ascii.eqb_neq in Hne. rewrite Hne.
  destruct (Ascii.eqb "," c); reflexivity.
Qed.

(** With at most one [;], replacing the first one and cutting at [,] is
    cutting at the separators. *)
Lemma split_replace_one_semicolon s :
  JsString.count_where (Ascii.eqb ";") s <= 1 ->
  JsString.split "," (JsString.replace ";" "," s)
  = JsString.split_where TargetPlan.is_separator s.
Proof.
  induction s as [|c s IH]; intros Hc; [reflexivity|].
  cbn [JsString.replace String.prefix].
  destruct (ascii_dec ";" c) as [<-|Hne].
  - assert (Hp : String.prefix EmptyString s = true) by (destruct s; reflexivity).
    rewrite Hp.
    change (JsString.split "," (String "," s)
            = EmptyString :: JsString.split_where TargetPlan.is_separator s).
    change (JsString.split "," (String "," s))
      with (EmptyString :: JsString.split "," s).
    f_equal. apply split_comma_no_semicolon.
    change (S (JsString.count_where (Ascii.eqb ";") s) <= 1) in Hc. lia.
  - cbn [JsString.count_where] in Hc.
    pose proof Hne as Hne'. apply Ascii.eqb_neq in Hne'. rewrite Hne' in Hc.
    specialize (IH Hc). unfold JsString.split in *.
    cbn [JsString.split_where]. rewrite IH.
    replace (TargetPlan.is_separator c) with (Ascii.eqb "," c); [reflexivity|].
    unfold TargetPlan.is_separator.
    now rewrite (Ascii.eqb_sym c ";"), Hne', (Ascii.eqb_sym c ",").
Qed.

End StringFacts.

(** ** Method patterns *)

Section MethodPatterns.
Import TargetPlan.

(** C7, as the claim states it, fails: [replace(";", ",")] turns only the
    first [;] into a [,], so ["a;b;c"] with its two separators gives the two
    fragments ["a"] and ["b;c"]; and the empty pattern, with no separator,
    gives no fragment at all. *)
Lemma parseMethodPattern_not_every_separator :
  parseMethodPattern "a;b;c" = ["a"; "b;c"]
  /\ parseMethodPattern "a;b;c" <> parseMethodPattern_spec "a;b;c"
  /\ length (parseMethodPattern "a;b;c")
     <> S (JsString.count_where is_separator "a;b;c")
  /\ length (parseMethodPattern EmptyString)
     <> S (JsString.count_where is_separator EmptyString).
Proof. repeat split; vm_compute; congruence. Qed.

(** C7, amended: a non-empty pattern with at most one [;] is cut at every
    [;] and every [,], so its k separators give k+1 fragments; the empty
    pattern has no fragment. *)
Theorem parseMethodPattern_one_semicolon (pattern : string) :
  JsString.count_where (Ascii.eqb ";") pattern <= 1 ->
  parseMethodPattern pattern
  = match pattern with
    | EmptyString => []
    | _ => parseMethodPattern_spec pattern
    end
  /\ length (parseMethodPattern pattern)
     = match pattern with
       | EmptyString => 0
       | _ => S (JsString.count_where is_separator pattern)
       end.
Proof.
  intros Hc. destruct pattern as [|c s]; [split; reflexivity|].
  assert (Heq : parseMethodPattern (String c s)
                = parseMethodPattern_spec (String c s)).
  { unfold parseMethodPattern, parseMethodPattern_spec.
    now apply split_replace_one_semicolon. }
  split; [exact Heq|].
  rewrite Heq. apply split_where_length.
Qed.

Lemma parseMethodPattern_one_semicolon_witness :
  parseMethodPattern "-[A foo:];+[B bar],*[C *]"
  = ["-[A foo:]"; "+[B bar]"; "*[C *]"]
  /\ length (parseMethodPattern "-[A foo:];+[B bar],*[C *]") = 3.
Proof.
  destruct (parseMethodPattern_one_semicolon "-[A foo:];+[B bar],*[C *]")
    as [H1 H2]; [vm_compute; lia|].
  split; [rewrite H1; reflexivity | rewrite H2; reflexivity].
Defined.

(** The empty pattern has no fragment. *)
Lemma parseMethodPattern_empty : parseMethodPattern EmptyString = [].
Proof. reflexivity. Qed.

End MethodPatterns.

(** ** The object-method filter *)

Section Filter.
Import TargetPlan.
Context `{RegExpEngine}.

Lemma build_regList_acc (fragments : list string) (acc : list RegExp) :
  fold_left
    (fun regList pt =>
       match RegExp_new pt "g" with
       | inl reg => regList ++ [reg]
       | inr _ => regList
       end) fragments acc
  = acc ++ omap fresh_regexp fragments.
Proof.
  revert acc. induction fragments as [|pt frs IH]; intros acc; simpl.
  - now rewrite app_nil_r.
  - rewrite IH. unfold fresh_regexp at 2.
    destruct (RegExp_new pt "g"); [|reflexivity].
    now rewrite <- app_assoc.
Qed.

Lemma build_regList_omap (fragments : list string) :
  build_regList fragments = omap fresh_regexp fragments.
Proof. unfold build_regList. now rewrite build_regList_acc. Qed.

Lemma fresh_regexp_invalid (pt : string) :
  compile pt = None -> fresh_regexp pt = None.
Proof. unfold fresh_regexp, RegExp_new. now intros ->. Qed.

(** C8: a filter rule works with the expressions of its well-formed
    fragments, in order: a malformed fragment adds nothing and raises
    nothing.  When every fragment is malformed the rule returns the plan it
    was given. *)
Theorem filterObjCMethod_malformed_fragments (pattern : string)
  (plan : TracePlan) :
  filterObjCMethod pattern plan
  = filter_targets (omap fresh_regexp (parseMethodPattern pattern)) plan
  /\ (Forall (fun pt => compile pt = None) (parseMethodPattern pattern) ->
      filterObjCMethod pattern plan = plan).
Proof.
  unfold filterObjCMethod. rewrite build_regList_omap.
  split; [reflexivity|]. intros Hall.
  replace (omap fresh_regexp (parseMethodPattern pattern)) with (@nil RegExp);
    [reflexivity|].
  induction Hall as [|pt frs Hpt _ IH]; [reflexivity|].
  cbn [omap list_omap]. now rewrite (fresh_regexp_invalid _ Hpt).
Qed.

(** The filter of the spec's words is idempotent. *)
Lemma filterObjCMethod_spec_idempotent (pattern : string) (plan : TracePlan) :
  filterObjCMethod_spec pattern (filterObjCMethod_spec pattern plan)
  = filterObjCMethod_spec pattern plan.
Proof.
  unfold filterObjCMethod_spec.
  destruct (omap compile (parseMethodPattern pattern)) as [|p pats];
    [reflexivity|].
  unfold with_native. cbn [native java]. f_equal.
  now apply list_filter_filter_l.
Qed.

End Filter.

Section FilterExamples.
Import TargetPlan Samples.

(** A rule whose two fragments are malformed leaves the plan alone. *)
Lemma filterObjCMethod_malformed_fragments_witness :
  @filterObjCMethod literal_engine "(,[a" three_foo = three_foo.
Proof.
  apply (@filterObjCMethod_malformed_fragments literal_engine "(,[a" three_foo).
  repeat constructor.
Defined.

(** C4 fails on the code.  The expressions carry the [g] flag, so [test]
    resumes at the [lastIndex] the previous match left: after ["-[A foo]"]
    matched, the search in ["-[B foo]"] starts at index 7, finds nothing and
    the target is dropped although its name matches.  A first pass keeps the
    first and the third of three matching targets; a second pass, with fresh
    expressions, drops the third as well. *)
Theorem filterObjCMethod_twice_differs :
  JsMap.keys (native (@filterObjCMethod literal_engine "foo" three_foo))
  = ["0x1"; "0x3"]
  /\ JsMap.keys
       (native (@filterObjCMethod literal_engine "foo"
                  (@filterObjCMethod literal_engine "foo" three_foo)))
     = ["0x1"]
  /\ @filterObjCMethod literal_engine "foo"
       (@filterObjCMethod literal_engine "foo" three_foo)
     <> @filterObjCMethod literal_engine "foo" three_foo
  /\ @filterObjCMethod_spec literal_engine "foo" three_foo = three_foo.
Proof.
  split; [reflexivity|]. split; [reflexivity|]. split; [|reflexivity].
  intros Heq. apply (f_equal (fun p => length (native p))) in Heq.
  vm_compute in Heq. discriminate.
Qed.

End FilterExamples.

(** ** Ordered maps *)

Section JsMapFacts.
Context {K V : Type} `{EqDecision K}.

Lemma JsMap_get_set_same (k : K) (v : V) (m : JsMap.t K V) :
  JsMap.get k (JsMap.set k v m) = Some v.
Proof.
  induction m as [|[k' v'] m IH]; simpl.
  - now rewrite decide_True.
  - destruct (decide (k' = k)) as [->|Hne]; simpl.
    + now rewrite decide_True.
    + now rewrite decide_False.
Qed.

Lemma JsMap_get_set_other (k k' : K) (v : V) (m : JsMap.t K V) :
  k <> k' -> JsMap.get k' (JsMap.set k v m) = JsMap.get k' m.
Proof.
  intros Hkk'. induction m as [|[k0 v0] m IH]; simpl.
  - now rewrite decide_False.
  - destruct (decide (k0 = k)) as [->|Hne]; simpl.
    + now rewrite !decide_False.
    + destruct (decide (k0 = k')); [reflexivity | exact IH].
Qed.

Lemma JsMap_get_delete_same (k : K) (m : JsMap.t K V) :
  JsMap.get k (JsMap.delete k m) = None.
Proof.
  unfold JsMap.delete. induction m as [|[k' v'] m IH]; [reflexivity|].
  rewrite filter_cons. simpl. destruct (decide (k' <> k)) as [Hne|Heq].
  - simpl. now rewrite decide_False.
  - exact IH.
Qed.


Lemma filter_all {A} (P : A -> Prop) `{!forall x, Decision (P x)}
  (l : list A) :
  (forall x, x ∈ l -> P x) -> filter P l = l.
Proof.
  induction l as [|x l IH]; intros Hall; [reflexivity|].
  rewrite filter_cons, decide_True by apply Hall, list_elem_of_here.
  f_equal. apply IH. intros y Hy. apply Hall. now apply list_elem_of_further.
Qed.




End JsMapFacts.

(** ** Excluding the accessors of properties *)

Section ExcludePropertyFacts.
Import TargetPlan.
Context `{!ObjCRuntime}.






End ExcludePropertyFacts.

Section ExcludeProperty.
Import TargetPlan Samples.

(** C6 fails on the code.  The names of [otherIgnoreSet] are bare selectors,
    and they are compared with the whole display name; the display name of an
    Objective-C target is ["-[C dealloc]"], never ["dealloc"].  The rule
    removes the two accessors of [name] and leaves the lifecycle methods of
    [C] in the plan; what the set does remove is a target of any flavour
    whose display name is the bare word, here a C function. *)
Theorem excludeObjCProperty_keeps_lifecycle_methods :
  map (fun e : NativeId * NativeTarget => displayName_of e.2.2)
    (native (@excludeObjCProperty only_class_C "C" class_C_plan))
  = ["-[C dealloc]"; "-[C .cxx_destruct]"; "+[C alloc]"].
Proof. reflexivity. Qed.

End ExcludeProperty.

(** ** Merging enumerations of Java methods *)

Section JavaMerge.
Import TargetPlan.

Lemma same_loader_refl (l : option Loader) : same_loader l l = true.
Proof. destruct l; simpl; [apply Nat.eqb_refl | reflexivity]. Qed.

Lemma find_group_app_fresh l gs g' :
  find_group l gs = None ->
  same_loader (loader g') l = true ->
  find_group l (gs ++ [g']) = Some (length gs, g').
Proof.
  intros Hnone Hsame. induction gs as [|g gs IH]; simpl in *.
  - now rewrite Hsame.
  - destruct (same_loader (loader g) l); [discriminate|].
    destruct (find_group l gs); [discriminate|].
    now rewrite IH.
Qed.

Lemma find_group_insert l gs i g g' :
  find_group l gs = Some (i, g) ->
  loader g' = loader g ->
  find_group l (<[i := g']> gs) = Some (i, g').
Proof.
  revert i. induction gs as [|g0 gs IH]; intros i Hfind Hl; simpl in *.
  - discriminate.
  - destruct (same_loader (loader g0) l) eqn:Hs.
    + injection Hfind as <- <-. simpl. now rewrite Hl, Hs.
    + destruct (find_group l gs) as [[j gj]|] eqn:Hf; [|discriminate].
      injection Hfind as <- <-. simpl. rewrite Hs.
      now rewrite (IH j eq_refl Hl).
Qed.

Lemma include_method_lookup ms methodName :
  JsMap.get (javaBareMethodNameFromMethodName methodName)
    (include_method ms methodName)
  = Some (merged (JsMap.get (javaBareMethodNameFromMethodName methodName) ms)
            methodName).
Proof.
  unfold include_method, merged.
  destruct (JsMap.get (javaBareMethodNameFromMethodName methodName) ms);
    apply JsMap_get_set_same.
Qed.

(** Including the enumeration of one method of one class of one loader. *)
Lemma include_group_single gs l c methodName :
  java_lookup
    (include_group gs
       {| group_loader := l;
          group_classes :=
            [{| class_name := c; class_methods := [methodName] |}] |})
    l c (javaBareMethodNameFromMethodName methodName)
  = Some (merged
            (java_lookup gs l c (javaBareMethodNameFromMethodName methodName))
            methodName).
Proof.
  unfold include_group, java_lookup. cbn [group_loader group_classes].
  destruct (find_group l gs) as [[i g]|] eqn:Hfind.
  - erewrite find_group_insert; [|exact Hfind|reflexivity].
    cbn [mbind option_bind classes fold_left].
    unfold include_class. cbn [class_name class_methods].
    destruct (JsMap.get c (classes g)) as [cls|] eqn:Hc.
    + rewrite JsMap_get_set_same. cbn [mbind option_bind methods fold_left].
      apply include_method_lookup.
    + rewrite JsMap_get_set_same. cbn [mbind option_bind].
      unfold javaTargetClassFromMatchClass, JsMap.of_entries.
      cbn. destruct (decide _) as [_|Hn]; [reflexivity|now destruct Hn].
  - erewrite find_group_app_fresh; [|exact Hfind|apply same_loader_refl].
    cbn. rewrite decide_True by reflexivity. cbn.
    destruct (decide _) as [_|Hn]; [reflexivity|now destruct Hn].
Qed.

Section WithRuntime.
Context `{JavaRuntime}.

(** C5: ["foo()V"] and ["foo(I)V"], enumerated by two patterns for the same
    loader and class, leave ["foo(I)V"] under [foo] whichever is included
    first.  The plan may hold anything but a [foo] of that class: no group of
    the loader (the group and the class are created by the first inclusion),
    a group without the class (the class is created), or the class with
    other methods. *)
Theorem includeJavaMethod_keeps_longer_signature
  (p1 p2 : string) (l : option Loader) (c : string) (plan : TracePlan) :
  java_enumerateMethods p1
  = [{| group_loader := l;
        group_classes :=
          [{| class_name := c; class_methods := ["foo()V"] |}] |}] ->
  java_enumerateMethods p2
  = [{| group_loader := l;
        group_classes :=
          [{| class_name := c; class_methods := ["foo(I)V"] |}] |}] ->
  java_lookup (java plan) l c "foo" = None ->
  java_lookup (java (includeJavaMethod p2 (includeJavaMethod p1 plan)))
    l c "foo" = Some "foo(I)V"
  /\ java_lookup (java (includeJavaMethod p1 (includeJavaMethod p2 plan)))
       l c "foo" = Some "foo(I)V".
Proof.
  intros E1 E2 Hnone. unfold includeJavaMethod, with_java.
  cbn [java]. rewrite E1, E2. cbn [fold_left].
  pose proof (fun gs => include_group_single gs l c "foo()V") as L1.
  pose proof (fun gs => include_group_single gs l c "foo(I)V") as L2.
  change (javaBareMethodNameFromMethodName "foo()V") with "foo" in L1.
  change (javaBareMethodNameFromMethodName "foo(I)V") with "foo" in L2.
  split.
  - rewrite L2, L1, Hnone. reflexivity.
  - rewrite L1, L2, Hnone. reflexivity.
Qed.

End WithRuntime.

(** The class is created by the first inclusion, in the group the plan has
    for the loader. *)
Lemma includeJavaMethod_keeps_longer_signature_witness :
  java_lookup
    (java (@includeJavaMethod Samples.two_overloads "*K!foo(I)V"
             (@includeJavaMethod Samples.two_overloads "*K!foo()V"
                Samples.other_class_plan)))
    (Some 5) "com.example.K" "foo" = Some "foo(I)V"
  /\ java_lookup
       (java (@includeJavaMethod Samples.two_overloads "*K!foo()V"
                (@includeJavaMethod Samples.two_overloads "*K!foo(I)V"
                   Samples.other_class_plan)))
       (Some 5) "com.example.K" "foo" = Some "foo(I)V".
Proof.
  apply (@includeJavaMethod_keeps_longer_signature Samples.two_overloads
           "*K!foo()V" "*K!foo(I)V" (Some 5) "com.example.K"
           Samples.other_class_plan); reflexivity.
Defined.

(** Within one enumeration the rule is another: a class created from a
    match keeps, for a bare name, the last of its overloads, longer or
    not. *)
Lemma javaTargetClassFromMatchClass_keeps_last :
  methods
    (javaTargetClassFromMatchClass
       {| class_name := "com.example.K";
          class_methods := ["foo(I)V"; "foo()V"] |})
  = [("foo", "foo()V")].
Proof. reflexivity. Qed.

End JavaMerge.

(** ** Handler provisioning *)

Section ProvisioningFacts.
Import TargetPlan Provisioning.

Lemma flat_members_app ss1 ss2 :
  flat_members (ss1 ++ ss2) = flat_members ss1 ++ flat_members ss2.
Proof. unfold flat_members. now rewrite map_app, concat_app. Qed.

Lemma tagged_members_app ss1 ss2 :
  tagged_members (ss1 ++ ss2) = tagged_members ss1 ++ tagged_members ss2.
Proof. apply flat_map_app. Qed.

Lemma tagged_members_cons sc ss :
  tagged_members (sc :: ss)
  = map (pair (scope_name sc)) (scope_members sc) ++ tagged_members ss.
Proof. reflexivity. Qed.

(** The members are the tagged members without their tags. *)
Lemma flat_members_tagged ss : flat_members ss = (tagged_members ss).*2.
Proof.
  induction ss as [|sc ss IH]; [reflexivity|].
  rewrite tagged_members_cons, fmap_app, <- IH.
  unfold flat_members. cbn [map concat]. f_equal.
  induction (scope_members sc) as [|m ms IHm]; [reflexivity|].
  cbn. now rewrite <- IHm.
Qed.

Lemma flat_members_length ss :
  length (flat_members ss) = length (tagged_members ss).
Proof. now rewrite flat_members_tagged, length_fmap. Qed.

(** With room for [r] more members, the inner loop takes the first [r]. *)
Lemma take_members_spec ms : forall acc r,
  1 <= r ->
  take_members ms acc (1000 - Z.of_nat r)
  = (acc ++ take r ms,
     (1000 - Z.of_nat r + Z.of_nat (r `min` length ms))%Z,
     bool_decide (r <= length ms)).
Proof.
  induction ms as [|m ms IH]; intros acc r Hr; cbn [take_members].
  - rewrite take_nil, app_nil_r, bool_decide_eq_false_2 by (simpl; lia).
    do 2 f_equal. simpl. lia.
  - destruct (Z.eqb_spec (1000 - Z.of_nat r + 1) 1000) as [E|E].
    + assert (r = 1) as -> by lia.
      rewrite bool_decide_eq_true_2 by (simpl; lia). reflexivity.
    + replace (1000 - Z.of_nat r + 1)%Z with (1000 - Z.of_nat (r - 1))%Z by lia.
      rewrite IH by lia.
      destruct r as [|r]; [lia|]. cbn [take length].
      replace (S r - 1) with r by lia.
      rewrite <- app_assoc. cbn [app].
      f_equal; [f_equal; lia|].
      apply bool_decide_ext. lia.
Qed.

(** With room for [r] more members, one pass moves the first [r] pending
    members, with the names of their scopes, into the request. *)
Lemma fill_request_spec ps : forall acc r,
  1 <= r ->
  exists cs ps',
    fill_request ps acc (1000 - Z.of_nat r)
    = (cs, ps',
       (1000 - Z.of_nat r
        + Z.of_nat (r `min` length (tagged_members ps)))%Z)
    /\ tagged_members cs = tagged_members acc ++ take r (tagged_members ps)
    /\ tagged_members ps' = drop r (tagged_members ps).
Proof.
  induction ps as [|sc ps IH]; intros acc r Hr; cbn [fill_request].
  - exists acc, []. cbn. rewrite take_nil, drop_nil, app_nil_r, Nat.min_0_r.
    split; [|split; reflexivity]. do 2 f_equal. lia.
  - rewrite take_members_spec by assumption. cbn [app].
    rewrite (tagged_members_cons sc ps).
    set (name := scope_name sc). set (ms := scope_members sc).
    assert (Hlen : length (map (pair name) ms) = length ms)
      by apply length_map.
    destruct (decide (r <= length ms)) as [Hle|Hgt].
    + rewrite bool_decide_eq_true_2 by assumption.
      eexists _, _. split; [|split].
      * do 2 f_equal. rewrite length_app, Hlen. lia.
      * rewrite tagged_members_app, tagged_members_cons.
        cbn [scope_name scope_members tagged_members flat_map].
        rewrite app_nil_r, take_app_le by lia.
        now rewrite <- fmap_take.
      * rewrite tagged_members_cons. cbn [scope_name scope_members].
        rewrite length_take.
        replace (r `min` length ms) with r by lia.
        rewrite drop_app_le by lia. now rewrite <- fmap_drop.
    + rewrite bool_decide_eq_false_2 by assumption.
      rewrite take_ge by lia.
      replace (r `min` length ms) with (length ms) by lia.
      replace (1000 - Z.of_nat r + Z.of_nat (length ms))%Z
        with (1000 - Z.of_nat (r - length ms))%Z by lia.
      destruct (IH (acc ++ [{| scope_name := name; scope_members := ms |}])
                  (r - length ms))
        as (cs & ps' & Hfill & Hcs & Hps'); [lia|].
      rewrite Hfill. eexists _, _. split; [|split].
      * f_equal. rewrite length_app, Hlen. lia.
      * rewrite Hcs, tagged_members_app, tagged_members_cons.
        cbn [scope_name scope_members tagged_members flat_map].
        rewrite app_nil_r, <- app_assoc.
        rewrite (take_app_ge (map (pair name) ms)) by lia.
        now rewrite Hlen.
      * rewrite tagged_members_cons. cbn [scope_name scope_members].
        rewrite drop_all, Hps'. cbn [map app].
        rewrite drop_app_ge by lia. now rewrite Hlen.
Qed.

Lemma drop_empty_tagged ps :
  tagged_members (drop_empty ps) = tagged_members ps.
Proof.
  induction ps as [|sc ps IH]; [reflexivity|]. cbn [drop_empty].
  destruct (scope_members sc) eqn:E; [|reflexivity].
  now rewrite IH, tagged_members_cons, E.
Qed.

Lemma drop_empty_nil ps : drop_empty ps = [] <-> tagged_members ps = [].
Proof.
  induction ps as [|sc ps IH]; [easy|]. cbn [drop_empty].
  rewrite tagged_members_cons.
  destruct (scope_members sc) eqn:E; [exact IH|].
  split; discriminate.
Qed.

(** Against a host that answers every request, the loop ends; its scripts
    are the scripts of the replies, in order, and its requests are the pages
    of the pending members. *)
Lemma getHandlers_loop_pages host fl :
  responsive host ->
  forall fuel ps id scr sent,
    length (flat_members ps) < fuel ->
    exists reqs,
      getHandlers_loop fuel host fl ps id scr sent
      = (sent ++ reqs,
         Returned
           {| scripts := scr ++ concat (map (reply_scripts host) reqs) |})
      /\ pages fl id (tagged_members ps) reqs.
Proof.
  intros Hhost. induction fuel as [|fuel IH]; intros ps id scr sent Hfuel;
    [lia|].
  cbn [getHandlers_loop]. rewrite flat_members_length in Hfuel.
  destruct (fill_request_spec ps [] 1000) as (cs & ps' & Hfill & Hcs & Hps');
    [lia|].
  change (1000 - Z.of_nat 1000)%Z with 0%Z in Hfill.
  rewrite Hfill.
  change (tagged_members []) with (@nil (string * MemberName)) in Hcs.
  cbn [app] in Hcs.
  set (T := tagged_members ps) in *.
  set (r := {| flavor := fl; baseId := id; scopes := cs |}).
  assert (Hreply : exists response,
             host r = Some response
             /\ reply_scripts host r = scripts response).
  { destruct (Hhost r) as [response Hr]. exists response.
    unfold reply_scripts. now rewrite Hr. }
  destruct Hreply as (response & Hr & Hscripts). rewrite Hr.
  destruct (drop_empty ps') as [|p q] eqn:Hdrop.
  - apply drop_empty_nil in Hdrop. rewrite Hps' in Hdrop.
    assert (Hlen : length T <= 1000).
    { apply (f_equal length) in Hdrop. rewrite length_drop in Hdrop.
      simpl in Hdrop. lia. }
    rewrite take_ge in Hcs by assumption.
    exists [r]. split; [|now apply pages_last].
    cbn [map concat]. now rewrite Hscripts, app_nil_r.
  - assert (Htag : tagged_members (p :: q) = drop 1000 T).
    { rewrite <- Hdrop, drop_empty_tagged. exact Hps'. }
    assert (Hlen : 1000 < length T).
    { destruct (decide (1000 < length T)) as [|Hle]; [assumption|].
      pose proof (proj2 (drop_empty_nil ps')) as Hnil.
      rewrite Hps', drop_ge in Hnil by lia.
      rewrite Hnil in Hdrop by reflexivity. discriminate. }
    replace (1000 `min` length T) with 1000 by lia.
    destruct (IH (p :: q) (id + (0 + Z.of_nat 1000))%Z
                (scr ++ scripts response) (sent ++ [r]))
      as (reqs & Hloop & Hpages).
    { rewrite flat_members_length, Htag, length_drop. lia. }
    rewrite Hloop. exists (r :: reqs).
    split.
    + cbn [map concat]. now rewrite Hscripts, <- !app_assoc.
    + apply pages_more; try reflexivity; [assumption|exact Hcs|].
      rewrite Htag in Hpages.
      replace (id + 1000)%Z with (id + (0 + Z.of_nat 1000))%Z by lia.
      exact Hpages.
Qed.

Lemma answers_in_order_responsive host answer :
  answers_in_order host answer -> responsive host.
Proof. intros Hhost req. rewrite Hhost. eauto. Qed.

(** *** What a list of pages says *)

Lemma pages_count fl id T reqs :
  pages fl id T reqs -> length reqs = 1 `max` ((length T + 999) / 1000).
Proof.
  induction 1 as [id T r Hlen _ _ _|id T r rs Hlen _ _ _ _ IH].
  - cbn [length].
    assert ((length T + 999) / 1000 < 2); [|lia].
    apply Nat.Div0.div_lt_upper_bound. lia.
  - cbn [length]. rewrite IH, length_drop.
    replace (length T + 999) with ((length T - 1000 + 999) + 1 * 1000) by lia.
    rewrite Nat.div_add by lia.
    assert (1 <= (length T - 1000 + 999) / 1000); [|lia].
    apply Nat.div_le_lower_bound; lia.
Qed.

Lemma pages_members fl id T reqs :
  pages fl id T reqs ->
  Forall (fun r => flavor r = fl
                   /\ length (flat_members (scopes r)) <= 1000) reqs
  /\ concat (map (fun r => tagged_members (scopes r)) reqs) = T.
Proof.
  induction 1 as [id T r Hlen Hfl _ HT|id T r rs Hlen Hfl _ HT _ [IH1 IH2]].
  - split.
    + constructor; [|constructor]. split; [assumption|].
      now rewrite flat_members_length, HT.
    + cbn. now rewrite app_nil_r.
  - split.
    + constructor; [|assumption]. split; [assumption|].
      rewrite flat_members_length, HT, length_take. lia.
    + cbn [map concat]. rewrite HT, IH2. apply take_drop.
Qed.

(** The id of a page is the id of the page before it plus the number of
    members of that page. *)
Lemma pages_ids fl id T reqs :
  pages fl id T reqs ->
  (exists r0, reqs !! 0 = Some r0 /\ baseId r0 = id)
  /\ forall i r r',
       reqs !! i = Some r -> reqs !! S i = Some r' ->
       baseId r'
       = (baseId r + Z.of_nat (length (flat_members (scopes r))))%Z.
Proof.
  induction 1 as [id T r Hlen _ Hid HT
                 |id T r rs Hlen _ Hid HT _ [(r1 & Hr1 & Hid1) IH]].
  - split; [now exists r|]. intros i r0 r' _ Hnext.
    destruct i; discriminate.
  - split; [now exists r|]. intros [|i] r0 r' Hi Hnext.
    + change (Some r = Some r0) in Hi. change (rs !! 0 = Some r') in Hnext.
      injection Hi as <-. rewrite Hr1 in Hnext. injection Hnext as <-.
      rewrite Hid1, Hid, flat_members_length, HT, length_take. lia.
    + change (rs !! i = Some r0) in Hi. change (rs !! S i = Some r') in Hnext.
      now apply (IH i).
Qed.

(** The replies of a host that answers in order, put end to end, are its
    scripts for the members of the pages, position by position. *)
Lemma pages_scripts host answer fl id T reqs :
  answers_in_order host answer ->
  pages fl id T reqs ->
  concat (map (reply_scripts host) reqs)
  = imap (fun k m => answer (id + Z.of_nat k)%Z m) T.*2.
Proof.
  intros Hhost.
  induction 1 as [id T r Hlen _ Hid HT|id T r rs Hlen _ Hid HT _ IH];
    cbn [map concat]; unfold reply_scripts at 1; rewrite Hhost;
    cbn [scripts]; rewrite Hid, flat_members_tagged, HT.
  - apply app_nil_r.
  - rewrite IH. rewrite <- (take_drop 1000 T) at 3.
    rewrite fmap_app, imap_app.
    apply (f_equal (app _)), imap_ext.
    intros i x _. rewrite length_fmap, length_take. f_equal. lia.
Qed.

End ProvisioningFacts.

Section ProvisioningClaims.
Import TargetPlan Provisioning Samples.

(** C1: for a request with N >= 1 members and a host that answers every
    request, [getHandlers] returns the scripts of the replies, in order; it
    has sent ceil(N/1000) requests of the flavor of the request, each with
    at most 1000 members, which together are the members of the request in
    order, each under the name of its scope; the first request has the id of
    the request and each next one the id before it plus the number of
    members sent under that id.  When the host answers every request with
    one script per member in the order of the request, the scripts returned
    are, position by position, its scripts for the members of the request,
    the k-th under the id [baseId + k]. *)
Theorem getHandlers_pages (host : Host) (request : HandlerRequest) :
  1 <= length (flat_members (scopes request)) ->
  responsive host ->
  exists reqs,
    getHandlers host request
    = (reqs,
       Returned {| scripts := concat (map (reply_scripts host) reqs) |})
    /\ length reqs = (length (flat_members (scopes request)) + 999) / 1000
    /\ Forall (fun r => flavor r = flavor request
                        /\ length (flat_members (scopes r)) <= 1000) reqs
    /\ concat (map (fun r => tagged_members (scopes r)) reqs)
       = tagged_members (scopes request)
    /\ (exists r0, reqs !! 0 = Some r0 /\ baseId r0 = baseId request)
    /\ (forall i r r',
          reqs !! i = Some r -> reqs !! S i = Some r' ->
          baseId r'
          = (baseId r + Z.of_nat (length (flat_members (scopes r))))%Z)
    /\ (forall answer,
          answers_in_order host answer ->
          concat (map (reply_scripts host) reqs)
          = imap (fun k m => answer (baseId request + Z.of_nat k)%Z m)
              (flat_members (scopes request))).
Proof.
  intros HN Hhost. unfold getHandlers.
  destruct (getHandlers_loop_pages host (flavor request) Hhost
              (S (length (flat_members (scopes request)))) (scopes request)
              (baseId request) [] [])
    as (reqs & Hrun & Hpages); [lia|].
  exists reqs. split; [exact Hrun|].
  destruct (pages_members _ _ _ _ Hpages) as [Hall Hcat].
  destruct (pages_ids _ _ _ _ Hpages) as [Hfirst Hnext].
  split; [|repeat split; try assumption].
  - rewrite (pages_count _ _ _ _ Hpages), <- flat_members_length.
    assert (1 <= (length (flat_members (scopes request)) + 999) / 1000);
      [|lia].
    apply Nat.div_le_lower_bound; lia.
  - intros answer Hanswer. rewrite flat_members_tagged.
    exact (pages_scripts _ _ _ _ _ _ Hanswer Hpages).
Qed.

(** 2500 functions of three modules, one of them empty: three requests. *)
Lemma getHandlers_pages_witness :
  exists reqs,
    getHandlers answering_host (request_of 2500)
    = (reqs,
       Returned
         {| scripts :=
              imap (fun k m => sample_answer (1 + Z.of_nat k)%Z m)
                (flat_members (scopes (request_of 2500))) |})
    /\ length reqs = 3
    /\ map baseId reqs = [1; 1001; 2001]%Z.
Proof.
  destruct (getHandlers_pages answering_host (request_of 2500))
    as (reqs & Hrun & Hcount & _ & _ & _ & _ & Hscripts).
  - vm_compute. lia.
  - intros req. unfold answering_host. eauto.
  - exists reqs. split; [|split; [exact Hcount|]].
    + rewrite Hrun, (Hscripts sample_answer); [reflexivity|].
      intros req. reflexivity.
    + apply (f_equal (fun run => map baseId run.1)) in Hrun.
      cbn [fst] in Hrun. rewrite <- Hrun. vm_compute. reflexivity.
Defined.

(** The number of requests for N = 0, 1, 999, 1000, 1001, 2000 and 2500. *)
Lemma getHandlers_request_counts :
  map (fun n => length (getHandlers answering_host (request_of n)).1)
    [0; 1; 999; 1000; 1001; 2000; 2500]
  = [1; 1; 1; 1; 2; 2; 3].
Proof. vm_compute. reflexivity. Qed.

(** Scopes without members go into the request as they are. *)
Lemma fill_request_empty ps : forall acc size,
  flat_members ps = [] ->
  fill_request ps acc size = (acc ++ ps, ps, size).
Proof.
  induction ps as [|sc ps IH]; intros acc size Hflat; cbn [fill_request].
  - now rewrite app_nil_r.
  - change (scope_members sc ++ flat_members ps = []) in Hflat.
    apply app_eq_nil in Hflat as [Hsc Hps].
    destruct sc as [name ms]. cbn [scope_members scope_name] in *. subst ms.
    cbn [take_members length drop]. rewrite IH by assumption.
    now rewrite <- app_assoc.
Qed.

(** C10: a request without any member is sent once, as it is, and the call
    then waits for the reply to it: it returns the scripts of the reply when
    the host replies and stalls when the host does not. *)
Theorem getHandlers_empty_request (host : Host) (request : HandlerRequest) :
  flat_members (scopes request) = [] ->
  getHandlers host request
  = ([request],
     match host request with
     | Some response => Returned response
     | None => Stalled
     end).
Proof.
  intros Hflat. unfold getHandlers. rewrite Hflat.
  cbn [length getHandlers_loop].
  rewrite fill_request_empty by assumption.
  assert (Hnil : drop_empty (scopes request) = []).
  { apply drop_empty_nil. apply (f_equal length) in Hflat.
    rewrite flat_members_length in Hflat.
    now destruct (tagged_members (scopes request)). }
  rewrite Hnil.
  destruct request as [fl id ss]. cbn [app flavor baseId scopes].
  destruct (host _) as [[scr]|]; reflexivity.
Qed.

(** A host that does not answer the request for an emptied Java class. *)
Lemma getHandlers_empty_request_witness :
  getHandlers silent_host empty_java_request = ([empty_java_request], Stalled).
Proof.
  apply (getHandlers_empty_request silent_host empty_java_request).
  reflexivity.
Defined.

End ProvisioningClaims.

(** ** Dispatch and depth tracking *)

Section DispatchFacts.
Import Dispatch.
Context {Param TraceState : Type}.
Implicit Types (a : Agent TraceState) (tid : ThreadId).

Lemma log_all_fields id timestamp tid depth (logged : list (list string)) a :
  stackDepth (log_all id timestamp tid depth logged a) = stackDepth a
  /\ traceState (log_all id timestamp tid depth logged a) = traceState a
  /\ started (log_all id timestamp tid depth logged a) = started a
  /\ pendingEvents (log_all id timestamp tid depth logged a)
     = pendingEvents a
       ++ map (fun message =>
                 (id, timestamp, tid, depth, JsString.join " " message))
            logged.
Proof.
  unfold log_all. revert a.
  induction logged as [|message logged IH]; intros a; cbn [fold_left map].
  - now rewrite app_nil_r.
  - destruct (IH (emit (id, timestamp, tid, depth,
                        JsString.join " " message) a))
      as (H1 & H2 & H3 & H4).
    rewrite H1, H2, H3, H4. cbn. now rewrite <- app_assoc.
Qed.

(** What [invokeNativeHandler] does to the agent. *)
Lemma invokeNativeHandler_fields now id (callback : Callback) tid
  (param : Param) cutPoint a :
  stackDepth (invokeNativeHandler now id callback tid param cutPoint a)
  = (updateDepth tid cutPoint (stackDepth a)).1
  /\ traceState (invokeNativeHandler now id callback tid param cutPoint a)
     = (callback param (traceState a)).2
  /\ started (invokeNativeHandler now id callback tid param cutPoint a)
     = started a
  /\ pendingEvents (invokeNativeHandler now id callback tid param cutPoint a)
     = pendingEvents a
       ++ map (fun message =>
                 (id, (now - started a)%Z, tid,
                  (updateDepth tid cutPoint (stackDepth a)).2,
                  JsString.join " " message))
            (callback param (traceState a)).1.
Proof.
  unfold invokeNativeHandler.
  destruct (updateDepth tid cutPoint (stackDepth a)) as [entries depth].
  destruct (callback param (traceState a)) as [logged state].
  match goal with
  | |- context [log_all ?i ?t ?th ?d ?l ?x] =>
      destruct (log_all_fields i t th d l x) as (H1 & H2 & H3 & H4)
  end.
  rewrite H1, H2, H3, H4. cbn. easy.
Qed.

(** The depth table after a sequence of callbacks on a thread depends on
    the sequence of cut points alone. *)
Lemma run_calls_stackDepth tid (calls : list (ProbeCall Param TraceState)) a :
  stackDepth (run_calls tid calls a)
  = fold_left (fun m c => (updateDepth tid c m).1)
      (map call_cutPoint calls) (stackDepth a).
Proof.
  unfold run_calls. revert a.
  induction calls as [|c calls IH]; intros a; [reflexivity|].
  cbn [fold_left map]. rewrite IH.
  now destruct (invokeNativeHandler_fields (call_now c) (call_id c)
                  (call_callback c) tid (call_param c) (call_cutPoint c) a)
    as [-> _].
Qed.

End DispatchFacts.

Section DepthFacts.
Import Dispatch.

Lemma balance_cons c cs :
  balance (c :: cs)
  = (match c with Enter => 1 | Leave => -1 end + balance cs)%Z.
Proof.
  unfold balance. cbn [fold_left].
  assert (Hacc : forall l n,
             fold_left
               (fun n c =>
                  match c with Enter => (n + 1)%Z | Leave => (n - 1)%Z end)
               l n
             = (n + fold_left
                      (fun n c =>
                         match c with
                         | Enter => (n + 1)%Z
                         | Leave => (n - 1)%Z
                         end) l 0)%Z).
  { induction l as [|x l IH]; intros n; cbn [fold_left]; [lia|].
    rewrite IH, (IH (match x with Enter => _ | Leave => _ end)).
    destruct x; lia. }
  rewrite Hacc. destruct c; lia.
Qed.

(** While no exit comes without its entry, the table holds for the thread
    the number of its calls in progress, and no entry when there is none. *)
Lemma nested_depth tid cs : forall (open : nat) (m : gmap ThreadId Z),
  nested open cs = true ->
  m !! tid = entry_of (Z.of_nat open) ->
  (0 <= Z.of_nat open + balance cs)%Z
  /\ fold_left (fun m c => (updateDepth tid c m).1) cs m !! tid
     = entry_of (Z.of_nat open + balance cs).
Proof.
  induction cs as [|c cs IH]; intros open m Hnested Hm.
  - unfold balance. cbn. rewrite Z.add_0_r. split; [lia|exact Hm].
  - rewrite balance_cons. cbn [fold_left].
    assert (Hd : default 0%Z (m !! tid) = Z.of_nat open).
    { rewrite Hm. unfold entry_of. case_bool_decide; cbn; lia. }
    destruct c; cbn [nested] in Hnested.
    + destruct (IH (S open) (updateDepth tid Enter m).1 Hnested) as [H1 H2].
      { unfold updateDepth. rewrite Hd. cbn [fst].
        rewrite lookup_insert_eq. unfold entry_of.
        rewrite bool_decide_eq_false_2 by lia. f_equal. lia. }
      split; [lia|]. rewrite H2. f_equal. lia.
    + destruct open as [|open]; [discriminate|].
      destruct (IH open (updateDepth tid Leave m).1 Hnested) as [H1 H2].
      { unfold updateDepth. rewrite Hd. unfold entry_of.
        destruct (decide (Z.of_nat open = 0%Z)) as [E|E].
        - rewrite bool_decide_eq_false_2 by lia.
          rewrite bool_decide_eq_true_2 by lia. cbn [fst].
          apply lookup_delete_eq.
        - rewrite bool_decide_eq_true_2 by lia.
          rewrite bool_decide_eq_false_2 by lia. cbn [fst].
          rewrite lookup_insert_eq. f_equal. lia. }
      split; [lia|]. rewrite H2. f_equal. lia.
Qed.

End DepthFacts.

Section DispatchClaims.
Import Dispatch Samples.

(** C2, as the claim states it, fails: [updateDepth] returns the depth it
    read before the increment on entry, and the decremented depth on exit.
    A call on a thread without entry logs its two events with depth 0. *)
Lemma single_call_depth_is_zero :
  pendingEvents
    (traced_call 1010 1025 1%Z open_handler 7%Z "/etc/hosts" "3" fresh_agent)
  = [(1, 10, 7, 0, "open /etc/hosts"); (1, 25, 7, 0, "=> 3")]%Z
  /\ ~ Forall (fun e => event_depth e = 1%Z)
         (pendingEvents
            (traced_call 1010 1025 1%Z open_handler 7%Z "/etc/hosts" "3"
               fresh_agent)).
Proof.
  split; [reflexivity|].
  intros Hall. apply Forall_cons in Hall as [Hd _]. discriminate Hd.
Qed.

(** C2, amended: for a call on a thread without depth entry whose handlers
    log once on entry and once on exit, with a clock that does not go back,
    the agent queues exactly the event of the entry and the event of the
    exit, both with depth 0, the first with a timestamp not later than the
    second; and the thread has no entry afterwards. *)
Theorem single_call_two_events_depth_zero {Param TraceState : Type}
  (a : Agent TraceState) (id : TraceTargetId)
  (handler : @TraceHandler Param TraceState) (tid : ThreadId)
  (args retval : Param) (now_enter now_leave : Z)
  (entered left : list string) (st1 st2 : TraceState) :
  stackDepth a !! tid = None ->
  handler.1 args (traceState a) = ([entered], st1) ->
  handler.2 retval st1 = ([left], st2) ->
  (now_enter <= now_leave)%Z ->
  exists enter_event leave_event,
    pendingEvents
      (traced_call now_enter now_leave id handler tid args retval a)
    = pendingEvents a ++ [enter_event; leave_event]
    /\ enter_event
       = (id, (now_enter - started a)%Z, tid, 0%Z, JsString.join " " entered)
    /\ leave_event
       = (id, (now_leave - started a)%Z, tid, 0%Z, JsString.join " " left)
    /\ (event_timestamp enter_event <= event_timestamp leave_event)%Z
    /\ stackDepth
         (traced_call now_enter now_leave id handler tid args retval a)
       !! tid = None.
Proof.
  intros Hnone Henter Hleave Hclock. unfold traced_call, onLeave, onEnter.
  set (a1 := invokeNativeHandler now_enter id handler.1 tid args Enter a).
  destruct (invokeNativeHandler_fields now_enter id handler.1 tid args Enter a)
    as (D1 & S1 & T1 & E1).
  destruct (invokeNativeHandler_fields now_leave id handler.2 tid retval
              Leave a1) as (D2 & S2 & T2 & E2).
  fold a1 in D1, S1, T1, E1.
  rewrite Henter in S1, E1. cbn [fst snd map] in S1, E1.
  rewrite S1, Hleave, T1, D1 in E2. cbn [fst snd map] in E2.
  assert (Hd1 : updateDepth tid Enter (stackDepth a)
                = (<[tid := 1%Z]> (stackDepth a), 0%Z)).
  { unfold updateDepth. now rewrite Hnone. }
  rewrite Hd1 in D1, E1, E2. cbn [fst snd] in D1, E1, E2.
  assert (Hd2 : updateDepth tid Leave (<[tid := 1%Z]> (stackDepth a))
                = (delete tid (<[tid := 1%Z]> (stackDepth a)), 0%Z)).
  { unfold updateDepth. rewrite lookup_insert_eq. reflexivity. }
  rewrite Hd2 in E2. cbn [fst snd] in E2.
  eexists _, _. split; [|split; [reflexivity|split; [reflexivity|split]]].
  - rewrite E2, E1, <- app_assoc. reflexivity.
  - cbn. lia.
  - rewrite D2, D1, Hd2. cbn [fst]. apply lookup_delete_eq.
Qed.

Lemma single_call_two_events_depth_zero_witness :
  exists enter_event leave_event,
    pendingEvents
      (traced_call 1010 1025 1%Z open_handler 7%Z "/etc/hosts" "3" fresh_agent)
    = [enter_event; leave_event]
    /\ event_depth enter_event = 0%Z /\ event_depth leave_event = 0%Z.
Proof.
  destruct (single_call_two_events_depth_zero fresh_agent 1%Z open_handler 7%Z
              "/etc/hosts" "3" 1010 1025 ["open"; "/etc/hosts"] ["=>"; "3"]
              tt tt)
    as (e1 & e2 & Hev & -> & -> & _); [reflexivity..|lia|].
  eexists _, _. split; [exact Hev|]. split; reflexivity.
Defined.

(** C3, as the claim states it, fails: an exit without its entry stores the
    depth -1, the entry that follows stores 0, and the thread keeps an entry
    although its entries and exits balance. *)
Lemma exit_before_entry_keeps_entry :
  balance (map call_cutPoint [call_of Leave 1010; call_of Enter 1020]) = 0%Z
  /\ stackDepth
       (run_calls 7%Z [call_of Leave 1010; call_of Enter 1020] fresh_agent)
     !! 7%Z = Some 0%Z.
Proof. split; reflexivity. Qed.

(** C3, amended: after a sequence of probe callbacks on a thread that had
    no entry, in which no exit comes before its entry and the entries and
    exits balance, the table holds no entry for the thread; and an exit that
    brings the depth of the thread to zero deletes its entry. *)
Theorem balanced_calls_leave_no_entry {Param TraceState : Type}
  (tid : ThreadId) (calls : list (ProbeCall Param TraceState))
  (a : Agent TraceState) :
  stackDepth a !! tid = None ->
  nested 0 (map call_cutPoint calls) = true ->
  balance (map call_cutPoint calls) = 0%Z ->
  stackDepth (run_calls tid calls a) !! tid = None
  /\ forall m : gmap ThreadId Z,
       (default 0 (m !! tid) - 1 = 0)%Z ->
       (updateDepth tid Leave m).1 !! tid = None.
Proof.
  intros Hnone Hnested Hbalance. split.
  - rewrite run_calls_stackDepth.
    destruct (nested_depth tid (map call_cutPoint calls) 0 (stackDepth a)
                Hnested Hnone) as [_ ->].
    now rewrite Hbalance.
  - intros m Hm. unfold updateDepth.
    rewrite bool_decide_eq_false_2 by lia. apply lookup_delete_eq.
Qed.

Lemma balanced_calls_leave_no_entry_witness :
  stackDepth
    (run_calls 7%Z
       [call_of Enter 1010; call_of Enter 1020; call_of Leave 1030;
        call_of Enter 1040; call_of Leave 1050; call_of Leave 1060]
       fresh_agent)
  !! 7%Z = None.
Proof.
  apply (balanced_calls_leave_no_entry 7%Z
           [call_of Enter 1010; call_of Enter 1020; call_of Leave 1030;
            call_of Enter 1040; call_of Leave 1050; call_of Leave 1060]
           fresh_agent); reflexivity.
Defined.

End DispatchClaims.

(** ** Attachment and session start-up *)

Section SessionFacts.
Import TargetPlan Provisioning Dispatch Session.
Context {Param TraceState : Type} `{!Frida Param TraceState}.
Implicit Types (w : World Param TraceState).

Lemma getHandlers_returns host request :
  responsive host ->
  exists reqs response, getHandlers host request = (reqs, Returned response).
Proof.
  intros Hhost. unfold getHandlers.
  destruct (getHandlers_loop_pages host (flavor request) Hhost
              (S (length (flat_members (scopes request)))) (scopes request)
              (baseId request) [] [])
    as (reqs & Hrun & _); [lia|].
  rewrite Hrun. eauto.
Qed.

Lemma send_all_fields (reqs : list HandlerRequest) w :
  handlers (fold_left (fun w r => send (HandlersGet r) w) reqs w) = handlers w
  /\ nextId (fold_left (fun w r => send (HandlersGet r) w) reqs w) = nextId w
  /\ listeners (fold_left (fun w r => send (HandlersGet r) w) reqs w)
     = listeners w
  /\ wrappers (fold_left (fun w r => send (HandlersGet r) w) reqs w)
     = wrappers w.
Proof.
  revert w. induction reqs as [|r reqs IH]; intros w; [easy|].
  cbn [fold_left]. destruct (IH (send (HandlersGet r) w)) as (-> & -> & -> & ->).
  easy.
Qed.

Lemma parseHandler_fields name script w :
  handlers (parseHandler name script w).2 = handlers w
  /\ nextId (parseHandler name script w).2 = nextId w
  /\ listeners (parseHandler name script w).2 = listeners w
  /\ wrappers (parseHandler name script w).2 = wrappers w.
Proof. unfold parseHandler. destruct (eval_handler _); easy. Qed.

Lemma ids_below_insert bound id h w :
  ids_below bound w -> (id < bound)%Z ->
  forall k, is_Some (<[id := h]> (handlers w) !! k) -> (k < bound)%Z.
Proof.
  intros Hw Hid k Hk. destruct (decide (id = k)) as [<-|Hne]; [assumption|].
  rewrite lookup_insert_ne in Hk by assumption. now apply Hw.
Qed.

Lemma ids_below_fresh bound w : ids_below bound w -> handlers w !! bound = None.
Proof.
  intros Hw. destruct (handlers w !! bound) eqn:E; [|reflexivity].
  assert (bound < bound)%Z by (apply Hw; rewrite E; eauto). lia.
Qed.

Lemma ids_below_mono b1 b2 w :
  ids_below b1 w -> (b1 <= b2)%Z -> ids_below b2 w.
Proof. intros Hw Hle k Hk. specialize (Hw k Hk). lia. Qed.

(** One turn of the attachment loop registers one more handler, whether or
    not the probe could be attached. *)
Lemma attach_item_fields baseId scripts w offset (item : NativeItem) :
  ids_below (baseId + Z.of_nat offset) w ->
  (attach_item baseId scripts (w, offset) item).2 = S offset
  /\ ids_below (baseId + Z.of_nat (S offset))
       (attach_item baseId scripts (w, offset) item).1
  /\ size (handlers (attach_item baseId scripts (w, offset) item).1)
     = S (size (handlers w))
  /\ nextId (attach_item baseId scripts (w, offset) item).1 = nextId w
  /\ wrappers (attach_item baseId scripts (w, offset) item).1 = wrappers w.
Proof.
  intros Hw. unfold attach_item. destruct item as [name address].
  destruct (parseHandler_fields (displayName_of name)
              (script_at scripts offset) w) as (Hh & Hn & _ & Hwr).
  destruct (parseHandler _ _ w) as [handler w1]. cbn [snd] in Hh, Hn, Hwr.
  assert (Hsize : size (<[(baseId + Z.of_nat offset)%Z := handler]>
                          (handlers w1)) = S (size (handlers w))).
  { rewrite Hh. apply map_size_insert_None. now apply ids_below_fresh. }
  assert (Hbelow : forall k,
             is_Some (<[(baseId + Z.of_nat offset)%Z := handler]>
                        (handlers w1) !! k) ->
             (k < baseId + Z.of_nat (S offset))%Z).
  { rewrite Hh. apply ids_below_insert; [|lia].
    eapply ids_below_mono; [exact Hw|lia]. }
  destruct (attach_error address); cbn; repeat split; assumption.
Qed.

Lemma attach_items_fields baseId scripts (items : list NativeItem) :
  forall w offset,
    ids_below (baseId + Z.of_nat offset) w ->
    ids_below (baseId + Z.of_nat (offset + length items))
      (fold_left (attach_item baseId scripts) items (w, offset)).1
    /\ size (handlers
               (fold_left (attach_item baseId scripts) items (w, offset)).1)
       = size (handlers w) + length items
    /\ nextId (fold_left (attach_item baseId scripts) items (w, offset)).1
       = nextId w
    /\ wrappers (fold_left (attach_item baseId scripts) items (w, offset)).1
       = wrappers w.
Proof.
  induction items as [|item items IH]; intros w offset Hw; cbn [fold_left].
  - cbn. rewrite !Nat.add_0_r. easy.
  - destruct (attach_item_fields baseId scripts w offset item Hw)
      as (Hoff & Hbelow & Hsize & Hnext & Hwr).
    destruct (attach_item baseId scripts (w, offset) item) as [w1 off1].
    cbn [fst snd] in *. subst off1.
    destruct (IH w1 (S offset) Hbelow) as (H1 & H2 & H3 & H4).
    rewrite H2, H3, H4, Hsize, Hnext, Hwr. cbn [length].
    replace (offset + S (length items)) with (S offset + length items) by lia.
    repeat split; [assumption|lia].
Qed.

(** [traceNativeEntries] against a host that answers: it completes, takes
    one id per target and registers one handler per target. *)
Lemma traceNativeEntries_fields host fl (groups : NativeTargetScopes) w :
  responsive host ->
  ids_below (nextId w) w ->
  (traceNativeEntries host fl groups w).2 = Done
  /\ ids_below (nextId (traceNativeEntries host fl groups w).1)
       (traceNativeEntries host fl groups w).1
  /\ size (handlers (traceNativeEntries host fl groups w).1)
     = size (handlers w) + length (concat groups.*2)
  /\ wrappers (traceNativeEntries host fl groups w).1 = wrappers w.
Proof.
  intros Hhost Hw. unfold traceNativeEntries.
  destruct groups as [|g groups]; [cbn; rewrite Nat.add_0_r; easy|].
  set (items := concat (g :: groups).*2).
  match goal with
  | |- context [getHandlers host ?req] =>
      destruct (getHandlers_returns host req Hhost) as (reqs & resp & ->)
  end.
  set (w1 := advance_nextId (length items) w).
  destruct (send_all_fields reqs w1) as (Hh & Hn & _ & Hwr).
  set (w2 := fold_left (fun w r => send (HandlersGet r) w) reqs w1) in *.
  destruct (attach_items_fields (nextId w) (scripts resp) items w2 0)
    as (H1 & H2 & H3 & H4).
  { intros k Hk. rewrite Hh in Hk. cbn in Hk. specialize (Hw k Hk). lia. }
  cbn [fst snd]. rewrite H2, H3, H4, Hh, Hn, Hwr. cbn.
  repeat split. exact H1.
Qed.

Lemma add_to_group_total (entries : NativeTargetScopes) scope item :
  length (concat (add_to_group entries scope item).*2)
  = S (length (concat entries.*2)).
Proof.
  unfold add_to_group. induction entries as [|[k v] entries IH].
  - reflexivity.
  - cbn [JsMap.get JsMap.set]. destruct (decide (k = scope)) as [->|Hne].
    + cbn. rewrite !length_app. cbn. lia.
    + destruct (JsMap.get scope entries); cbn in *;
        rewrite !length_app, IH; lia.
Qed.

Lemma group_targets_total (targets : NativeTargets) :
  length (concat (group_targets targets).1.1.*2)
  + length (concat (group_targets targets).1.2.*2)
  + length (concat (group_targets targets).2.*2)
  = length targets.
Proof.
  unfold group_targets, JsMap.entries.
  assert (Hgen : forall (l : NativeTargets) c o s,
             let r :=
               fold_left
                 (fun (groups : NativeTargetScopes * NativeTargetScopes
                                * NativeTargetScopes)
                      (entry : NativeId * NativeTarget) =>
                    let '(cGroups, objcGroups, swiftGroups) := groups in
                    let '(id, (type, scope, name)) := entry in
                    match type with
                    | NativeC => (add_to_group cGroups scope (name, id),
                                  objcGroups, swiftGroups)
                    | NativeObjC =>
                        (cGroups, add_to_group objcGroups scope (name, id),
                         swiftGroups)
                    | NativeSwift =>
                        (cGroups, objcGroups,
                         add_to_group swiftGroups scope (name, id))
                    end) l (c, o, s) in
             length (concat r.1.1.*2) + length (concat r.1.2.*2)
             + length (concat r.2.*2)
             = length (concat c.*2) + length (concat o.*2)
               + length (concat s.*2) + length l).
  { induction l as [|[id [[type scope] name]] l IH]; intros c o s;
      cbn [fold_left length]; [cbn; lia|].
    destruct type; cbn zeta in IH |- *; rewrite IH, add_to_group_total; lia. }
  apply (Hgen targets [] [] []).
Qed.

(** [traceNativeTargets] against a host that answers: one handler per
    native target of the plan. *)
Lemma traceNativeTargets_fields host (targets : NativeTargets) w :
  responsive host ->
  ids_below (nextId w) w ->
  (traceNativeTargets host targets w).2 = Done
  /\ ids_below (nextId (traceNativeTargets host targets w).1)
       (traceNativeTargets host targets w).1
  /\ size (handlers (traceNativeTargets host targets w).1)
     = size (handlers w) + length targets.
Proof.
  intros Hhost Hw. unfold traceNativeTargets.
  pose proof (group_targets_total targets) as Htotal.
  destruct (group_targets targets) as [[c o] s]. cbn [fst snd] in Htotal.
  destruct (traceNativeEntries_fields host TypeC c w Hhost Hw)
    as (D1 & B1 & S1 & _).
  destruct (traceNativeEntries host TypeC c w) as [w1 c1].
  cbn [fst snd] in *.
  destruct (traceNativeEntries_fields host TypeObjC o w1 Hhost B1)
    as (D2 & B2 & S2 & _).
  destruct (traceNativeEntries host TypeObjC o w1) as [w2 c2].
  cbn [fst snd] in *.
  destruct (traceNativeEntries_fields host TypeSwift s w2 Hhost B2)
    as (D3 & B3 & S3 & _).
  destruct (traceNativeEntries host TypeSwift s w2) as [w3 c3].
  cbn [fst snd] in *. subst c1 c2 c3.
  repeat split; [assumption|lia].
Qed.

(** The request of [traceJavaTargets] has one member per method. *)
Lemma java_scopes_total (groups : list JavaTargetGroup) :
  length
    (flat_members
       (flat_map (fun group => map java_scope (JsMap.entries (classes group)))
          groups))
  = length (java_methods groups).
Proof.
  unfold java_methods, JsMap.entries.
  induction groups as [|g groups IH]; [reflexivity|].
  cbn [flat_map]. rewrite flat_members_app, !length_app, IH. f_equal.
  induction (classes g) as [|[cn cls] rest IHc]; [reflexivity|].
  cbn [map flat_map].
  change (flat_members (?x :: ?l)) with (scope_members x ++ flat_members l).
  rewrite !length_app, IHc. f_equal.
  unfold java_scope, JsMap.keys. cbn. now rewrite !length_map.
Qed.

Lemma wrap_methods_fields baseId scripts
  (ms : list (JavaClassName * JavaMethodName * string)) :
  forall w offset,
    ids_below (baseId + Z.of_nat offset) w ->
    ids_below (baseId + Z.of_nat (offset + length ms))
      (fold_left (wrap_method baseId scripts) ms (w, offset)).1
    /\ size (handlers (fold_left (wrap_method baseId scripts) ms (w, offset)).1)
       = size (handlers w) + length ms
    /\ nextId (fold_left (wrap_method baseId scripts) ms (w, offset)).1
       = nextId w.
Proof.
  induction ms as [|m ms IH]; intros w offset Hw; cbn [fold_left].
  - cbn. rewrite !Nat.add_0_r. easy.
  - destruct m as [[className bareName] fullName]. cbn [wrap_method].
    destruct (parseHandler_fields fullName (script_at scripts offset) w)
      as (Hh & Hn & _ & _).
    destruct (parseHandler fullName (script_at scripts offset) w)
      as [handler w1]. cbn [snd] in Hh, Hn.
    match goal with
    | |- context [fold_left _ ms (?x, S offset)] => set (w2 := x)
    end.
    assert (Hsize : size (handlers w2) = S (size (handlers w))).
    { cbn. rewrite Hh. apply map_size_insert_None. now apply ids_below_fresh. }
    assert (Hbelow : ids_below (baseId + Z.of_nat (S offset)) w2).
    { intros k Hk. cbn in Hk. rewrite Hh in Hk.
      apply (ids_below_insert (baseId + Z.of_nat (S offset))
               (baseId + Z.of_nat offset) handler w); [|lia|exact Hk].
      eapply ids_below_mono; [exact Hw|lia]. }
    destruct (IH w2 (S offset) Hbelow) as (H1 & H2 & H3).
    rewrite H2, H3, Hsize. cbn [length].
    replace (offset + S (length ms)) with (S offset + length ms) by lia.
    repeat split; [assumption|lia|]. cbn. exact Hn.
Qed.

Lemma traceJavaTargets_fields host (groups : list JavaTargetGroup) w :
  responsive host ->
  ids_below (nextId w) w ->
  (traceJavaTargets host groups w).2 = Done
  /\ ids_below (nextId (traceJavaTargets host groups w).1)
       (traceJavaTargets host groups w).1
  /\ size (handlers (traceJavaTargets host groups w).1)
     = size (handlers w) + length (java_methods groups).
Proof.
  intros Hhost Hw. unfold traceJavaTargets.
  rewrite java_scopes_total.
  match goal with
  | |- context [getHandlers host ?req] =>
      destruct (getHandlers_returns host req Hhost) as (reqs & resp & ->)
  end.
  set (w1 := advance_nextId (length (java_methods groups)) w).
  destruct (send_all_fields reqs w1) as (Hh & Hn & _ & _).
  set (w2 := fold_left (fun w r => send (HandlersGet r) w) reqs w1) in *.
  destruct (wrap_methods_fields (nextId w) (scripts resp)
              (java_methods groups) w2 0) as (H1 & H2 & H3).
  { intros k Hk. rewrite Hh in Hk. cbn in Hk. specialize (Hw k Hk). lia. }
  cbn [fst snd]. rewrite H2, H3, Hh, Hn. cbn.
  repeat split. exact H1.
Qed.

Section WithJava.
Context `{!JavaRuntime}.

(** C9, amended: against a host that answers, from a state whose handler
    ids are below the id counter, [start] ends by sending [agent:started],
    and the count it carries is the size of the handler table, which has
    gained one handler for each native target of the plan and one for each
    Java method of the plan after the queued rules, whatever the interceptor
    answered when the probes were attached. *)
Theorem started_counts_registered_handlers (host : Host)
  (javaEntries : list (TraceSpecOperation * string)) (plan : TracePlan) w :
  responsive host ->
  ids_below (nextId w) w ->
  (javaEntries <> [] -> java_available = true) ->
  last (sent (start host javaEntries plan w))
  = Some (AgentStarted (size (handlers (start host javaEntries plan w))))
  /\ size (handlers (start host javaEntries plan w))
     = size (handlers w) + length (native plan)
       + managed_targets javaEntries plan.
Proof.
  intros Hhost Hw Hjava. unfold start, managed_targets.
  destruct javaEntries as [|e es].
  - destruct (traceNativeTargets_fields host (native plan) w Hhost Hw)
      as (D & B & S).
    destruct (traceNativeTargets host (native plan) w) as [w1 c].
    cbn [fst snd] in *. subst c. cbn [sent send handlers].
    rewrite last_snoc, S. split; [reflexivity|lia].
  - rewrite Hjava by discriminate. cbn [negb].
    set (groups := java (apply_java_entries (e :: es) plan)).
    unfold java_start. fold groups.
    destruct java_perform_now.
    + destruct (traceJavaTargets_fields host groups w Hhost Hw)
        as (Dj & Bj & Sj).
      destruct (traceJavaTargets host groups w) as [w1 cj].
      cbn [fst snd] in *. subst cj.
      destruct (traceNativeTargets_fields host (native plan) w1 Hhost Bj)
        as (Dn & Bn & Sn).
      destruct (traceNativeTargets host (native plan) w1) as [w2 cn].
      cbn [fst snd] in *. subst cn. cbn [both sent send handlers].
      rewrite last_snoc, Sn, Sj. split; [reflexivity|lia].
    + destruct (traceNativeTargets_fields host (native plan) w Hhost Hw)
        as (Dn & Bn & Sn).
      destruct (traceNativeTargets host (native plan) w) as [w1 cn].
      cbn [fst snd] in *. subst cn.
      destruct (traceJavaTargets_fields host groups (send AgentInitialized w1)
                  Hhost Bn) as (Dj & Bj & Sj).
      destruct (traceJavaTargets host groups (send AgentInitialized w1))
        as [w2 cj].
      cbn [fst snd] in *. subst cj. cbn [both sent send handlers] in *.
      rewrite last_snoc, Sj, Sn. split; [reflexivity|lia].
Qed.

End WithJava.

End SessionFacts.

Section SessionClaims.
Import TargetPlan Provisioning Dispatch Session Samples.

(** C9, as the claim states it, fails: [traceNativeEntries] puts the handler
    in the table before it tries to attach the probe, and the count of
    [agent:started] is the size of that table.  With one target whose
    attachment fails, the agent warns, then reports one target started
    while no probe is attached. *)
Lemma started_counts_failed_attachment :
  sent (@start _ _ refusing_interceptor no_java answering_host [] bar_plan
          new_world)
  = [HandlersGet
       {| flavor := TypeC; baseId := 1;
          scopes := [{| scope_name := "libfoo";
                        scope_members := [MemberBare "bar"] |}] |};
     AgentWarning ("Skipping " +:+ dquote +:+ "bar" +:+ dquote
                   +:+ ": unable to intercept function at 0x1000");
     AgentInitialized;
     AgentStarted 1]
  /\ attached_count
       (@start _ _ refusing_interceptor no_java answering_host [] bar_plan
          new_world) = 0.
Proof. split; vm_compute; reflexivity. Qed.

Lemma started_counts_registered_handlers_witness :
  last (sent (@start _ _ refusing_interceptor no_java answering_host []
                bar_plan new_world))
  = Some (AgentStarted 1).
Proof.
  destruct (@started_counts_registered_handlers _ _ refusing_interceptor
              no_java answering_host [] bar_plan new_world) as [Hlast Hsize].
  - intros req. unfold answering_host. eauto.
  - intros k [h Hk]. vm_compute in Hk. discriminate.
  - intros Hne. now destruct Hne.
  - rewrite Hlast, Hsize. reflexivity.
Defined.

End SessionClaims.

(** * Part III: the rest of the agent *)

(** ** The event queue *)

Section BatcherFacts.
Import Dispatch Batcher.
Context {TraceState : Type}.
Implicit Types (a : Agent TraceState) (steps : list Step).

Lemma run_acc steps : forall a (batches : list (list TraceEvent)),
  fold_left step steps (a, batches)
  = ((run steps a).1, batches ++ (run steps a).2).
Proof.
  unfold run. induction steps as [|s steps IH]; intros a batches.
  - cbn. now rewrite app_nil_r.
  - cbn [fold_left]. destruct s; cbn [step fst snd].
    + rewrite IH, (IH (emit event a) []). reflexivity.
    + rewrite IH. symmetry. rewrite IH. cbn [fst snd].
      destruct (flush a).2; cbn [app]; [|reflexivity].
      now rewrite <- app_assoc.
Qed.

Lemma run_cons s steps a :
  run (s :: steps) a
  = ((run steps (step (a, []) s).1).1,
     (step (a, []) s).2 ++ (run steps (step (a, []) s).1).2).
Proof.
  unfold run at 1. cbn [fold_left].
  destruct (step (a, []) s) as [a1 b1] eqn:E. now rewrite run_acc.
Qed.

Lemma flush_batch a :
  (flush a).2 = match pendingEvents a with [] => None | l => Some l end
  /\ pendingEvents (flush a).1 = []
  /\ flushTimer (flush a).1 = false.
Proof. unfold flush. destruct (pendingEvents a); easy. Qed.

(** X1: whatever the order of the emissions and the flushes, the batches
    sent, put end to end, followed by what still waits in the queue, are the
    events that waited at the start followed by the events emitted since, in
    order; and no batch is empty. *)
Theorem batches_conserve_events steps a :
  concat (run steps a).2 ++ pendingEvents (run steps a).1
  = pendingEvents a ++ emitted steps
  /\ Forall (fun batch => batch <> []) (run steps a).2.
Proof.
  revert a. induction steps as [|s steps IH]; intros a.
  - cbn. now rewrite app_nil_r.
  - rewrite run_cons. cbn [fst snd].
    destruct (IH (step (a, []) s).1) as [IH1 IH2].
    rewrite concat_app, <- app_assoc, IH1. split.
    + destruct s; cbn [step fst snd emitted omap list_omap concat app].
      * cbn [emit pendingEvents]. now rewrite <- app_assoc.
      * destruct (flush_batch a) as (-> & -> & _).
        destruct (pendingEvents a); cbn; now rewrite ?app_nil_r.
    + apply Forall_app. split; [|assumption].
      destruct s; cbn [step fst snd]; [constructor|].
      destruct (flush_batch a) as (-> & _).
      destruct (pendingEvents a); repeat constructor. discriminate.
Qed.

(** X2: from a state in which a flush is scheduled whenever events wait,
    every sequence of emissions and flushes leads to such a state; and a
    flush that follows a flush sends nothing. *)
Theorem flush_stays_scheduled steps a :
  scheduled a ->
  scheduled (run steps a).1
  /\ (flush (flush (run steps a).1).1).2 = None.
Proof.
  intros Hs. split.
  - revert a Hs. induction steps as [|s steps IH]; intros a Hs; [exact Hs|].
    rewrite run_cons. cbn [fst]. apply IH.
    destruct s; cbn [step fst]; [now intros _|].
    intros Hne. now destruct (flush_batch a) as (_ & Hp & _).
  - destruct (flush_batch (flush (run steps a).1).1) as (-> & _).
    now destruct (flush_batch (run steps a).1) as (_ & -> & _).
Qed.

End BatcherFacts.

(** ** The depth table *)

Section ThreadsFacts.
Import Dispatch Threads.

Lemma updateDepth_read tid c m :
  depth_read tid (updateDepth tid c m).1 = (depth_read tid m + delta c)%Z.
Proof.
  unfold depth_read, updateDepth. destruct c; cbn [fst delta].
  - rewrite lookup_insert_eq. reflexivity.
  - case_bool_decide as Hz; cbn [fst].
    + rewrite lookup_insert_eq. cbn. lia.
    + rewrite lookup_delete_eq. cbn.
      destruct (decide (default 0%Z (m !! tid) - 1 = 0)%Z); [lia|contradiction].
Qed.

Lemma updateDepth_other tid tid' c m :
  tid <> tid' -> (updateDepth tid c m).1 !! tid' = m !! tid'.
Proof.
  intros Hne. unfold updateDepth. destruct c; cbn [fst].
  - now rewrite lookup_insert_ne.
  - case_bool_decide; cbn [fst];
      [now rewrite lookup_insert_ne | now rewrite lookup_delete_ne].
Qed.

Lemma updateDepth_returned tid c m :
  (updateDepth tid c m).2
  = match c with
    | Enter => depth_read tid m
    | Leave => (depth_read tid m - 1)%Z
    end.
Proof.
  unfold updateDepth, depth_read. destruct c; [reflexivity|].
  now case_bool_decide.
Qed.

Lemma balance_nil : balance [] = 0%Z.
Proof. reflexivity. Qed.

Lemma depth_after_read (calls : list (ThreadId * CutPoint))
  (m : gmap ThreadId Z) (tid : ThreadId) :
  depth_read tid (depth_after calls m)
  = (depth_read tid m + balance (calls_of tid calls))%Z.
Proof.
  revert m. unfold depth_after, calls_of.
  induction calls as [|[t c] calls IH]; intros m; cbn [fold_left].
  - cbn. unfold balance. cbn. lia.
  - rewrite IH, filter_cons. cbn [fst snd].
    destruct (decide (t = tid)) as [->|Hne].
    + cbn [fmap list_fmap]. rewrite balance_cons, updateDepth_read.
      destruct c; cbn [delta snd]; lia.
    + f_equal. unfold depth_read. now rewrite updateDepth_other.
Qed.

(** X3: there is no clamping and no sharing: after any sequence of probe
    callbacks of any threads, the depth that a thread reads next is the depth
    it read before plus its own entries minus its own exits, and the entry
    of a thread that made no callback is as it was. *)
Theorem depth_is_entries_minus_exits (calls : list (ThreadId * CutPoint))
  (m : gmap ThreadId Z) (tid : ThreadId) :
  depth_read tid (depth_after calls m)
  = (depth_read tid m + balance (calls_of tid calls))%Z
  /\ (calls_of tid calls = [] -> depth_after calls m !! tid = m !! tid).
Proof.
  split; [apply depth_after_read|].
  revert m. unfold depth_after, calls_of.
  induction calls as [|[t c] calls IH]; intros m Hnil; cbn [fold_left];
    [reflexivity|].
  rewrite filter_cons in Hnil. cbn [fst] in Hnil.
  destruct (decide (t = tid)) as [->|Hne]; [discriminate|].
  rewrite IH by exact Hnil. now apply updateDepth_other.
Qed.

(** X4: the exit of a call reports the depth that its entry reported,
    whatever happened in between on other threads, provided the callbacks of
    the thread itself in between balance. *)
Theorem exit_reports_depth_of_entry (tid : ThreadId)
  (between : list (ThreadId * CutPoint)) (m : gmap ThreadId Z) :
  balance (calls_of tid between) = 0%Z ->
  (updateDepth tid Leave
     (depth_after between (updateDepth tid Enter m).1)).2
  = (updateDepth tid Enter m).2.
Proof.
  intros Hb. rewrite !updateDepth_returned, depth_after_read.
  rewrite Hb, updateDepth_read. cbn [delta]. lia.
Qed.

End ThreadsFacts.

(** ** Handler provisioning against any host *)

Section ProvisioningAnyHost.
Import TargetPlan Provisioning.

(** One pass of the loop of [getHandlers]. *)
Lemma one_pass ps :
  exists cs ps',
    fill_request ps [] 0%Z
    = (cs, ps', (0 + Z.of_nat (1000 `min` length (tagged_members ps)))%Z)
    /\ tagged_members cs = take 1000 (tagged_members ps)
    /\ tagged_members (drop_empty ps') = drop 1000 (tagged_members ps)
    /\ (drop_empty ps' = [] <-> length (tagged_members ps) <= 1000).
Proof.
  destruct (fill_request_spec ps [] 1000) as (cs & ps' & Hfill & Hcs & Hps');
    [lia|].
  change (1000 - Z.of_nat 1000)%Z with 0%Z in Hfill.
  exists cs, ps'. split; [exact Hfill|]. split; [exact Hcs|].
  split; [now rewrite drop_empty_tagged|].
  rewrite drop_empty_nil, Hps'. split.
  - intros Hnil. apply (f_equal length) in Hnil.
    rewrite length_drop in Hnil. cbn in Hnil. lia.
  - intros Hle. now apply drop_ge.
Qed.

(** The pages of any pending members exist. *)
Lemma pages_exist fl id ps :
  exists reqs, pages fl id (tagged_members ps) reqs.
Proof.
  destruct (getHandlers_loop_pages (fun _ => Some {| scripts := [] |}) fl
              ltac:(intros req; eauto)
              (S (length (flat_members ps))) ps id [] [])
    as (reqs & _ & Hpages); [lia|].
  now exists reqs.
Qed.

Lemma getHandlers_loop_any host fl :
  forall fuel ps id scr sent,
    length (flat_members ps) < fuel ->
    exists front r rest out,
      getHandlers_loop fuel host fl ps id scr sent
      = (sent ++ front ++ [r], out)
      /\ Forall (fun q => is_Some (host q)) front
      /\ pages fl id (tagged_members ps) (front ++ [r] ++ rest)
      /\ ((host r = None /\ out = Stalled)
          \/ (is_Some (host r) /\ rest = []
              /\ out = Returned
                         {| scripts :=
                              scr ++ concat (map (reply_scripts host)
                                               (front ++ [r])) |})).
Proof.
  induction fuel as [|fuel IH]; intros ps id scr sent Hfuel; [lia|].
  cbn [getHandlers_loop]. rewrite flat_members_length in Hfuel.
  destruct (one_pass ps) as (cs & ps' & -> & Hcs & Hps' & Hnil).
  set (T := tagged_members ps) in *.
  set (r := {| flavor := fl; baseId := id; scopes := cs |}).
  assert (Hpage : forall rest,
             (1000 < length T -> pages fl (id + 1000) (drop 1000 T) rest) ->
             (length T <= 1000 -> rest = []) ->
             pages fl id T (r :: rest)).
  { intros rest Hmore Hlast.
    destruct (decide (length T <= 1000)) as [Hle|Hgt].
    - rewrite (Hlast Hle). apply pages_last; try reflexivity; [assumption|].
      cbn [scopes r]. now rewrite Hcs, take_ge.
    - apply pages_more; try reflexivity; [lia|exact Hcs|]. apply Hmore. lia. }
  destruct (host r) as [response|] eqn:Hr.
  - destruct (drop_empty ps') as [|p q] eqn:Hdrop.
    + exists [], r, [], (Returned {| scripts := scr ++ scripts response |}).
      split; [reflexivity|]. split; [constructor|]. split.
      * apply Hpage; [|reflexivity]. intros Hgt.
        assert (length T <= 1000) by now apply Hnil. lia.
      * right. rewrite Hr. split; [eauto|]. split; [reflexivity|].
        cbn [app map concat]. unfold reply_scripts.
        now rewrite Hr, app_nil_r.
    + assert (Hgt : 1000 < length T).
      { destruct (decide (1000 < length T)); [assumption|].
        assert (p :: q = []) by (apply Hnil; lia). discriminate. }
      replace (1000 `min` length T) with 1000 by lia.
      destruct (IH (p :: q) (id + (0 + Z.of_nat 1000))%Z
                  (scr ++ scripts response) (sent ++ [r]))
        as (front & r' & rest & out & Hloop & Hfront & Hpages & Hout).
      { rewrite flat_members_length, Hps', length_drop. lia. }
      rewrite Hloop. exists (r :: front), r', rest, out.
      split; [now rewrite <- !app_assoc|].
      split; [constructor; [rewrite Hr; eauto|assumption]|].
      split.
      * cbn [app]. apply Hpage; [|lia]. intros _.
        rewrite Hps' in Hpages.
        replace (id + 1000)%Z with (id + (0 + Z.of_nat 1000))%Z by lia.
        exact Hpages.
      * destruct Hout as [Hstall|(Hsome & Hrest & ->)]; [now left|right].
        split; [assumption|]. split; [assumption|].
        cbn [app map concat]. unfold reply_scripts at 2.
        now rewrite Hr, <- !app_assoc.
  - exists [], r.
    destruct (pages_exist fl (id + 1000) (drop_empty ps')) as [rest Hrest].
    exists (if decide (length T <= 1000) then [] else rest), Stalled.
    split; [reflexivity|]. split; [constructor|]. split; [|now left].
    cbn [app]. apply Hpage.
    + intros Hgt. rewrite decide_False by lia. now rewrite <- Hps'.
    + intros Hle. now rewrite decide_True.
Qed.

(** X5: against any host, [getHandlers] ends after finitely many passes:
    it returns when every request it sent was answered, and otherwise it
    waits for the reply to the first request the host left unanswered, which
    is the last it sent.  The requests it sent are the first pages of the
    members of the request, all of them when it returns, and the scripts it
    returns are those of the replies, in order. *)
Theorem getHandlers_any_host (host : Host) (request : HandlerRequest) :
  exists front r rest,
    (getHandlers host request).1 = front ++ [r]
    /\ Forall (fun q => is_Some (host q)) front
    /\ pages (flavor request) (baseId request)
         (tagged_members (scopes request)) (front ++ [r] ++ rest)
    /\ ((host r = None /\ (getHandlers host request).2 = Stalled)
        \/ (is_Some (host r) /\ rest = []
            /\ (getHandlers host request).2
               = Returned
                   {| scripts :=
                        concat (map (reply_scripts host) (front ++ [r])) |})).
Proof.
  unfold getHandlers.
  destruct (getHandlers_loop_any host (flavor request)
              (S (length (flat_members (scopes request)))) (scopes request)
              (baseId request) [] [])
    as (front & r & rest & out & -> & Hfront & Hpages & Hout); [lia|].
  exists front, r, rest. cbn [fst snd app]. repeat split; assumption.
Qed.

(** The place and the size of each page. *)
Lemma pages_sizes fl id T reqs :
  pages fl id T reqs ->
  forall i r,
    reqs !! i = Some r ->
    baseId r = (id + 1000 * Z.of_nat i)%Z
    /\ length (flat_members (scopes r))
       = 1000 `min` (length T - 1000 * i)
    /\ 1000 * i <= length T
    /\ (T <> [] -> 1000 * i < length T).
Proof.
  induction 1 as [id T r0 Hlen _ Hid HT|id T r0 rs Hlen _ Hid HT _ IH];
    intros i r Hi.
  - destruct i; [|discriminate]. injection Hi as <-.
    rewrite flat_members_length, HT, Hid.
    repeat split; try lia. intros Hne. destruct T; [contradiction|cbn; lia].
  - destruct i as [|i].
    + injection Hi as <-. rewrite flat_members_length, HT, Hid, length_take.
      repeat split; lia.
    + change (rs !! i = Some r) in Hi.
      destruct (IH i r Hi) as (H1 & H2 & H3 & H4).
      rewrite length_drop in H2, H3, H4.
      rewrite H1, H2. repeat split; try lia.
      intros _. assert (Hd : drop 1000 T <> []); [|apply H4 in Hd; lia].
      intros Hnil. apply (f_equal length) in Hnil.
      rewrite length_drop in Hnil. cbn in Hnil. lia.
Qed.

(** X6: against a host that answers, the request number i (from 0) has the
    id [baseId + 1000 i]; it carries 1000 members when it is not the last
    and what is left otherwise; and when the request has members, no request
    that is sent is empty. *)
Theorem getHandlers_request_sizes (host : Host) (request : HandlerRequest)
  (i : nat) (r : HandlerRequest) :
  responsive host ->
  (getHandlers host request).1 !! i = Some r ->
  baseId r = (baseId request + 1000 * Z.of_nat i)%Z
  /\ length (flat_members (scopes r))
     = 1000 `min` (length (flat_members (scopes request)) - 1000 * i)
  /\ (S i < length (getHandlers host request).1 ->
      length (flat_members (scopes r)) = 1000)
  /\ (flat_members (scopes request) <> [] ->
      1 <= length (flat_members (scopes r))).
Proof.
  intros Hhost Hi. unfold getHandlers in *.
  destruct (getHandlers_loop_pages host (flavor request) Hhost
              (S (length (flat_members (scopes request)))) (scopes request)
              (baseId request) [] [])
    as (reqs & Hrun & Hpages); [lia|].
  rewrite Hrun in *. cbn [fst app] in *.
  destruct (pages_sizes _ _ _ _ Hpages i r Hi) as (H1 & H2 & H3 & H4).
  rewrite <- flat_members_length in H2, H3, H4.
  split; [exact H1|]. split; [exact H2|]. split.
  - intros Hnext.
    destruct (reqs !! S i) as [r'|] eqn:Hr';
      [|apply lookup_ge_None in Hr'; lia].
    destruct (pages_sizes _ _ _ _ Hpages (S i) r' Hr') as (_ & _ & H5 & _).
    rewrite <- flat_members_length in H5. lia.
  - intros Hne. rewrite H2.
    assert (1000 * i < length (flat_members (scopes request))); [|lia].
    apply H4. intros Hnil. apply Hne.
    rewrite flat_members_tagged, Hnil. reflexivity.
Qed.

End ProvisioningAnyHost.

(** ** The handler table *)

Section RegistryFacts.
Import TargetPlan Provisioning Dispatch Session Registry.
Context {Param TraceState : Type} `{!Frida Param TraceState}.
Implicit Types (w : World Param TraceState).

Lemma parseHandler_handler name script w :
  (parseHandler name script w).1 = handler_of_script script.
Proof.
  unfold parseHandler, handler_of_script. now destruct (eval_handler _).
Qed.

Lemma attached_listeners_cons baseId offset (item : NativeItem) items :
  attached_listeners baseId offset (item :: items)
  = match attach_error item.2 with
    | None => [(item.2, (baseId + Z.of_nat offset)%Z)]
    | Some _ => []
    end ++ attached_listeners baseId (S offset) items.
Proof.
  unfold attached_listeners. rewrite imap_cons. cbn [omap list_omap].
  rewrite Nat.add_0_r.
  replace (imap ((fun i (item : NativeItem) =>
                    match attach_error item.2 with
                    | None =>
                        Some (item.2, (baseId + Z.of_nat (offset + i))%Z)
                    | Some _ => None
                    end) ∘ S) items)
    with (imap (fun i (item : NativeItem) =>
                  match attach_error item.2 with
                  | None =>
                      Some (item.2, (baseId + Z.of_nat (S offset + i))%Z)
                  | Some _ => None
                  end) items).
  - now destruct (attach_error item.2).
  - apply imap_ext. intros i x _. cbn.
    now replace (offset + S i) with (S (offset + i)) by lia.
Qed.

(** What one turn of the attachment loop does to the table and to the
    listeners. *)
Lemma attach_item_detail baseId scripts w offset (item : NativeItem) :
  handlers (attach_item baseId scripts (w, offset) item).1
  = <[(baseId + Z.of_nat offset)%Z :=
        handler_of_script (script_at scripts offset)]> (handlers w)
  /\ listeners (attach_item baseId scripts (w, offset) item).1
     = listeners w
       ++ match attach_error item.2 with
          | None => [(item.2, (baseId + Z.of_nat offset)%Z)]
          | Some _ => []
          end.
Proof.
  unfold attach_item. destruct item as [name address].
  rewrite <- (parseHandler_handler (displayName_of name)
                (script_at scripts offset) w).
  destruct (parseHandler_fields (displayName_of name)
              (script_at scripts offset) w) as (Hh & _ & Hl & _).
  destruct (parseHandler _ _ w) as [handler w1]. cbn [fst snd] in *.
  destruct (attach_error address); cbn; rewrite Hh, Hl, ?app_nil_r; easy.
Qed.

Lemma attach_items_detail baseId scripts (items : list NativeItem) :
  forall w offset,
    (forall i, i < length items ->
       handlers (fold_left (attach_item baseId scripts) items (w, offset)).1
       !! (baseId + Z.of_nat (offset + i))%Z
       = Some (handler_of_script (script_at scripts (offset + i))))
    /\ (forall k,
          ~ (baseId + Z.of_nat offset <= k
             < baseId + Z.of_nat (offset + length items))%Z ->
          handlers (fold_left (attach_item baseId scripts) items (w, offset)).1
          !! k = handlers w !! k)
    /\ listeners (fold_left (attach_item baseId scripts) items (w, offset)).1
       = listeners w ++ attached_listeners baseId offset items.
Proof.
  induction items as [|item items IH]; intros w offset; cbn [fold_left].
  - cbn. split; [intros i Hi; lia|]. split; [reflexivity|].
    now rewrite app_nil_r.
  - destruct (attach_item_detail baseId scripts w offset item) as [Hh Hl].
    pose proof (attach_item_fields baseId scripts w offset item) as Hoff.
    assert (Hsnd : (attach_item baseId scripts (w, offset) item).2 = S offset).
    { unfold attach_item. destruct item as [name address].
      now destruct (parseHandler _ _ w). }
    destruct (attach_item baseId scripts (w, offset) item) as [w1 off1].
    cbn [fst snd] in *. subst off1.
    destruct (IH w1 (S offset)) as (H1 & H2 & H3).
    split; [|split].
    + intros [|i] Hi.
      * rewrite Nat.add_0_r, H2, Hh by lia. apply lookup_insert_eq.
      * cbn [length] in Hi. specialize (H1 i ltac:(lia)).
        now replace (offset + S i) with (S offset + i) by lia.
    + intros k Hk. cbn [length] in Hk. rewrite H2, Hh by lia.
      apply lookup_insert_ne. lia.
    + rewrite H3, Hl, attached_listeners_cons, <- app_assoc. reflexivity.
Qed.

(** The attachment loop leaves the id counter and the Java wrappers. *)
Lemma attach_items_detail_fields baseId scripts (items : list NativeItem) :
  forall w offset,
    nextId (fold_left (attach_item baseId scripts) items (w, offset)).1
    = nextId w
    /\ wrappers (fold_left (attach_item baseId scripts) items (w, offset)).1
       = wrappers w.
Proof.
  induction items as [|item items IH]; intros w offset; cbn [fold_left];
    [easy|].
  assert (Hstep : (attach_item baseId scripts (w, offset) item).2 = S offset
                  /\ nextId (attach_item baseId scripts (w, offset) item).1
                     = nextId w
                  /\ wrappers (attach_item baseId scripts (w, offset) item).1
                     = wrappers w).
  { unfold attach_item. destruct item as [name address].
    destruct (parseHandler_fields (displayName_of name)
                (script_at scripts offset) w) as (_ & Hn & _ & Hwr).
    destruct (parseHandler _ _ w) as [handler w1]. cbn [fst snd] in *.
    destruct (attach_error address); cbn; easy. }
  destruct (attach_item baseId scripts (w, offset) item) as [w1 off1].
  cbn [fst snd] in Hstep. destruct Hstep as (-> & Hn & Hwr).
  destruct (IH w1 (S offset)) as [-> ->]. easy.
Qed.

(** The members of the request of [traceNativeEntries] are the names of
    its items, in order. *)
Lemma native_request_members (groups : NativeTargetScopes) :
  flat_members
    (map (fun g : ScopeName * list NativeItem =>
            {| scope_name := g.1; scope_members := g.2.*1 |})
       (JsMap.entries groups))
  = (concat groups.*2).*1.
Proof.
  unfold flat_members, JsMap.entries.
  induction groups as [|g groups IH]; [reflexivity|].
  cbn [map fmap list_fmap concat scope_members] in *.
  now rewrite fmap_app, IH.
Qed.

(** What [getHandlers] returns against a host that answers in order. *)
Lemma getHandlers_in_order host answer request :
  answers_in_order host answer ->
  exists reqs,
    getHandlers host request
    = (reqs,
       Returned
         {| scripts :=
              imap (fun k m => answer (baseId request + Z.of_nat k)%Z m)
                (flat_members (scopes request)) |}).
Proof.
  intros Hhost. unfold getHandlers.
  destruct (getHandlers_loop_pages host (flavor request)
              (answers_in_order_responsive _ _ Hhost)
              (S (length (flat_members (scopes request)))) (scopes request)
              (baseId request) [] [])
    as (reqs & Hrun & Hpages); [lia|].
  exists reqs. rewrite Hrun. cbn [app].
  now rewrite (pages_scripts _ _ _ _ _ _ Hhost Hpages), flat_members_tagged.
Qed.

(** What [traceNativeEntries] leaves behind when the host answers every
    request with one script per member, in order.  The i-th target gets the
    id [nextId + i], and the handler stored under that id is the one parsed
    from the script that the host wrote for that target under that id; no
    other entry of the table changes; the listeners gained are those of the
    targets whose attachment did not throw, each reporting under the id of
    its target; and the id counter has moved past the ids given out. *)
Lemma traceNativeEntries_detail (host : Host)
  (answer : Z -> MemberName -> HandlerScript) (fl : TargetType)
  (groups : NativeTargetScopes) w :
  answers_in_order host answer ->
  (forall i item,
     concat groups.*2 !! i = Some item ->
     handlers (traceNativeEntries host fl groups w).1
     !! (nextId w + Z.of_nat i)%Z
     = Some (handler_of_script (answer (nextId w + Z.of_nat i)%Z item.1)))
  /\ (forall k,
        ~ (nextId w <= k < nextId w + Z.of_nat (length (concat groups.*2)))%Z ->
        handlers (traceNativeEntries host fl groups w).1 !! k
        = handlers w !! k)
  /\ listeners (traceNativeEntries host fl groups w).1
     = listeners w ++ attached_listeners (nextId w) 0 (concat groups.*2)
  /\ nextId (traceNativeEntries host fl groups w).1
     = (nextId w + Z.of_nat (length (concat groups.*2)))%Z
  /\ wrappers (traceNativeEntries host fl groups w).1 = wrappers w.
Proof.
  intros Hhost. unfold traceNativeEntries.
  destruct groups as [|g groups].
  { cbn. rewrite app_nil_r, Z.add_0_r. repeat split. intros i item Hi.
    destruct i; discriminate. }
  set (items := concat (g :: groups).*2).
  match goal with
  | |- context [getHandlers host ?req] =>
      destruct (getHandlers_in_order host answer req Hhost) as (reqs & ->)
  end.
  cbn [baseId scopes scripts]. rewrite native_request_members. fold items.
  set (w1 := advance_nextId (length items) w).
  destruct (send_all_fields reqs w1) as (Hh & Hn & Hl & Hwr).
  set (w2 := fold_left (fun w r => send (HandlersGet r) w) reqs w1) in *.
  set (scr := imap (fun k m => answer (nextId w + Z.of_nat k)%Z m) items.*1).
  destruct (attach_items_detail (nextId w) scr items w2 0) as (H1 & H2 & H3).
  cbn [fst snd]. split; [|split; [|split; [|split]]].
  - intros i item Hi.
    assert (Hlt : i < length items) by (apply lookup_lt_is_Some; eauto).
    specialize (H1 i Hlt). cbn [Nat.add] in H1. rewrite H1. do 2 f_equal.
    unfold script_at, scr.
    rewrite list_lookup_imap, list_lookup_fmap.
    change (concat (g :: groups).*2) with items in Hi.
    unfold NativeItem in *. now rewrite Hi.
  - intros k Hk. rewrite H2 by (cbn [Nat.add]; lia). now rewrite Hh.
  - now rewrite H3, Hl.
  - destruct (attach_items_detail_fields (nextId w) scr items w2 0)
      as (Hnext & _).
    now rewrite Hnext, Hn.
  - destruct (attach_items_detail_fields (nextId w) scr items w2 0)
      as (_ & Hwrap).
    now rewrite Hwrap, Hwr.
Qed.

Lemma attached_listeners_elem baseId offset (items : list NativeItem)
  address k :
  (address, k) ∈ attached_listeners baseId offset items
  <-> exists i name,
        items !! i = Some (name, address)
        /\ k = (baseId + Z.of_nat (offset + i))%Z
        /\ attach_error address = None.
Proof.
  unfold attached_listeners. rewrite list_elem_of_omap. split.
  - intros (x & Hx & Hsome). subst x. apply elem_of_lookup_imap in Hx.
    destruct Hx as (i & [name a] & Heq & Hi). cbn [snd] in Heq.
    destruct (attach_error a) eqn:Ha; [discriminate|].
    injection Heq as -> ->. now exists i, name.
  - intros (i & name & Hi & -> & Ha).
    exists (Some (address, (baseId + Z.of_nat (offset + i))%Z)).
    split; [|reflexivity]. apply elem_of_lookup_imap.
    exists i, (name, address). cbn [snd]. now rewrite Ha.
Qed.

Lemma provisioned_entries host answer fl (groups : NativeTargetScopes) w :
  answers_in_order host answer ->
  provisioned answer (concat groups.*2) w
    (traceNativeEntries host fl groups w).1.
Proof.
  intros Hhost.
  destruct (traceNativeEntries_detail host answer fl groups w Hhost)
    as (H1 & H2 & H3 & H4 & H5).
  set (items := concat groups.*2) in *.
  split; [exact H4|]. split; [exact H5|]. split; [exact H2|].
  split; [|split].
  - intros x Hx. rewrite H3. apply elem_of_app. now left.
  - intros item Hitem. apply list_elem_of_lookup in Hitem as [i Hi].
    assert (Hlt : i < length items) by (apply lookup_lt_is_Some; eauto).
    exists (nextId w + Z.of_nat i)%Z. split; [unfold id_range; lia|].
    split; [now apply H1|].
    intros Ha. rewrite H3. apply elem_of_app. right.
    apply attached_listeners_elem. exists i, item.1.
    now destruct item.
  - intros address k Hk. rewrite H3 in Hk. apply elem_of_app in Hk.
    destruct Hk as [Hk|Hk]; [now left|right].
    apply attached_listeners_elem in Hk as (i & name & Hi & -> & Ha).
    assert (Hlt : i < length items) by (apply lookup_lt_is_Some; eauto).
    cbn [Nat.add]. split; [unfold id_range; lia|]. split; [exact Ha|].
    exists name. split; [apply list_elem_of_lookup; eauto|].
    exact (H1 i (name, address) Hi).
Qed.

Lemma provisioned_trans answer (l1 l2 : list NativeItem) w w1 w2 :
  provisioned answer l1 w w1 -> provisioned answer l2 w1 w2 ->
  provisioned answer (l1 ++ l2) w w2.
Proof.
  intros (N1 & W1 & O1 & L1 & T1 & B1) (N2 & W2 & O2 & L2 & T2 & B2).
  unfold provisioned, id_range in *. rewrite length_app.
  split; [lia|]. split; [congruence|]. split; [|split; [|split]].
  - intros k Hk. rewrite O2, O1 by lia. reflexivity.
  - auto.
  - intros item Hitem. apply elem_of_app in Hitem as [Hitem|Hitem].
    + destruct (T1 item Hitem) as (k & Hk & Hh & Hl).
      exists k. split; [lia|]. split; [|auto]. rewrite O2 by lia. exact Hh.
    + destruct (T2 item Hitem) as (k & Hk & Hh & Hl).
      exists k. split; [lia|]. split; assumption.
  - intros address k Hk. destruct (B2 address k Hk) as [Hk1|(Hr & Ha & Hn)].
    + destruct (B1 address k Hk1) as [Hk0|(Hr & Ha & name & Hn & Hh)];
        [now left|right].
      split; [lia|]. split; [exact Ha|]. exists name.
      split; [apply elem_of_app; now left|]. rewrite O2 by lia. exact Hh.
    + right. split; [lia|]. split; [exact Ha|].
      destruct Hn as (name & Hn & Hh). exists name.
      split; [apply elem_of_app; now right|exact Hh].
Qed.

Lemma provisioned_ext answer (l l' : list NativeItem) w w' :
  (forall x, x ∈ l <-> x ∈ l') -> length l = length l' ->
  provisioned answer l w w' -> provisioned answer l' w w'.
Proof.
  intros Hel Hlen (N & W & O & L & T & B). unfold provisioned.
  rewrite <- Hlen. split; [exact N|]. split; [exact W|]. split; [exact O|].
  split; [exact L|]. split.
  - intros item Hitem. apply T, Hel, Hitem.
  - intros address k Hk. destruct (B address k Hk) as [|(Hr & Ha & name & Hn & Hh)];
      [now left|right].
    split; [exact Hr|]. split; [exact Ha|]. exists name.
    split; [apply Hel, Hn|exact Hh].
Qed.

Lemma add_to_group_elem (entries : NativeTargetScopes) scope item x :
  x ∈ concat (add_to_group entries scope item).*2
  <-> x = item \/ x ∈ concat entries.*2.
Proof.
  unfold add_to_group. induction entries as [|[k v] entries IH].
  - cbn. rewrite list_elem_of_singleton, elem_of_nil. tauto.
  - cbn [JsMap.get JsMap.set]. destruct (decide (k = scope)) as [->|Hne].
    + cbn [fmap list_fmap snd concat].
      rewrite !elem_of_app, list_elem_of_singleton. tauto.
    + destruct (JsMap.get scope entries); cbn [fmap list_fmap snd concat] in *;
        rewrite !elem_of_app, IH; tauto.
Qed.

Lemma group_targets_elem (targets : NativeTargets) x :
  x ∈ concat (group_targets targets).1.1.*2
      ++ concat (group_targets targets).1.2.*2
      ++ concat (group_targets targets).2.*2
  <-> x ∈ target_items targets.
Proof.
  unfold group_targets, JsMap.entries, target_items.
  assert (Hgen : forall (l : NativeTargets) c o s,
             let r :=
               fold_left
                 (fun (groups : NativeTargetScopes * NativeTargetScopes
                                * NativeTargetScopes)
                      (entry : NativeId * NativeTarget) =>
                    let '(cGroups, objcGroups, swiftGroups) := groups in
                    let '(id, (type, scope, name)) := entry in
                    match type with
                    | NativeC => (add_to_group cGroups scope (name, id),
                                  objcGroups, swiftGroups)
                    | NativeObjC =>
                        (cGroups, add_to_group objcGroups scope (name, id),
                         swiftGroups)
                    | NativeSwift =>
                        (cGroups, objcGroups,
                         add_to_group swiftGroups scope (name, id))
                    end) l (c, o, s) in
             x ∈ concat r.1.1.*2 ++ concat r.1.2.*2 ++ concat r.2.*2
             <-> (x ∈ concat c.*2 ++ concat o.*2 ++ concat s.*2
                  \/ x ∈ map (fun entry : NativeId * NativeTarget =>
                                (entry.2.2, entry.1)) l)).
  { induction l as [|[id [[type scope] name]] l IH]; intros c o s;
      cbn [fold_left map].
    - cbn. rewrite elem_of_nil. tauto.
    - destruct type; cbn zeta in IH |- *; rewrite IH;
        rewrite !elem_of_app, elem_of_cons, add_to_group_elem; cbn; tauto. }
  rewrite (Hgen targets [] [] []). cbn. rewrite elem_of_nil. tauto.
Qed.

Lemma length_target_items (targets : NativeTargets) :
  length (target_items targets) = length targets.
Proof. apply length_map. Qed.

Lemma traceNativeTargets_provisioned host answer (targets : NativeTargets) w :
  answers_in_order host answer ->
  provisioned answer (target_items targets) w
    (traceNativeTargets host targets w).1.
Proof.
  intros Hhost. unfold traceNativeTargets.
  pose proof (group_targets_elem targets) as Hel.
  pose proof (group_targets_total targets) as Htotal.
  destruct (group_targets targets) as [[c o] s]. cbn [fst snd] in Hel, Htotal.
  pose proof (provisioned_entries host answer TypeC c w Hhost) as P1.
  destruct (traceNativeEntries host TypeC c w) as [w1 c1].
  pose proof (provisioned_entries host answer TypeObjC o w1 Hhost) as P2.
  destruct (traceNativeEntries host TypeObjC o w1) as [w2 c2].
  pose proof (provisioned_entries host answer TypeSwift s w2 Hhost) as P3.
  destruct (traceNativeEntries host TypeSwift s w2) as [w3 c3].
  cbn [fst snd] in *.
  apply (provisioned_ext answer
           (concat c.*2 ++ concat o.*2 ++ concat s.*2)); [exact Hel| |].
  - rewrite !length_app, length_target_items. lia.
  - eapply provisioned_trans; [exact P1|].
    eapply provisioned_trans; [exact P2|exact P3].
Qed.

(** X7: when the host answers every request with one script per member, in
    order, [traceNativeTargets] takes one id per target of the plan from the
    id counter; every target has, under one of these ids, the handler parsed
    from the script that the host wrote for its name under that id, and,
    when its attachment did not throw, a listener at its address that
    reports under that id; and no other entry of the handler table has
    changed. *)
Theorem every_target_gets_its_handler (host : Host)
  (answer : Z -> MemberName -> HandlerScript) (targets : NativeTargets) w :
  answers_in_order host answer ->
  nextId (traceNativeTargets host targets w).1
  = (nextId w + Z.of_nat (length targets))%Z
  /\ (forall k,
        ~ (nextId w <= k < nextId w + Z.of_nat (length targets))%Z ->
        handlers (traceNativeTargets host targets w).1 !! k = handlers w !! k)
  /\ (forall address type scope name,
        (address, (type, scope, name)) ∈ targets ->
        exists k,
          (nextId w <= k < nextId w + Z.of_nat (length targets))%Z
          /\ handlers (traceNativeTargets host targets w).1 !! k
             = Some (handler_of_script (answer k name))
          /\ (attach_error address = None ->
              (address, k) ∈ listeners (traceNativeTargets host targets w).1)).
Proof.
  intros Hhost.
  destruct (traceNativeTargets_provisioned host answer targets w Hhost)
    as (N & _ & O & _ & T & _).
  rewrite length_target_items in *. split; [exact N|]. split; [exact O|].
  intros address type scope name Hin.
  apply (T (name, address)). unfold target_items.
  apply list_elem_of_fmap. now exists (address, (type, scope, name)).
Qed.

(** X8: under the same assumption, [traceNativeTargets] removes no
    listener, and every listener it adds is at the address of a target of
    the plan whose attachment did not throw and reports under one of the ids
    just given out, where the table holds the handler parsed from the script
    that the host wrote for the name of that target. *)
Theorem every_listener_has_its_target (host : Host)
  (answer : Z -> MemberName -> HandlerScript) (targets : NativeTargets) w
  (address : NativeId) (k : TraceTargetId) :
  answers_in_order host answer ->
  ((address, k) ∈ listeners w ->
   (address, k) ∈ listeners (traceNativeTargets host targets w).1)
  /\ ((address, k) ∈ listeners (traceNativeTargets host targets w).1 ->
      (address, k) ∈ listeners w
      \/ ((nextId w <= k < nextId w + Z.of_nat (length targets))%Z
          /\ attach_error address = None
          /\ exists type scope name,
               (address, (type, scope, name)) ∈ targets
               /\ handlers (traceNativeTargets host targets w).1 !! k
                  = Some (handler_of_script (answer k name)))).
Proof.
  intros Hhost.
  destruct (traceNativeTargets_provisioned host answer targets w Hhost)
    as (_ & _ & _ & L & _ & B).
  rewrite length_target_items in *. split; [apply L|].
  intros Hk. destruct (B address k Hk) as [|(Hr & Ha & name & Hn & Hh)];
    [now left|right].
  split; [exact Hr|]. split; [exact Ha|].
  unfold target_items in Hn. apply list_elem_of_fmap in Hn.
  destruct Hn as ([a [[type scope] n]] & Heq & Hin). cbn in Heq.
  injection Heq as -> ->. now exists type, scope, n.
Qed.

(** *** When [agent:started] is sent *)

Lemma requests_sent_app (ms1 ms2 : list Message) :
  requests_sent (ms1 ++ ms2) = requests_sent ms1 ++ requests_sent ms2.
Proof. apply omap_app. Qed.

Lemma requests_sent_warnings (ms : list Message) :
  Forall (fun m => is_warning m = true) ms ->
  requests_sent ms = [] /\ Forall (fun m => is_final m = false) ms.
Proof.
  induction 1 as [|m ms Hm _ [IH1 IH2]]; [easy|].
  destruct m; try discriminate. split; [exact IH1|]. now constructor.
Qed.

Lemma requests_sent_requests (reqs : list HandlerRequest) :
  requests_sent (map HandlersGet reqs) = reqs
  /\ Forall (fun m => is_final m = false) (map HandlersGet reqs).
Proof.
  induction reqs as [|r reqs [IH1 IH2]]; [easy|].
  split; [|now constructor].
  change (r :: requests_sent (map HandlersGet reqs) = r :: reqs).
  now rewrite IH1.
Qed.

Lemma send_all_sent (reqs : list HandlerRequest) w :
  sent (fold_left (fun w r => send (HandlersGet r) w) reqs w)
  = sent w ++ map HandlersGet reqs.
Proof.
  revert w. induction reqs as [|r reqs IH]; intros w; cbn [fold_left map].
  - now rewrite app_nil_r.
  - rewrite IH. cbn [sent send]. now rewrite <- app_assoc.
Qed.

Lemma parseHandler_sent name script w :
  exists ms,
    sent (parseHandler name script w).2 = sent w ++ ms
    /\ Forall (fun m => is_warning m = true) ms.
Proof.
  unfold parseHandler. destruct (eval_handler _).
  - exists []. now rewrite app_nil_r.
  - eexists [_]. split; [reflexivity|]. now constructor.
Qed.

Lemma attach_items_sent baseId scripts (items : list NativeItem) :
  forall w offset,
    exists ms,
      sent (fold_left (attach_item baseId scripts) items (w, offset)).1
      = sent w ++ ms
      /\ Forall (fun m => is_warning m = true) ms.
Proof.
  induction items as [|item items IH]; intros w offset; cbn [fold_left].
  - exists []. now rewrite app_nil_r.
  - assert (Hstep : exists ms,
               sent (attach_item baseId scripts (w, offset) item).1
               = sent w ++ ms
               /\ Forall (fun m => is_warning m = true) ms).
    { unfold attach_item. destruct item as [name address].
      destruct (parseHandler_sent (displayName_of name)
                  (script_at scripts offset) w) as (ms & Hms & Hall).
      destruct (parseHandler _ _ w) as [handler w1]. cbn [snd] in Hms.
      destruct (attach_error address); cbn [fst sent send set_handler
                                              add_listener]; rewrite Hms.
      - eexists (ms ++ [_]). rewrite <- app_assoc. split; [reflexivity|].
        apply Forall_app. split; [assumption|]. now constructor.
      - now exists ms. }
    destruct (attach_item baseId scripts (w, offset) item) as [w1 off1].
    cbn [fst] in Hstep. destruct Hstep as (ms1 & Hms1 & Hall1).
    destruct (IH w1 off1) as (ms2 & Hms2 & Hall2).
    exists (ms1 ++ ms2). rewrite Hms2, Hms1, <- app_assoc.
    split; [reflexivity|]. apply Forall_app. now split.
Qed.

Lemma wrap_methods_sent baseId scripts
  (ms : list (JavaClassName * JavaMethodName * string)) :
  forall w offset,
    exists sent',
      sent (fold_left (wrap_method baseId scripts) ms (w, offset)).1
      = sent w ++ sent'
      /\ Forall (fun m => is_warning m = true) sent'.
Proof.
  induction ms as [|m ms IH]; intros w offset; cbn [fold_left].
  - exists []. now rewrite app_nil_r.
  - destruct m as [[className bareName] fullName]. cbn [wrap_method].
    destruct (parseHandler_sent fullName (script_at scripts offset) w)
      as (ms1 & Hms1 & Hall1).
    destruct (parseHandler fullName (script_at scripts offset) w)
      as [handler w1]. cbn [snd] in Hms1.
    match goal with
    | |- context [fold_left _ ms (?x, S offset)] =>
        destruct (IH x (S offset)) as (ms2 & Hms2 & Hall2)
    end.
    exists (ms1 ++ ms2). rewrite Hms2. cbn [sent add_wrapper set_handler].
    rewrite Hms1, <- app_assoc. split; [reflexivity|].
    apply Forall_app. now split.
Qed.

(** How a call of [getHandlers] ends, and what it has sent by then. *)
Lemma getHandlers_ends host request :
  (exists response,
     (getHandlers host request).2 = Returned response
     /\ Forall (fun r => is_Some (host r)) (getHandlers host request).1)
  \/ ((getHandlers host request).2 = Stalled
      /\ ~ Forall (fun r => is_Some (host r)) (getHandlers host request).1).
Proof.
  unfold getHandlers.
  destruct (getHandlers_loop_any host (flavor request)
              (S (length (flat_members (scopes request)))) (scopes request)
              (baseId request) [] [])
    as (front & r & rest & out & -> & Hfront & _ & Hout); [lia|].
  cbn [fst snd app].
  destruct Hout as [[Hr ->]|(Hr & _ & ->)].
  - right. split; [reflexivity|]. intros Hall.
    apply Forall_app in Hall as [_ Hall]. inversion Hall as [|? ? Hsome _].
    rewrite Hr in Hsome. now destruct Hsome.
  - left. eexists. split; [reflexivity|]. apply Forall_app.
    split; [assumption|]. now constructor.
Qed.

Lemma phase_refl host w : phase host w w Done.
Proof.
  exists []. rewrite app_nil_r. split; [reflexivity|].
  split; [constructor|]. split; [constructor|reflexivity].
Qed.

Lemma phase_initialized host w : phase host w (send AgentInitialized w) Done.
Proof.
  exists [AgentInitialized]. split; [reflexivity|].
  split; [now constructor|]. cbn. split; [constructor|reflexivity].
Qed.

Lemma both_Done c1 c2 : both c1 c2 = Done <-> c1 = Done /\ c2 = Done.
Proof. destruct c1, c2; cbn; split; try easy; intros []; discriminate. Qed.

Lemma phase_trans host w w1 w2 c1 c2 :
  phase host w w1 c1 -> phase host w1 w2 c2 -> phase host w w2 (both c1 c2).
Proof.
  intros (ms1 & S1 & N1 & D1) (ms2 & S2 & N2 & D2).
  exists (ms1 ++ ms2). rewrite S2, S1, <- app_assoc. split; [reflexivity|].
  split; [apply Forall_app; now split|].
  rewrite requests_sent_app, Forall_app, both_Done. tauto.
Qed.

Lemma traceNativeEntries_phase host fl (groups : NativeTargetScopes) w :
  phase host w (traceNativeEntries host fl groups w).1
    (traceNativeEntries host fl groups w).2.
Proof.
  unfold traceNativeEntries. destruct groups as [|g groups];
    [apply phase_refl|].
  set (items := concat (g :: groups).*2).
  match goal with
  | |- context [getHandlers host ?req] =>
      pose proof (getHandlers_ends host req) as Hend;
      destruct (getHandlers host req) as [reqs outcome]
  end.
  cbn [fst snd] in Hend.
  set (w1 := advance_nextId (length items) w).
  pose proof (send_all_sent reqs w1) as Hsent.
  set (w2 := fold_left (fun w r => send (HandlersGet r) w) reqs w1) in *.
  change (sent w1) with (sent w) in Hsent.
  destruct (requests_sent_requests reqs) as [Hreqs Hnone].
  destruct Hend as [(response & -> & Hall)|[-> Hall]]; cbn [fst snd].
  - destruct (attach_items_sent (nextId w) (scripts response) items w2 0)
      as (ms & Hms & Hwarn).
    destruct (requests_sent_warnings ms Hwarn) as [Hnil Hnone'].
    exists (map HandlersGet reqs ++ ms).
    rewrite Hms, Hsent, <- app_assoc. split; [reflexivity|].
    split; [apply Forall_app; now split|].
    rewrite requests_sent_app, Hreqs, Hnil, app_nil_r. tauto.
  - exists (map HandlersGet reqs). rewrite Hsent. split; [reflexivity|].
    split; [assumption|]. rewrite Hreqs. split; [discriminate|tauto].
Qed.

Lemma traceNativeTargets_phase host (targets : NativeTargets) w :
  phase host w (traceNativeTargets host targets w).1
    (traceNativeTargets host targets w).2.
Proof.
  unfold traceNativeTargets. destruct (group_targets targets) as [[c o] s].
  pose proof (traceNativeEntries_phase host TypeC c w) as P1.
  destruct (traceNativeEntries host TypeC c w) as [w1 c1].
  pose proof (traceNativeEntries_phase host TypeObjC o w1) as P2.
  destruct (traceNativeEntries host TypeObjC o w1) as [w2 c2].
  pose proof (traceNativeEntries_phase host TypeSwift s w2) as P3.
  destruct (traceNativeEntries host TypeSwift s w2) as [w3 c3].
  cbn [fst snd] in *.
  eapply phase_trans; [exact P1|]. eapply phase_trans; [exact P2|exact P3].
Qed.

Lemma traceJavaTargets_phase host (groups : list JavaTargetGroup) w :
  phase host w (traceJavaTargets host groups w).1
    (traceJavaTargets host groups w).2.
Proof.
  unfold traceJavaTargets.
  match goal with
  | |- context [getHandlers host ?req] =>
      pose proof (getHandlers_ends host req) as Hend;
      destruct (getHandlers host req) as [reqs outcome]
  end.
  cbn [fst snd] in Hend.
  match goal with
  | |- context [advance_nextId ?n w] => set (w1 := advance_nextId n w)
  end.
  pose proof (send_all_sent reqs w1) as Hsent.
  set (w2 := fold_left (fun w r => send (HandlersGet r) w) reqs w1) in *.
  change (sent w1) with (sent w) in Hsent.
  destruct (requests_sent_requests reqs) as [Hreqs Hnone].
  destruct Hend as [(response & -> & Hall)|[-> Hall]]; cbn [fst snd].
  - destruct (wrap_methods_sent (nextId w) (scripts response)
                (java_methods groups) w2 0) as (ms & Hms & Hwarn).
    destruct (requests_sent_warnings ms Hwarn) as [Hnil Hnone'].
    exists (map HandlersGet reqs ++ ms).
    rewrite Hms, Hsent, <- app_assoc. split; [reflexivity|].
    split; [apply Forall_app; now split|].
    rewrite requests_sent_app, Hreqs, Hnil, app_nil_r. tauto.
  - exists (map HandlersGet reqs). rewrite Hsent. split; [reflexivity|].
    split; [assumption|]. rewrite Hreqs. split; [discriminate|tauto].
Qed.

(** The end of [start]: after steps that are done exactly when every
    request was answered, [agent:started] is sent, last, exactly then. *)
Lemma phase_started host w w' c :
  sent w = [] ->
  phase host w w' c ->
  let final :=
    match c with
    | Done => send (AgentStarted (size (handlers w'))) w'
    | Pending => w'
    end in
  ((exists n, AgentStarted n ∈ sent final)
   <-> Forall (fun r => is_Some (host r)) (requests_sent (sent final)))
  /\ (forall n, AgentStarted n ∈ sent final ->
                last (sent final) = Some (AgentStarted n)).
Proof.
  intros Hw (ms & Hms & Hnone & Hdone). rewrite Hw in Hms. cbn [app] in Hms.
  assert (Hno : forall n, AgentStarted n ∉ ms).
  { intros n Hin. rewrite Forall_forall in Hnone.
    specialize (Hnone _ Hin). discriminate. }
  destruct c; cbn zeta; cbn [sent send]; rewrite Hms.
  - split.
    + rewrite requests_sent_app. cbn. rewrite app_nil_r.
      split; [intros _; now apply Hdone|].
      intros _. eexists. apply elem_of_app. right. now left.
    + intros n Hin. rewrite last_snoc. apply elem_of_app in Hin as [Hin|Hin].
      * now apply Hno in Hin.
      * apply list_elem_of_singleton in Hin. now rewrite Hin.
  - split.
    + split; [intros [n Hin]; now apply Hno in Hin|].
      intros Hall. apply Hdone in Hall. discriminate.
    + intros n Hin. now apply Hno in Hin.
Qed.

Section StartOrder.
Context `{!JavaRuntime}.

(** [start] is a step followed by [agent:started] when the step is done. *)
Lemma start_phase (host : Host)
  (javaEntries : list (TraceSpecOperation * string)) (plan : TracePlan) w :
  (javaEntries <> [] -> java_available = true) ->
  exists w1 c,
    phase host w w1 c
    /\ start host javaEntries plan w
       = match c with
         | Done => send (AgentStarted (size (handlers w1))) w1
         | Pending => w1
         end.
Proof.
  intros Hjava. unfold start.
  destruct javaEntries as [|e es].
  - pose proof (traceNativeTargets_phase host (native plan) w) as Pn.
    destruct (traceNativeTargets host (native plan) w) as [w1 c].
    cbn [fst snd] in Pn.
    pose proof (phase_trans _ _ _ _ _ _ Pn (phase_initialized host w1)) as P.
    destruct c; eauto.
  - rewrite Hjava by discriminate. cbn [negb]. unfold java_start.
    set (groups := java (apply_java_entries (e :: es) plan)).
    destruct java_perform_now.
    + pose proof (traceJavaTargets_phase host groups w) as Pj.
      destruct (traceJavaTargets host groups w) as [w1 cj].
      pose proof (traceNativeTargets_phase host (native plan) w1) as Pn.
      destruct (traceNativeTargets host (native plan) w1) as [w2 cn].
      cbn [fst snd] in Pj, Pn.
      pose proof (phase_trans _ _ _ _ _ _ Pj Pn) as P.
      pose proof (phase_trans _ _ _ _ _ _ P (phase_initialized host w2)) as P'.
      destruct cj, cn; eauto.
    + pose proof (traceNativeTargets_phase host (native plan) w) as Pn.
      destruct (traceNativeTargets host (native plan) w) as [w1 cn].
      cbn [fst snd] in Pn.
      destruct cn.
      * pose proof (phase_trans _ _ _ _ _ _ Pn (phase_initialized host w1))
          as P.
        pose proof (traceJavaTargets_phase host groups
                      (send AgentInitialized w1)) as Pj.
        destruct (traceJavaTargets host groups (send AgentInitialized w1))
          as [w2 cj].
        cbn [fst snd] in Pj.
        pose proof (phase_trans _ _ _ _ _ _ P Pj) as P'.
        destruct cj; eauto.
      * pose proof (traceJavaTargets_phase host groups w1) as Pj.
        destruct (traceJavaTargets host groups w1) as [w2 cj].
        cbn [fst snd] in Pj.
        pose proof (phase_trans _ _ _ _ _ _ Pn Pj) as P'.
        destruct cj; eauto.
Qed.

(** X9: in a session that has sent nothing yet and in which the Java
    runtime is there when a Java rule was given, [start] sends
    [agent:started] exactly when the host has answered every [handlers:get]
    request that [start] has sent; and [agent:started] is then the last
    message sent. *)
Theorem started_iff_every_request_answered (host : Host)
  (javaEntries : list (TraceSpecOperation * string)) (plan : TracePlan) w :
  sent w = [] ->
  (javaEntries <> [] -> java_available = true) ->
  ((exists n, AgentStarted n ∈ sent (start host javaEntries plan w))
   <-> Forall (fun r => is_Some (host r))
         (requests_sent (sent (start host javaEntries plan w))))
  /\ (forall n,
        AgentStarted n ∈ sent (start host javaEntries plan w) ->
        last (sent (start host javaEntries plan w)) = Some (AgentStarted n)).
Proof.
  intros Hw Hjava.
  destruct (start_phase host javaEntries plan w Hjava) as (w1 & c & P & ->).
  exact (phase_started host w w1 c Hw P).
Qed.

End StartOrder.

(** *** The ids in use *)

Lemma attached_listeners_ids baseId (items : list NativeItem) :
  forall offset,
    NoDup (attached_listeners baseId offset items).*2
    /\ forall k,
         k ∈ (attached_listeners baseId offset items).*2 ->
         (baseId + Z.of_nat offset <= k
          < baseId + Z.of_nat (offset + length items))%Z.
Proof.
  induction items as [|item items IH]; intros offset.
  - split; [constructor|]. intros k Hk. now apply elem_of_nil in Hk.
  - rewrite attached_listeners_cons, fmap_app. destruct (IH (S offset))
      as [Hnd Hin].
    cbn [length]. split.
    + apply NoDup_app. split; [|split; [|exact Hnd]].
      * destruct (attach_error item.2); cbn; [constructor|].
        apply NoDup_singleton.
      * intros k Hk Hk'. apply Hin in Hk'.
        destruct (attach_error item.2); cbn in Hk;
          [now apply elem_of_nil in Hk|].
        apply list_elem_of_singleton in Hk. lia.
    + intros k Hk. apply elem_of_app in Hk as [Hk|Hk].
      * destruct (attach_error item.2); cbn in Hk;
          [now apply elem_of_nil in Hk|].
        apply list_elem_of_singleton in Hk. lia.
      * apply Hin in Hk. lia.
Qed.

(** What the loop of [traceJavaTargets] does to the table and to the
    wrappers. *)
Lemma wrap_methods_detail baseId scripts
  (ms : list (JavaClassName * JavaMethodName * string)) :
  forall w offset,
    (forall i, i < length ms ->
       is_Some (handlers (fold_left (wrap_method baseId scripts) ms
                            (w, offset)).1
                !! (baseId + Z.of_nat (offset + i))%Z))
    /\ (forall k,
          ~ (baseId + Z.of_nat offset <= k
             < baseId + Z.of_nat (offset + length ms))%Z ->
          handlers (fold_left (wrap_method baseId scripts) ms (w, offset)).1
          !! k = handlers w !! k)
    /\ listeners (fold_left (wrap_method baseId scripts) ms (w, offset)).1
       = listeners w
    /\ nextId (fold_left (wrap_method baseId scripts) ms (w, offset)).1
       = nextId w
    /\ (wrappers (fold_left (wrap_method baseId scripts) ms (w, offset)).1).*2
       = (wrappers w).*2
         ++ map (fun i => (baseId + Z.of_nat (offset + i))%Z)
              (seq 0 (length ms)).
Proof.
  induction ms as [|m ms IH]; intros w offset; cbn [fold_left].
  - cbn. rewrite app_nil_r. repeat split. intros i Hi. lia.
  - destruct m as [[className bareName] fullName]. cbn [wrap_method].
    destruct (parseHandler_fields fullName (script_at scripts offset) w)
      as (Hh & Hn & Hl & Hwr).
    destruct (parseHandler fullName (script_at scripts offset) w)
      as [handler w1]. cbn [snd] in Hh, Hn, Hl, Hwr.
    match goal with
    | |- context [fold_left _ ms (?x, S offset)] =>
        destruct (IH x (S offset)) as (H1 & H2 & H3 & H4 & H5)
    end.
    cbn [handlers listeners nextId wrappers add_wrapper set_handler] in *.
    split; [|split; [|split; [|split]]].
    + intros [|i] Hi.
      * rewrite Nat.add_0_r, H2, Hh by lia. rewrite lookup_insert_eq. eauto.
      * cbn [length] in Hi. specialize (H1 i ltac:(lia)).
        now replace (offset + S i) with (S offset + i) by lia.
    + intros k Hk. cbn [length] in Hk. rewrite H2, Hh by lia.
      apply lookup_insert_ne. lia.
    + now rewrite H3, Hl.
    + now rewrite H4, Hn.
    + rewrite H5, Hwr, fmap_app, <- app_assoc. cbn [length seq map].
      rewrite Nat.add_0_r. apply (f_equal (app _)). cbn.
      apply (f_equal (cons _)). rewrite <- seq_shift, map_map.
      apply map_ext. intros i. f_equal. lia.
Qed.

Lemma seq_ids baseId n :
  NoDup (map (fun i => (baseId + Z.of_nat (0 + i))%Z) (seq 0 n))
  /\ forall k,
       k ∈ map (fun i => (baseId + Z.of_nat (0 + i))%Z) (seq 0 n) ->
       exists i, i < n /\ k = (baseId + Z.of_nat i)%Z.
Proof.
  split.
  - apply NoDup_fmap_2; [|apply NoDup_seq]. intros i j Hij. cbn in Hij. lia.
  - intros k Hk. apply list_elem_of_fmap in Hk as (i & -> & Hi).
    apply elem_of_seq in Hi. exists i. split; [lia|reflexivity].
Qed.

Lemma grows_refl w : grows 0 Done w w.
Proof.
  unfold grows, id_range. split; [lia|]. split; [reflexivity|].
  split; [now left|]. split; [intros _ k Hk; lia|].
  exists []. rewrite app_nil_r. split; [reflexivity|].
  split; [constructor|]. intros k Hk. now apply elem_of_nil in Hk.
Qed.

Lemma grows_send m c w : grows 0 c w (send m w).
Proof.
  unfold grows, id_range. split; [cbn; lia|]. split; [reflexivity|].
  split; [now left|]. split; [intros _ k Hk; lia|].
  exists []. rewrite app_nil_r. split; [reflexivity|].
  split; [constructor|]. intros k Hk. now apply elem_of_nil in Hk.
Qed.

Lemma grows_trans n1 n2 c1 c2 w w1 w2 :
  grows n1 c1 w w1 -> grows n2 c2 w1 w2 ->
  grows (n1 + n2) (both c1 c2) w w2.
Proof.
  unfold grows, id_range.
  intros (N1 & O1 & S1 & D1 & P1 & HP1 & ND1 & R1)
         (N2 & O2 & S2 & D2 & P2 & HP2 & ND2 & R2).
  split; [lia|]. split; [|split; [|split]].
  - intros k Hk. rewrite O2, O1 by lia. reflexivity.
  - intros k Hk. destruct (S2 k Hk) as [Hk1|Hk1]; [|right; lia].
    destruct (S1 k Hk1); [now left|right; lia].
  - intros Hdone k Hk. apply both_Done in Hdone as [-> ->].
    destruct (decide (k < nextId w1)%Z) as [Hlt|Hge].
    + rewrite O2 by lia. apply D1; [reflexivity|lia].
    + apply D2; [reflexivity|lia].
  - exists (P1 ++ P2). split; [|split].
    + rewrite HP2, HP1, <- app_assoc. reflexivity.
    + apply NoDup_app. split; [exact ND1|]. split; [|exact ND2].
      intros k Hk Hk'. apply R1 in Hk. apply R2 in Hk'. lia.
    + intros k Hk. apply elem_of_app in Hk as [Hk|Hk].
      * destruct (R1 k Hk) as [Hr Hs]. split; [lia|].
        rewrite O2 by lia. exact Hs.
      * destruct (R2 k Hk) as [Hr Hs]. split; [lia|exact Hs].
Qed.

Lemma traceNativeEntries_grows host fl (groups : NativeTargetScopes) w :
  grows (length (concat groups.*2)) (traceNativeEntries host fl groups w).2
    w (traceNativeEntries host fl groups w).1.
Proof.
  unfold traceNativeEntries. destruct groups as [|g groups];
    [apply grows_refl|].
  set (items := concat (g :: groups).*2).
  destruct (getHandlers host _) as [reqs outcome].
  set (w1 := advance_nextId (length items) w).
  destruct (send_all_fields reqs w1) as (Hh & Hn & Hl & Hwr).
  set (w2 := fold_left (fun w r => send (HandlersGet r) w) reqs w1) in *.
  assert (Hstall : grows (length items) Pending w w2).
  { unfold grows, id_range, probe_ids. rewrite Hh, Hn, Hl, Hwr.
    split; [reflexivity|]. split; [reflexivity|]. split; [now left|].
    split; [discriminate|]. exists []. rewrite app_nil_r.
    split; [reflexivity|]. split; [constructor|].
    intros k Hk. now apply elem_of_nil in Hk. }
  destruct outcome as [response| |]; cbn [fst snd]; [|exact Hstall..].
  destruct (attach_items_detail (nextId w) (scripts response) items w2 0)
    as (H1 & H2 & H3).
  destruct (attach_items_detail_fields (nextId w) (scripts response) items
              w2 0) as (H4 & H5).
  destruct (attached_listeners_ids (nextId w) items 0) as [Hnd Hin].
  assert (Hsome : forall k,
             id_range (nextId w) (length items) k ->
             is_Some (handlers
                        (fold_left (attach_item (nextId w) (scripts response))
                           items (w2, 0)).1 !! k)).
  { unfold id_range. intros k Hk.
    replace k with (nextId w + Z.of_nat (0 + Z.to_nat (k - nextId w)))%Z
      by lia.
    rewrite H1 by lia. eauto. }
  unfold grows, id_range, probe_ids in *. rewrite H4, Hn, H3, H5, Hl, Hwr.
  split; [reflexivity|]. split; [|split; [|split]].
  - intros k Hk. rewrite H2 by (cbn [Nat.add]; lia). now rewrite Hh.
  - intros k Hk.
    destruct (decide (nextId w <= k < nextId w + Z.of_nat (length items))%Z)
      as [Hr|Hr]; [now right|left].
    rewrite H2 in Hk by (cbn [Nat.add]; lia). now rewrite Hh in Hk.
  - intros _. exact Hsome.
  - exists (attached_listeners (nextId w) 0 items).*2.
    split; [|split; [exact Hnd|]].
    + cbn [listeners wrappers advance_nextId]. rewrite fmap_app, <- !app_assoc.
      apply Permutation_app_head, Permutation_app_comm.
    + intros k Hk. apply Hin in Hk. cbn [Nat.add] in Hk.
      split; [lia|]. apply Hsome. lia.
Qed.

Lemma traceNativeTargets_grows host (targets : NativeTargets) w :
  grows (length targets) (traceNativeTargets host targets w).2
    w (traceNativeTargets host targets w).1.
Proof.
  unfold traceNativeTargets.
  pose proof (group_targets_total targets) as Htotal.
  destruct (group_targets targets) as [[c o] s]. cbn [fst snd] in Htotal.
  pose proof (traceNativeEntries_grows host TypeC c w) as P1.
  destruct (traceNativeEntries host TypeC c w) as [w1 c1].
  pose proof (traceNativeEntries_grows host TypeObjC o w1) as P2.
  destruct (traceNativeEntries host TypeObjC o w1) as [w2 c2].
  pose proof (traceNativeEntries_grows host TypeSwift s w2) as P3.
  destruct (traceNativeEntries host TypeSwift s w2) as [w3 c3].
  cbn [fst snd] in *. rewrite <- Htotal, <- Nat.add_assoc.
  eapply grows_trans; [exact P1|]. eapply grows_trans; [exact P2|exact P3].
Qed.

Lemma traceJavaTargets_grows host (groups : list JavaTargetGroup) w :
  grows (length (java_methods groups)) (traceJavaTargets host groups w).2
    w (traceJavaTargets host groups w).1.
Proof.
  unfold traceJavaTargets. rewrite java_scopes_total.
  set (ms := java_methods groups).
  destruct (getHandlers host _) as [reqs outcome].
  set (w1 := advance_nextId (length ms) w).
  destruct (send_all_fields reqs w1) as (Hh & Hn & Hl & Hwr).
  set (w2 := fold_left (fun w r => send (HandlersGet r) w) reqs w1) in *.
  assert (Hstall : grows (length ms) Pending w w2).
  { unfold grows, id_range, probe_ids. rewrite Hh, Hn, Hl, Hwr.
    split; [reflexivity|]. split; [reflexivity|]. split; [now left|].
    split; [discriminate|]. exists []. rewrite app_nil_r.
    split; [reflexivity|]. split; [constructor|].
    intros k Hk. now apply elem_of_nil in Hk. }
  destruct outcome as [response| |]; cbn [fst snd]; [|exact Hstall..].
  destruct (wrap_methods_detail (nextId w) (scripts response) ms w2 0)
    as (H1 & H2 & H3 & H4 & H5).
  destruct (seq_ids (nextId w) (length ms)) as [Hnd Hin].
  assert (Hsome : forall k,
             id_range (nextId w) (length ms) k ->
             is_Some (handlers
                        (fold_left (wrap_method (nextId w) (scripts response))
                           ms (w2, 0)).1 !! k)).
  { unfold id_range. intros k Hk.
    replace k with (nextId w + Z.of_nat (0 + Z.to_nat (k - nextId w)))%Z
      by lia.
    apply H1. lia. }
  unfold grows, id_range, probe_ids in *. rewrite H4, Hn, H3, H5, Hl, Hwr.
  split; [reflexivity|]. split; [|split; [|split]].
  - intros k Hk. rewrite H2 by (cbn [Nat.add]; lia). now rewrite Hh.
  - intros k Hk.
    destruct (decide (nextId w <= k < nextId w + Z.of_nat (length ms))%Z)
      as [Hr|Hr]; [now right|left].
    rewrite H2 in Hk by (cbn [Nat.add]; lia). now rewrite Hh in Hk.
  - intros _. exact Hsome.
  - eexists. split; [|split; [exact Hnd|]].
    + cbn [listeners wrappers advance_nextId]. now rewrite app_assoc.
    + intros k Hk. apply Hin in Hk as (i & Hi & ->).
      split; [lia|]. apply Hsome. lia.
Qed.


Lemma grows_consecutive n w w' first :
  grows n Done w w' -> (first <= nextId w)%Z ->
  consecutive first w -> consecutive first w'.
Proof.
  unfold grows, consecutive, id_range.
  intros (N & O & S & D & _) Hfirst Hw k. split.
  - intros Hk. destruct (S k Hk) as [Hk'|Hk']; [apply Hw in Hk'|]; lia.
  - intros Hk. destruct (decide (k < nextId w)%Z) as [Hlt|Hge].
    + rewrite O by lia. apply Hw. lia.
    + apply D; [reflexivity|lia].
Qed.


Lemma grows_then_send n c w w' m :
  grows n c w w' -> grows n c w (send m w').
Proof.
  intros G. pose proof (grows_trans _ _ _ _ _ _ _ G (grows_send m Done w'))
    as G'.
  rewrite Nat.add_0_r in G'. now destruct c.
Qed.

Lemma both_comm c1 c2 : both c1 c2 = both c2 c1.
Proof. now destruct c1, c2. Qed.

Lemma phase_responsive host w w' c :
  responsive host -> phase host w w' c -> c = Done.
Proof.
  intros Hhost (ms & _ & _ & Hdone). apply Hdone, Forall_forall.
  intros r _. apply Hhost.
Qed.

Section StartTable.
Context `{!JavaRuntime}.

(** [start] as one step: the ids it takes, and that it is done when the
    host answers. *)
Lemma start_grows (host : Host)
  (javaEntries : list (TraceSpecOperation * string)) (plan : TracePlan) w :
  exists n c,
    grows n c w (start host javaEntries plan w)
    /\ ((javaEntries <> [] -> java_available = true) ->
        n = length (native plan) + managed_targets javaEntries plan
        /\ (responsive host -> c = Done)).
Proof.
  unfold start, managed_targets.
  destruct javaEntries as [|e es].
  - pose proof (traceNativeTargets_grows host (native plan) w) as Pn.
    pose proof (traceNativeTargets_phase host (native plan) w) as Qn.
    destruct (traceNativeTargets host (native plan) w) as [w1 c].
    cbn [fst snd] in *. exists (length (native plan)), c. split.
    + destruct c; [|exact Pn]. now do 2 apply grows_then_send.
    + intros _. split; [lia|]. intros Hhost.
      exact (phase_responsive _ _ _ _ Hhost Qn).
  - destruct java_available eqn:Hjava; cbn [negb].
    2:{ exists 0, Done. split; [apply grows_send|].
        intros Hok. discriminate Hok. discriminate. }
    unfold java_start.
    set (groups := java (apply_java_entries (e :: es) plan)).
    destruct java_perform_now.
    + pose proof (traceJavaTargets_grows host groups w) as Pj.
      pose proof (traceJavaTargets_phase host groups w) as Qj.
      destruct (traceJavaTargets host groups w) as [w1 cj].
      pose proof (traceNativeTargets_grows host (native plan) w1) as Pn.
      pose proof (traceNativeTargets_phase host (native plan) w1) as Qn.
      destruct (traceNativeTargets host (native plan) w1) as [w2 cn].
      cbn [fst snd] in *.
      pose proof (grows_trans _ _ _ _ _ _ _ Pj Pn) as P.
      exists (length (java_methods groups) + length (native plan)),
        (both cj cn).
      split.
      * rewrite (both_comm cn cj). destruct (both cj cn); [|exact P].
        now do 2 apply grows_then_send.
      * intros _. split; [lia|]. intros Hhost.
        rewrite (phase_responsive _ _ _ _ Hhost Qj),
          (phase_responsive _ _ _ _ Hhost Qn). reflexivity.
    + pose proof (traceNativeTargets_grows host (native plan) w) as Pn.
      pose proof (traceNativeTargets_phase host (native plan) w) as Qn.
      destruct (traceNativeTargets host (native plan) w) as [w1 cn].
      cbn [fst snd] in *.
      set (w1' := match cn with
                  | Done => send AgentInitialized w1
                  | Pending => w1
                  end).
      assert (Pn' : grows (length (native plan)) cn w w1').
      { subst w1'. destruct cn; [now apply grows_then_send|exact Pn]. }
      pose proof (traceJavaTargets_grows host groups w1') as Pj.
      pose proof (traceJavaTargets_phase host groups w1') as Qj.
      destruct (traceJavaTargets host groups w1') as [w2 cj].
      cbn [fst snd] in *.
      pose proof (grows_trans _ _ _ _ _ _ _ Pn' Pj) as P.
      exists (length (native plan) + length (java_methods groups)),
        (both cn cj).
      split.
      * destruct (both cn cj); [|exact P]. now apply grows_then_send.
      * intros _. split; [lia|]. intros Hhost.
        assert (Hcn : cn = Done) by exact (phase_responsive _ _ _ _ Hhost Qn).
        rewrite Hcn, (phase_responsive _ _ _ _ Hhost Qj). reflexivity.
Qed.


(** X11: in a session without handlers, against a host that answers, with
    the Java runtime there when a Java rule was given, the ids in use after
    [start] are the N ids from the id counter on, where N counts the native
    targets of the plan and the Java methods that [start] provisions; the id
    counter has moved past them; and [update] throws exactly for the ids
    outside of them. *)
Theorem start_takes_consecutive_ids (host : Host)
  (javaEntries : list (TraceSpecOperation * string)) (plan : TracePlan) w
  (id : TraceTargetId) (name : string) (script : HandlerScript) :
  handlers w = ∅ ->
  responsive host ->
  (javaEntries <> [] -> java_available = true) ->
  nextId (start host javaEntries plan w)
  = (nextId w
     + Z.of_nat (length (native plan) + managed_targets javaEntries plan))%Z
  /\ (is_Some (handlers (start host javaEntries plan w) !! id)
      <-> (nextId w <= id < nextId (start host javaEntries plan w))%Z)
  /\ (threw (update id name script (start host javaEntries plan w))
      <-> ~ (nextId w <= id < nextId (start host javaEntries plan w))%Z).
Proof.
  intros Hempty Hhost Hjava.
  destruct (start_grows host javaEntries plan w) as (n & c & G & Hn).
  destruct (Hn Hjava) as [-> Hc]. rewrite (Hc Hhost) in G.
  assert (Hcons : consecutive (nextId w) (start host javaEntries plan w)).
  { apply (grows_consecutive _ _ _ _ G); [lia|].
    intros k. rewrite Hempty, lookup_empty. split; [|lia].
    intros [x Hx]. discriminate. }
  destruct G as (N & _). split; [exact N|]. split; [apply Hcons|].
  rewrite <- (Hcons id). unfold update.
  destruct (handlers (start host javaEntries plan w) !! id) eqn:E.
  - destruct (parseHandler name script _). cbn. split; [tauto|].
    intros Hno. apply Hno. eauto.
  - cbn. split; [|tauto]. intros _ [x Hx].
    discriminate (eq_trans (eq_sym E) Hx).
Qed.

End StartTable.

End RegistryFacts.

(** ** Java dispatch *)

Section JavaDispatchFacts.
Import Dispatch Threads JavaDispatch.
Context {Value Instance Throwable Error TraceState : Type}.
Context (type_error : Error).
Implicit Types (s : JavaAgent Error TraceState) (tid : ThreadId).

(** What [invokeJavaHandler] does to the agent and what it gives back. *)
Lemma invokeJavaHandler_fields {P : Type} now tid id
  (callback : @JavaCallback Value Instance Throwable Error TraceState P)
  instance (param : P) cutPoint s :
  stackDepth
    (agent (invokeJavaHandler type_error now tid id callback instance param
              cutPoint s).1)
  = (updateDepth tid cutPoint (stackDepth (agent s))).1
  /\ pendingEvents
       (agent (invokeJavaHandler type_error now tid id callback instance param
                 cutPoint s).1)
     = pendingEvents (agent s)
       ++ map (fun message =>
                 (id, (now - started (agent s))%Z, tid,
                  (updateDepth tid cutPoint (stackDepth (agent s))).2,
                  JsString.join " " message))
            (callback instance param (traceState (agent s))).1.1
  /\ deferred
       (invokeJavaHandler type_error now tid id callback instance param
          cutPoint s).1
     = deferred s
       ++ script_errors (callback instance param (traceState (agent s))).2
  /\ (invokeJavaHandler type_error now tid id callback instance param
        cutPoint s).2
     = match (callback instance param (traceState (agent s))).2 with
       | Returns v => Returns v
       | Throws (JavaException e) => Throws (JavaException e)
       | Throws Nullish => Throws (ScriptError type_error)
       | Throws (ScriptError _) => Returns None
       end.
Proof.
  unfold invokeJavaHandler.
  destruct (updateDepth tid cutPoint (stackDepth (agent s)))
    as [entries depth].
  destruct (callback instance param (traceState (agent s)))
    as [[logged state] ending].
  match goal with
  | |- context [log_all ?i ?t ?th ?d ?l ?x] =>
      destruct (log_all_fields i t th d l x) as (H1 & _ & _ & H4)
  end.
  cbn [fst snd].
  destruct ending as [v|[e| |e]]; cbn [fst snd agent deferred script_errors];
    rewrite H1, H4, ?app_nil_r; easy.
Qed.

(** X12: the wrapper of a traced Java method is transparent.  When the
    callbacks of the handler throw neither a Java exception nor [null] or
    [undefined], the caller gets what the original implementation gives:
    what it throws, or what it returns, unless [onLeave] returned a value
    other than [undefined], which then replaces it.  What the callbacks
    throw does not reach the caller: it is left to be thrown later, in the
    order of the callbacks. *)
Theorem java_wrapper_is_transparent (now_enter now_leave : Z) tid
  (id : TraceTargetId)
  (method : @JavaMethod Value Instance Throwable Error TraceState)
  (handler : @JavaHandler Value Instance Throwable Error TraceState)
  (instance : Instance) (args : list Value) s :
  let s1 :=
    (invokeJavaHandler type_error now_enter tid id handler.1 instance args
       Enter s).1 in
  let final :=
    handleJavaInvocation type_error now_enter now_leave tid id method handler
      instance args s in
  contained handler.1 instance args (traceState (agent s)) ->
  (forall retval,
     (method instance args s1).2 = Returns retval ->
     contained handler.2 instance retval
       (traceState (agent (method instance args s1).1))) ->
  deferred s1
  = deferred s ++ script_errors (handler.1 instance args (traceState (agent s))).2
  /\ match (method instance args s1).2 with
     | Throws t => final = ((method instance args s1).1, Throws t)
     | Returns retval =>
         let leave :=
           (handler.2 instance retval
              (traceState (agent (method instance args s1).1))).2 in
         final.2 = Returns (default retval (returned leave))
         /\ deferred final.1
            = deferred (method instance args s1).1 ++ script_errors leave
     end.
Proof.
  intros s1 final Henter Hleave. subst final. unfold handleJavaInvocation.
  destruct (invokeJavaHandler_fields now_enter tid id handler.1 instance args
              Enter s) as (_ & _ & Hd & Hr).
  fold s1 in Hd, Hr. split; [exact Hd|].
  unfold contained in Henter.
  destruct (invokeJavaHandler type_error now_enter tid id handler.1 instance
              args Enter s) as [s1' r1] eqn:E1.
  cbn [fst snd] in *. subst s1.
  assert (Hret : exists v, r1 = Returns v).
  { rewrite Hr.
    destruct ((handler.1 instance args (traceState (agent s))).2)
      as [v|[e| |e]]; try contradiction; eauto. }
  destruct Hret as [v ->].
  destruct (method instance args s1') as [s2 [retval|t]] eqn:E2;
    cbn [fst snd] in *; [|reflexivity].
  specialize (Hleave retval eq_refl). unfold contained in Hleave.
  destruct (invokeJavaHandler_fields now_leave tid id handler.2 instance
              retval Leave s2) as (_ & _ & Hd2 & Hr2).
  destruct (invokeJavaHandler type_error now_leave tid id handler.2 instance
              retval Leave s2) as [s3 r3].
  cbn [fst snd] in *. subst r3.
  destruct ((handler.2 instance retval (traceState (agent s2))).2)
    as [[r|]|[e| |e]]; try contradiction; cbn [returned default fst snd];
    split; first [reflexivity|exact Hd2].
Qed.

(** X13: a traced Java call leaves the depth of its thread as it found it
    when the original implementation returns; when the original throws, or
    when [onEnter] throws a Java exception, [null] or [undefined], [onLeave]
    is not run, the caller gets what was thrown, and the depth of the thread
    stays one higher than it was.  (The original is taken to leave the depth
    of the thread as it finds it.) *)
Theorem java_wrapper_depth (now_enter now_leave : Z) tid (id : TraceTargetId)
  (method : @JavaMethod Value Instance Throwable Error TraceState)
  (handler : @JavaHandler Value Instance Throwable Error TraceState)
  (instance : Instance) (args : list Value) s :
  let enter :=
    invokeJavaHandler type_error now_enter tid id handler.1 instance args
      Enter s in
  let final :=
    handleJavaInvocation type_error now_enter now_leave tid id method handler
      instance args s in
  depth_read tid (stackDepth (agent (method instance args enter.1).1))
  = depth_read tid (stackDepth (agent enter.1)) ->
  match enter.2, (method instance args enter.1).2 with
  | Returns _, Returns _ =>
      depth_read tid (stackDepth (agent final.1))
      = depth_read tid (stackDepth (agent s))
  | Returns _, Throws t =>
      final = ((method instance args enter.1).1, Throws t)
      /\ depth_read tid (stackDepth (agent final.1))
         = (depth_read tid (stackDepth (agent s)) + 1)%Z
  | Throws t, _ =>
      final = (enter.1, Throws t)
      /\ depth_read tid (stackDepth (agent final.1))
         = (depth_read tid (stackDepth (agent s)) + 1)%Z
  end.
Proof.
  intros enter final Hmethod. subst final. unfold handleJavaInvocation.
  destruct (invokeJavaHandler_fields now_enter tid id handler.1 instance args
              Enter s) as (Hs & _).
  fold enter in Hs |- *.
  assert (Hd1 : depth_read tid (stackDepth (agent enter.1))
                = (depth_read tid (stackDepth (agent s)) + 1)%Z).
  { rewrite Hs, updateDepth_read. reflexivity. }
  destruct enter as [s1 [v|t]]; cbn [fst snd] in *; [|now split].
  destruct (method instance args s1) as [s2 [retval|t]]; cbn [fst snd] in *;
    [|split; [reflexivity|lia]].
  destruct (invokeJavaHandler_fields now_leave tid id handler.2 instance
              retval Leave s2) as (Hs2 & _).
  assert (Hd3 : depth_read tid
                  (stackDepth
                     (agent (invokeJavaHandler type_error now_leave tid id
                               handler.2 instance retval Leave s2).1))
                = depth_read tid (stackDepth (agent s))).
  { rewrite Hs2, updateDepth_read. cbn [delta]. lia. }
  destruct (invokeJavaHandler type_error now_leave tid id handler.2 instance
              retval Leave s2) as [s3 [[r|]|t]]; exact Hd3.
Qed.

End JavaDispatchFacts.

(** ** The rules of a trace specification *)

Section RulesFacts.
Import TargetPlan Session Rules.
Context `{NativeRuntime} `{ObjCRuntime} `{RegExpEngine}.

Lemma keys_set_prefix {V : Type} (k : string) (v : V)
  (m : JsMap.t string V) :
  JsMap.keys m `prefix_of` JsMap.keys (JsMap.set k v m).
Proof.
  unfold JsMap.keys. induction m as [|[k' v'] m IH]; cbn [JsMap.set].
  - apply prefix_nil.
  - destruct (decide (k' = k)) as [->|Hne]; cbn [fmap list_fmap fst].
    + reflexivity.
    + now apply prefix_cons.
Qed.

Lemma fold_set_prefix {A V : Type} (key : A -> string) (value : A -> V)
  (l : list A) : forall m : JsMap.t string V,
  JsMap.keys m
  `prefix_of` JsMap.keys
                (fold_left (fun m x => JsMap.set (key x) (value x) m) l m).
Proof.
  induction l as [|x l IH]; intros m; cbn [fold_left]; [reflexivity|].
  etrans; [apply keys_set_prefix|apply IH].
Qed.

Lemma delete_matches_filter (matches : list ApiResolverMatch) :
  forall native : list (NativeId * NativeTarget),
    delete_matches matches native
    = filter (fun e => e.1 ∉ match_address <$> matches) native.
Proof.
  unfold delete_matches, NativeTargets.
  induction matches as [|m matches IH]; intros native; cbn [fold_left].
  - symmetry. apply filter_all. intros e _. apply not_elem_of_nil.
  - rewrite IH. unfold JsMap.delete. rewrite list_filter_filter.
    apply list_filter_iff. intros e. cbn [fmap list_fmap].
    rewrite not_elem_of_cons. tauto.
Qed.

Lemma filter_set_matched (addresses : list NativeId) (k : NativeId)
  (v : NativeTarget) (native : list (NativeId * NativeTarget)) :
  k ∈ addresses ->
  filter (fun e => e.1 ∉ addresses) (JsMap.set k v native)
  = filter (fun e => e.1 ∉ addresses) native.
Proof.
  intros Hk. induction native as [|[k' v'] native IH]; cbn [JsMap.set].
  - rewrite filter_cons, decide_False by (cbn; tauto). reflexivity.
  - destruct (decide (k' = k)) as [->|Hne].
    + rewrite !filter_cons, !decide_False by (cbn; tauto). reflexivity.
    + rewrite !filter_cons, IH. reflexivity.
Qed.

Lemma filter_set_matches (target : ApiResolverMatch -> NativeTarget)
  (addresses : list NativeId) (matches : list ApiResolverMatch) :
  (forall m, m ∈ matches -> match_address m ∈ addresses) ->
  forall native : list (NativeId * NativeTarget),
    filter (fun e => e.1 ∉ addresses) (set_matches target matches native)
    = filter (fun e => e.1 ∉ addresses) native.
Proof.
  unfold set_matches.
  induction matches as [|m matches IH]; intros Hin native; cbn [fold_left];
    [reflexivity|].
  rewrite IH by (intros m' Hm'; apply Hin; now right).
  apply filter_set_matched, Hin. now left.
Qed.

(** The loops of [includeObjCMethod] and [excludeObjCMethod] over the
    fragments are loops over all the matches. *)
Lemma objc_set_matches (fragments : list string) :
  forall native : NativeTargets,
    fold_left
      (fun native pt =>
         fold_left
           (fun native m =>
              JsMap.set (match_address m) (objcMethodTargetFromMatch m) native)
           (objc_enumerateMatches pt) native)
      fragments native
    = set_matches objcMethodTargetFromMatch
        (flat_map objc_enumerateMatches fragments) native.
Proof.
  unfold set_matches.
  induction fragments as [|pt fragments IH]; intros native; [reflexivity|].
  cbn [fold_left flat_map]. now rewrite IH, fold_left_app.
Qed.

Lemma objc_delete_matches (fragments : list string) :
  forall native : NativeTargets,
    fold_left
      (fun native pt =>
         fold_left (fun native m => JsMap.delete (match_address m) native)
           (objc_enumerateMatches pt) native)
      fragments native
    = delete_matches (flat_map objc_enumerateMatches fragments) native.
Proof.
  unfold delete_matches.
  induction fragments as [|pt fragments IH]; intros native; [reflexivity|].
  cbn [fold_left flat_map]. now rewrite IH, fold_left_app.
Qed.

Lemma delete_sublist (k : NativeId) (native : NativeTargets) :
  JsMap.delete k native `sublist_of` native.
Proof. apply sublist_filter. Qed.

Lemma filter_targets_sublist (entries : list (NativeId * NativeTarget)) :
  forall (regList : list RegExp) (native : NativeTargets),
    (fold_left filter_step entries (regList, native)).2 `sublist_of` native.
Proof.
  induction entries as [|[addr [[type scope] name]] entries IH];
    intros regList native; cbn [fold_left]; [reflexivity|].
  cbn [filter_step].
  destruct (test_any regList (displayName_of name)) as [matched regList'].
  etrans; [apply IH|]. destruct matched; [reflexivity|apply delete_sublist].
Qed.

Lemma excludeObjCProperty_sublist pattern (plan : TracePlan) :
  native (excludeObjCProperty pattern plan) `sublist_of` native plan.
Proof.
  unfold excludeObjCProperty. destruct pattern; [reflexivity|].
  cbn [native with_native]. unfold JsMap.entries.
  generalize (native plan) at 2 3. generalize (native plan).
  induction n as [|[addr [[type scope] name]] entries IH]; intros acc;
    cbn [fold_left]; [reflexivity|].
  etrans; [apply IH|].
  destruct (_ || _); [apply delete_sublist|reflexivity].
Qed.

Lemma set_matches_prefix (target : ApiResolverMatch -> NativeTarget)
  (matches : list ApiResolverMatch) (native : NativeTargets) :
  JsMap.keys native
  `prefix_of` JsMap.keys (set_matches target matches native).
Proof. apply (fold_set_prefix match_address target). Qed.

Lemma delete_matches_sublist (matches : list ApiResolverMatch)
  (native : NativeTargets) :
  delete_matches matches native `sublist_of` native.
Proof. rewrite delete_matches_filter. apply sublist_filter. Qed.

Lemma filterObjCMethod_sublist pattern (plan : TracePlan) :
  native (filterObjCMethod pattern plan) `sublist_of` native plan.
Proof.
  unfold filterObjCMethod, filter_targets.
  destruct (build_regList _); [reflexivity|]. apply filter_targets_sublist.
Qed.

Lemma filterObjCMethod_java pattern (plan : TracePlan) :
  java (filterObjCMethod pattern plan) = java plan.
Proof.
  unfold filterObjCMethod, filter_targets. now destruct (build_regList _).
Qed.

Lemma excludeObjCProperty_java pattern (plan : TracePlan) :
  java (excludeObjCProperty pattern plan) = java plan.
Proof. unfold excludeObjCProperty. now destruct pattern. Qed.

Lemma includeObjCMethod_prefix pattern (plan : TracePlan) :
  JsMap.keys (native plan)
  `prefix_of` JsMap.keys (native (includeObjCMethod pattern plan)).
Proof.
  unfold includeObjCMethod. cbn [native with_native].
  rewrite objc_set_matches. apply set_matches_prefix.
Qed.

Lemma excludeObjCMethod_sublist pattern (plan : TracePlan) :
  native (excludeObjCMethod pattern plan) `sublist_of` native plan.
Proof.
  unfold excludeObjCMethod. cbn [native with_native].
  rewrite objc_delete_matches. apply delete_matches_sublist.
Qed.

(** What one rule does to the plan and to the queue of Java rules. *)
Lemma apply_rule_inv operation scope pattern (plan plan' : TracePlan)
  (javaEntries javaEntries' : list (TraceSpecOperation * string)) :
  apply_rule (plan, javaEntries) (operation, scope, pattern)
  = inl (plan', javaEntries') ->
  java plan' = java plan
  /\ javaEntries'
     = javaEntries ++ match scope with
                      | ScopeJavaMethod => [(operation, pattern)]
                      | _ => []
                      end
  /\ (operation = Include ->
      JsMap.keys (native plan) `prefix_of` JsMap.keys (native plan'))
  /\ (operation <> Include -> native plan' `sublist_of` native plan).
Proof.
  unfold apply_rule, includeRelativeFunction, includeSwiftFunc,
    excludeSwiftFunc, with_objc_resolver.
  intros Hrule.
  destruct scope, operation;
    repeat match type of Hrule with
           | context [relative_address ?m ?o] =>
               destruct (relative_address m o)
           | context [swift_enumerateMatches] =>
               destruct swift_enumerateMatches
           | context [parseMethodPattern ?p] =>
               destruct (parseMethodPattern p) eqn:?
           | context [objc_resolver_available] =>
               destruct objc_resolver_available
           end;
    try discriminate; injection Hrule as <- <-;
    rewrite ?app_nil_r;
    (split;
     [first [reflexivity|apply filterObjCMethod_java
            |apply excludeObjCProperty_java]|]);
    (split; [reflexivity|]);
    (split; [intros Hop; try discriminate|intros Hop; try contradiction]);
    try reflexivity;
    try apply set_matches_prefix;
    try apply delete_matches_sublist;
    try apply keys_set_prefix;
    try apply filterObjCMethod_sublist;
    try apply excludeObjCProperty_sublist;
    try apply includeObjCMethod_prefix;
    try apply excludeObjCMethod_sublist;
    try (apply (fold_set_prefix symbol_address debugSymbolTargetFromAddress)).
Qed.

Lemma keys_set_elem {V : Type} (k : string) (v : V) (m : JsMap.t string V) x :
  x ∈ JsMap.keys (JsMap.set k v m) -> x = k \/ x ∈ JsMap.keys m.
Proof.
  unfold JsMap.keys. induction m as [|[k' v'] m IH]; cbn [JsMap.set].
  - cbn. rewrite list_elem_of_singleton. tauto.
  - destruct (decide (k' = k)) as [->|Hne]; cbn [fmap list_fmap fst];
      rewrite !elem_of_cons; [tauto|].
    intros [->|Hx]; [tauto|]. destruct (IH Hx); tauto.
Qed.

Lemma keys_set_NoDup {V : Type} (k : string) (v : V) (m : JsMap.t string V) :
  NoDup (JsMap.keys m) -> NoDup (JsMap.keys (JsMap.set k v m)).
Proof.
  induction m as [|[k' v'] m IH]; cbn [JsMap.set].
  - intros _. apply NoDup_singleton.
  - unfold JsMap.keys in *. cbn [fmap list_fmap fst]. intros Hnd.
    apply NoDup_cons in Hnd as [Hnotin Hnd].
    destruct (decide (k' = k)) as [->|Hne]; cbn [fmap list_fmap fst];
      apply NoDup_cons; split; try assumption; [|now apply IH].
    intros Hin. apply (keys_set_elem k v m) in Hin. tauto.
Qed.

Lemma fold_set_NoDup {A V : Type} (key : A -> string) (value : A -> V)
  (l : list A) : forall m : JsMap.t string V,
  NoDup (JsMap.keys m) ->
  NoDup (JsMap.keys
           (fold_left (fun m x => JsMap.set (key x) (value x) m) l m)).
Proof.
  induction l as [|x l IH]; intros m Hnd; cbn [fold_left]; [exact Hnd|].
  now apply IH, keys_set_NoDup.
Qed.

(** The addresses of the plan stay distinct. *)
Lemma apply_rule_NoDup operation scope pattern (plan plan' : TracePlan)
  (javaEntries javaEntries' : list (TraceSpecOperation * string)) :
  apply_rule (plan, javaEntries) (operation, scope, pattern)
  = inl (plan', javaEntries') ->
  NoDup (JsMap.keys (native plan)) -> NoDup (JsMap.keys (native plan')).
Proof.
  intros Hrule Hnd.
  assert (Hcase : operation = Include \/ operation <> Include)
    by (destruct operation; [now left|right..]; discriminate).
  destruct Hcase as [->|Hop].
  - revert Hrule.
    unfold apply_rule, includeRelativeFunction, includeSwiftFunc,
      with_objc_resolver.
    destruct scope; intros Hrule;
      repeat match type of Hrule with
             | context [relative_address ?m ?o] =>
                 destruct (relative_address m o)
             | context [swift_enumerateMatches] =>
                 destruct swift_enumerateMatches
             | context [parseMethodPattern ?p] =>
                 destruct (parseMethodPattern p) eqn:?
             | context [objc_resolver_available] =>
                 destruct objc_resolver_available
             end;
      try discriminate; injection Hrule as <- <-;
      try exact Hnd;
      try (unfold includeObjCMethod; cbn [native with_native];
           rewrite objc_set_matches);
      first [now apply fold_set_NoDup|now apply keys_set_NoDup].
  - destruct (apply_rule_inv _ _ _ _ _ _ _ Hrule) as (_ & _ & _ & Hsub).
    apply (sublist_NoDup _ (JsMap.keys (native plan))); [exact Hnd|].
    unfold JsMap.keys. apply fmap_sublist. now apply Hsub.
Qed.

(** X14: a rule that is applied either adds or removes.  A rule with the
    operation [include] keeps every address that is planned, in its place,
    and puts the addresses it adds behind them; a rule with another
    operation leaves what it keeps of the planned targets as it is and in
    the order it has, and adds nothing.  No rule touches the Java part of
    the plan, and none plans an address twice. *)
Theorem rules_add_or_remove (operation : TraceSpecOperation)
  (scope : TraceSpecScope) (pattern : TraceSpecPattern)
  (plan plan' : TracePlan)
  (javaEntries javaEntries' : list (TraceSpecOperation * string)) :
  apply_rule (plan, javaEntries) (operation, scope, pattern)
  = inl (plan', javaEntries') ->
  java plan' = java plan
  /\ (operation = Include ->
      JsMap.keys (native plan) `prefix_of` JsMap.keys (native plan'))
  /\ (operation <> Include -> native plan' `sublist_of` native plan)
  /\ (NoDup (JsMap.keys (native plan)) ->
      NoDup (JsMap.keys (native plan'))).
Proof.
  intros Hrule.
  destruct (apply_rule_inv _ _ _ _ _ _ _ Hrule) as (Hj & _ & Hi & He).
  pose proof (apply_rule_NoDup _ _ _ _ _ _ _ Hrule). easy.
Qed.

Lemma elem_of_matched (matches : list ApiResolverMatch) m :
  m ∈ matches -> match_address m ∈ match_address <$> matches.
Proof. intros Hm. apply list_elem_of_fmap. now exists m. Qed.

(** X15: for the scopes [module], [function], [swift-func] and
    [objc-method], an [exclude] rule that is applied removes the targets at
    the addresses that the resolver matches for its pattern and nothing
    else; and right after the [include] rule of the same scope and pattern
    it gives what it gives without that rule. *)
Theorem exclusion_removes_matched_addresses (scope : TraceSpecScope)
  (pattern : TraceSpecPattern)
  (st st' : TracePlan * list (TraceSpecOperation * string)) :
  resolver_scope scope = true ->
  apply_rule st (Exclude, scope, pattern) = inl st' ->
  native st'.1
  = filter (fun e => e.1 ∉ matched_addresses scope pattern) (native st.1)
  /\ forall st1,
       apply_rule st (Include, scope, pattern) = inl st1 ->
       apply_rule st1 (Exclude, scope, pattern) = inl st'.
Proof.
  destruct st as [plan q]. intros Hscope.
  unfold apply_rule, matched_addresses, excludeSwiftFunc, includeSwiftFunc,
    with_objc_resolver.
  destruct scope; try discriminate; clear Hscope.
  - intros Hrule. injection Hrule as <-. cbn [fst native with_native].
    split; [apply delete_matches_filter|].
    intros st1 Hinc. injection Hinc as <-. unfold excludeModule, includeModule.
    cbn [native java with_native]. do 2 f_equal. unfold with_native.
    f_equal. rewrite !delete_matches_filter.
    apply filter_set_matches. intros m. apply elem_of_matched.
  - intros Hrule. injection Hrule as <-. cbn [fst native with_native].
    split; [apply delete_matches_filter|].
    intros st1 Hinc. injection Hinc as <-.
    unfold excludeFunction, includeFunction.
    cbn [native java with_native]. do 2 f_equal. unfold with_native.
    f_equal. rewrite !delete_matches_filter.
    apply filter_set_matches. intros m. apply elem_of_matched.
  - assert (Hex : native (excludeObjCMethod pattern plan)
                  = filter
                      (fun e =>
                         e.1 ∉ match_address
                               <$> flat_map objc_enumerateMatches
                                     (parseMethodPattern pattern))
                      (native plan)).
    { unfold excludeObjCMethod. cbn [native with_native].
      rewrite objc_delete_matches. apply delete_matches_filter. }
    assert (Hinc : excludeObjCMethod pattern (includeObjCMethod pattern plan)
                   = excludeObjCMethod pattern plan).
    { unfold excludeObjCMethod, includeObjCMethod.
      cbn [native java with_native]. unfold with_native. f_equal.
      cbn [native java]. rewrite !objc_delete_matches, objc_set_matches.
      rewrite !delete_matches_filter.
      apply filter_set_matches. intros m. apply elem_of_matched. }
    destruct (parseMethodPattern pattern) eqn:Hp;
      [|destruct objc_resolver_available; [|discriminate]];
      intros Hrule; injection Hrule as <-; cbn [fst];
      (split; [exact Hex|]);
      intros st1 Hst1; injection Hst1 as <-; now rewrite Hinc.
  - destruct swift_enumerateMatches as [enumerateMatches|]; [|discriminate].
    intros Hrule. injection Hrule as <-. cbn [fst native with_native].
    split; [apply delete_matches_filter|].
    intros st1 Hinc. injection Hinc as <-.
    cbn [native java with_native]. do 2 f_equal. unfold with_native.
    f_equal. cbn [native]. rewrite !delete_matches_filter.
    apply filter_set_matches. intros m. apply elem_of_matched.
Qed.

Lemma apply_rules_failed (spec : TraceSpec) message :
  fold_left
    (fun r rule =>
       match r with
       | inl st => apply_rule st rule
       | inr message => inr message
       end)
    spec (inr message)
  = inr message.
Proof. induction spec as [|rule spec IH]; [reflexivity|exact IH]. Qed.

Lemma apply_rules_inv (spec : TraceSpec)
  (st st' : TracePlan * list (TraceSpecOperation * string)) :
  apply_rules spec st = inl st' ->
  st'.2 = st.2 ++ java_rules spec /\ java st'.1 = java st.1.
Proof.
  revert st. unfold apply_rules.
  induction spec as [|[[operation scope] pattern] spec IH]; intros st Hall.
  - cbn in Hall. injection Hall as <-. cbn. now rewrite app_nil_r.
  - cbn [fold_left] in Hall.
    destruct (apply_rule st (operation, scope, pattern)) as [st1|message]
      eqn:Hrule; [|now rewrite apply_rules_failed in Hall].
    destruct (IH st1 Hall) as (Hq & Hj).
    destruct st as [plan q], st1 as [plan1 q1].
    destruct (apply_rule_inv _ _ _ _ _ _ _ Hrule) as (Hj1 & Hq1 & _).
    cbn [fst snd] in *. rewrite Hq, Hj, Hq1, Hj1, <- app_assoc.
    split; [|reflexivity].
    apply (f_equal (app q)). unfold java_rules. cbn [omap list_omap fst snd].
    now destruct scope.
Qed.

(** X16: what the loop over a specification makes of it when it ends
    without an error.  The rules of the scope [java-method] are not applied
    by the loop, wherever they stand in the specification: the queue holds
    them, with their operations, in the order of the specification, and the
    Java part of the plan is still empty.  The native part plans no address
    twice. *)
Theorem java_rules_are_queued (spec : TraceSpec) (plan : TracePlan)
  (javaEntries : list (TraceSpecOperation * string)) :
  resolve spec = inl (plan, javaEntries) ->
  javaEntries = java_rules spec
  /\ java plan = []
  /\ NoDup (JsMap.keys (native plan)).
Proof.
  unfold resolve. intros Hall.
  destruct (apply_rules_inv _ _ _ Hall) as [Hq Hj]. cbn in Hq, Hj.
  split; [exact Hq|]. split; [exact Hj|].
  assert (Hgen : forall (rules : TraceSpec) st st',
             apply_rules rules st = inl st' ->
             NoDup (JsMap.keys (native st.1)) ->
             NoDup (JsMap.keys (native st'.1))).
  { unfold apply_rules.
    induction rules as [|[[operation scope] pattern] rules IH];
      intros st st' Hrules Hnd; cbn [fold_left] in Hrules.
    - now injection Hrules as <-.
    - destruct (apply_rule st (operation, scope, pattern)) as [st1|message]
        eqn:Hrule; [|now rewrite apply_rules_failed in Hrules].
      apply (IH st1 st' Hrules). destruct st as [p q], st1 as [p1 q1].
      exact (apply_rule_NoDup _ _ _ _ _ _ _ Hrule Hnd). }
  apply (Hgen spec _ _ Hall). cbn. apply NoDup_nil_2.
Qed.

End RulesFacts.

(** ** The patterns and the names of functions *)

Section ParserFacts.
Import TargetPlan Rules.

Lemma indexOf_cons_None c d s :
  JsString.indexOf c (String d s) = None
  <-> d <> c /\ JsString.indexOf c s = None.
Proof.
  cbn [JsString.indexOf]. destruct (Ascii.eqb_spec d c) as [->|Hne].
  - split; [discriminate|]. intros [Hne _]. now destruct Hne.
  - destruct (JsString.indexOf c s); cbn; split; try easy;
      intros [_ Hs]; discriminate.
Qed.

Lemma append_char c s : String c EmptyString +:+ s = String c s.
Proof. reflexivity. Qed.

(** Cutting at a separator cuts both sides of it. *)
Lemma split_where_app p s1 c s2 :
  p c = true ->
  JsString.split_where p (s1 +:+ String c s2)
  = JsString.split_where p s1 ++ JsString.split_where p s2.
Proof.
  intros Hc. induction s1 as [|d s1 IH].
  - change (EmptyString +:+ String c s2) with (String c s2).
    cbn [JsString.split_where]. now rewrite Hc.
  - change (String d s1 +:+ String c s2) with (String d (s1 +:+ String c s2)).
    cbn [JsString.split_where]. rewrite IH. destruct (p d); [reflexivity|].
    pose proof (split_where_nonempty p s1) as Hne.
    destruct (JsString.split_where p s1); [contradiction|reflexivity].
Qed.

Lemma split_free c s : free_of c s -> JsString.split c s = [s].
Proof.
  unfold free_of, JsString.split.
  induction s as [|d s IH]; intros Hfree; [reflexivity|].
  apply indexOf_cons_None in Hfree as [Hne Hfree].
  cbn [JsString.split_where]. rewrite (IH Hfree).
  destruct (Ascii.eqb_spec c d) as [->|_]; [now destruct Hne|reflexivity].
Qed.

Lemma split_pieces_free c s : Forall (free_of c) (JsString.split c s).
Proof.
  unfold free_of, JsString.split.
  induction s as [|d s IH]; cbn [JsString.split_where].
  - now constructor.
  - destruct (Ascii.eqb_spec c d) as [->|Hne].
    + now constructor.
    + pose proof (split_where_nonempty (Ascii.eqb c) s) as Hnil.
      destruct (JsString.split_where (Ascii.eqb c) s) as [|f fs];
        [contradiction|].
      inversion IH as [|? ? Hf Hfs]. subst. constructor; [|assumption].
      apply indexOf_cons_None. split; [congruence|assumption].
Qed.

Lemma split_app c s1 s2 :
  JsString.split c (s1 +:+ String c s2)
  = JsString.split c s1 ++ JsString.split c s2.
Proof. apply split_where_app, Ascii.eqb_refl. Qed.

(** X17: [parseModuleFunctionPattern] gives, for every pattern, a module
    and a function without [!] and a module that is not empty, so that the
    query built of them has one [!], between the two; and the function is
    empty for the empty pattern only. *)
Theorem parseModuleFunctionPattern_parts (pattern : string) :
  free_of "!" (parseModuleFunctionPattern pattern).1
  /\ free_of "!" (parseModuleFunctionPattern pattern).2
  /\ (parseModuleFunctionPattern pattern).1 <> EmptyString
  /\ ((parseModuleFunctionPattern pattern).2 = EmptyString ->
      pattern = EmptyString).
Proof.
  unfold parseModuleFunctionPattern.
  pose proof (split_pieces_free "!" pattern) as Hfree.
  pose proof (split_free "!" pattern) as Hone.
  destruct (JsString.split "!" pattern) as [|m [|f rest]] eqn:Hsplit;
    cbn [take fst snd].
  - now apply split_where_nonempty in Hsplit.
  - inversion Hfree as [|? ? Hm _]. subst.
    split; [reflexivity|]. split; [exact Hm|]. split; [discriminate|].
    intros ->. destruct pattern as [|c pattern]; [reflexivity|].
    unfold JsString.split in Hsplit. cbn [JsString.split_where] in Hsplit.
    destruct (Ascii.eqb "!" c).
    + injection Hsplit as Hnil. now apply split_where_nonempty in Hnil.
    + destruct (JsString.split_where _ pattern); discriminate.
  - inversion Hfree as [|? ? Hm Hrest]. inversion Hrest as [|? ? Hf _]. subst.
    split; [destruct m; [reflexivity|exact Hm]|].
    split; [destruct f; [reflexivity|exact Hf]|].
    split; [destruct m; discriminate|]. destruct f; discriminate.
Qed.

(** X18: [parseModuleFunctionPattern] takes a pattern apart at its first
    [!]: [module!function] gives the module and the function, with [*] for
    one that is empty; what follows a second [!] is dropped; and a pattern
    without [!] is a function of any module. *)
Theorem parseModuleFunctionPattern_round_trip (m f rest : string) :
  free_of "!" m -> free_of "!" f ->
  parseModuleFunctionPattern (m +:+ "!" +:+ f)
  = (match m with EmptyString => "*" | _ => m end,
     match f with EmptyString => "*" | _ => f end)
  /\ parseModuleFunctionPattern (m +:+ "!" +:+ f +:+ "!" +:+ rest)
     = parseModuleFunctionPattern (m +:+ "!" +:+ f)
  /\ parseModuleFunctionPattern f = ("*", f).
Proof.
  intros Hm Hf. unfold parseModuleFunctionPattern.
  rewrite !append_char, !split_app, !(split_free "!" m Hm),
    !(split_free "!" f Hf).
  cbn [app take]. easy.
Qed.

(** X19: a module function is named by the last two pieces of the name of
    its match and a Swift function by the first two: for a name
    [a!module!function] the first is [function] of [module] and the second
    [module] of [a]; for a name [module!function] both are [function] of
    [module]. *)
Theorem targets_from_match_names (a m f : string) (address : NativeId) :
  free_of "!" a -> free_of "!" m -> free_of "!" f ->
  moduleFunctionTargetFromMatch
    {| match_name := a +:+ "!" +:+ m +:+ "!" +:+ f; match_address := address |}
  = (NativeC, m, MemberBare f)
  /\ swiftFuncTargetFromMatch
       {| match_name := a +:+ "!" +:+ m +:+ "!" +:+ f;
          match_address := address |}
     = (NativeSwift, a, MemberBare m)
  /\ moduleFunctionTargetFromMatch
       {| match_name := m +:+ "!" +:+ f; match_address := address |}
     = (NativeC, m, MemberBare f)
  /\ swiftFuncTargetFromMatch
       {| match_name := m +:+ "!" +:+ f; match_address := address |}
     = (NativeSwift, m, MemberBare f).
Proof.
  intros Ha Hm Hf.
  unfold moduleFunctionTargetFromMatch, swiftFuncTargetFromMatch.
  cbn [match_name].
  rewrite !append_char, !split_app, !(split_free "!" a Ha),
    !(split_free "!" m Hm), !(split_free "!" f Hf).
  easy.
Qed.

End ParserFacts.

(** ** The Java part of the plan *)

Section JavaPlanFacts.
Import TargetPlan Provisioning Session JavaPlan.

Lemma java_lookup_class (groups : list JavaTargetGroup) l c bare :
  java_lookup groups l c bare
  = match find_group l groups with
    | Some (_, g) => class_lookup (classes g) c bare
    | None => None
    end.
Proof.
  unfold java_lookup, class_lookup.
  now destruct (find_group l groups) as [[i g]|].
Qed.

Lemma find_group_lookup l (groups : list JavaTargetGroup) i g :
  find_group l groups = Some (i, g) -> groups !! i = Some g.
Proof.
  revert i. induction groups as [|g0 groups IH]; intros i; cbn [find_group];
    [discriminate|].
  destruct (same_loader (loader g0) l).
  - intros Heq. now injection Heq as <- <-.
  - destruct (find_group l groups) as [[j gj]|]; [|discriminate].
    intros Heq. injection Heq as <- <-. now apply IH.
Qed.

(** Replacing a group by one of the same loader leaves every loader the
    group it had, but for the replacement. *)
Lemma find_group_insert_same l (groups : list JavaTargetGroup) i g0 g' :
  groups !! i = Some g0 -> loader g' = loader g0 ->
  find_group l (<[i := g']> groups)
  = match find_group l groups with
    | Some (j, g) => Some (j, if decide (j = i) then g' else g)
    | None => None
    end.
Proof.
  revert i. induction groups as [|g groups IH]; intros i Hi Hl;
    [discriminate|].
  destruct i as [|i]; cbn [find_group].
  - injection Hi as ->. change (<[0 := g']> (g0 :: groups)) with (g' :: groups).
    cbn [find_group]. rewrite Hl. destruct (same_loader (loader g0) l);
      [reflexivity|].
    destruct (find_group l groups) as [[j gj]|]; reflexivity.
  - change (<[S i := g']> (g :: groups)) with (g :: <[i := g']> groups).
    cbn [find_group]. destruct (same_loader (loader g) l); [reflexivity|].
    rewrite (IH i Hi Hl).
    destruct (find_group l groups) as [[j gj]|]; [|reflexivity].
    cbn. destruct (decide (j = i)) as [->|Hne].
    + now rewrite decide_True.
    + rewrite decide_False by lia. reflexivity.
Qed.

Lemma find_group_app l (groups : list JavaTargetGroup) g i g0 :
  find_group l groups = Some (i, g0) ->
  find_group l (groups ++ [g]) = Some (i, g0).
Proof.
  revert i. induction groups as [|g1 groups IH]; intros i; cbn [find_group app];
    [discriminate|].
  destruct (same_loader (loader g1) l); [easy|].
  destruct (find_group l groups) as [[j gj]|]; [|discriminate].
  intros Heq. injection Heq as <- <-. now rewrite (IH j eq_refl).
Qed.

Lemma JsMap_keys_set_existing {V : Type} (k : string) (v v' : V)
  (m : JsMap.t string V) :
  JsMap.get k m = Some v' -> JsMap.keys (JsMap.set k v m) = JsMap.keys m.
Proof.
  unfold JsMap.keys. induction m as [|[k0 v0] m IH]; cbn [JsMap.get JsMap.set];
    [discriminate|].
  destruct (decide (k0 = k)) as [->|Hne]; [reflexivity|].
  intros Hget. cbn [fmap list_fmap fst]. f_equal. now apply IH.
Qed.

Lemma JsMap_get_delete_other {V : Type} (k k' : string)
  (m : list (string * V)) :
  k <> k' -> JsMap.get k' (JsMap.delete k m) = JsMap.get k' m.
Proof.
  intros Hne. unfold JsMap.delete.
  induction m as [|[k0 v0] m IH]; [reflexivity|].
  rewrite filter_cons. cbn [fst JsMap.get].
  destruct (decide (k0 <> k)) as [Hk|Hk].
  - cbn [JsMap.get]. now rewrite IH.
  - rewrite IH. destruct (decide (k0 = k')) as [->|_]; [|reflexivity].
    destruct Hk. congruence.
Qed.

Lemma grown_refl x : grown x x.
Proof. intros sig ->. eauto. Qed.

Lemma grown_trans x y z : grown x y -> grown y z -> grown x z.
Proof.
  intros Hxy Hyz sig Hx. destruct (Hxy sig Hx) as (sig1 & Hy & Hle1).
  destruct (Hyz sig1 Hy) as (sig2 & Hz & Hle2). exists sig2. split; [easy|lia].
Qed.

Lemma shrunk_refl x : shrunk x x.
Proof. now intros sig. Qed.

Lemma shrunk_trans x y z : shrunk x y -> shrunk y z -> shrunk x z.
Proof. intros Hxy Hyz sig Hz. auto. Qed.

(** *** Inclusion *)

Lemma include_method_grown (ms : list (string * string)) methodName bare :
  grown (JsMap.get bare ms) (JsMap.get bare (include_method ms methodName)).
Proof.
  destruct (decide (javaBareMethodNameFromMethodName methodName = bare))
    as [<-|Hne].
  - rewrite include_method_lookup. intros sig ->. cbn [merged].
    destruct (String.length sig <? String.length methodName)%nat eqn:Hlt.
    + exists methodName. split; [reflexivity|].
      apply Nat.ltb_lt in Hlt. lia.
    + eauto.
  - unfold include_method.
    destruct (JsMap.get (javaBareMethodNameFromMethodName methodName) ms);
      rewrite JsMap_get_set_other by assumption; apply grown_refl.
Qed.

Lemma include_methods_grown (names : list string) bare :
  forall ms : list (string * string),
    grown (JsMap.get bare ms)
      (JsMap.get bare (fold_left include_method names ms)).
Proof.
  induction names as [|n names IH]; intros ms; cbn [fold_left];
    [apply grown_refl|].
  eapply grown_trans; [apply include_method_grown|apply IH].
Qed.

Lemma include_class_grown (cs : list (string * JavaTargetClass)) klass c bare :
  grown (class_lookup cs c bare) (class_lookup (include_class cs klass) c bare).
Proof.
  unfold class_lookup, include_class.
  destruct (decide (class_name klass = c)) as [<-|Hne].
  - destruct (JsMap.get (class_name klass) cs) as [existing|] eqn:Hget;
      rewrite JsMap_get_set_same; cbn [mbind option_bind methods].
    + apply include_methods_grown.
    + intros sig Hsig. discriminate.
  - destruct (JsMap.get (class_name klass) cs);
      rewrite JsMap_get_set_other by assumption; apply grown_refl.
Qed.

Lemma include_classes_grown (klasses : list EnumerateMethodsMatchClass)
  c bare :
  forall cs : list (string * JavaTargetClass),
    grown (class_lookup cs c bare)
      (class_lookup (fold_left include_class klasses cs) c bare).
Proof.
  induction klasses as [|k klasses IH]; intros cs; cbn [fold_left];
    [apply grown_refl|].
  eapply grown_trans; [apply include_class_grown|apply IH].
Qed.

Lemma include_group_grown groups group l c bare :
  grown (java_lookup groups l c bare)
    (java_lookup (include_group groups group) l c bare).
Proof.
  rewrite !java_lookup_class. unfold include_group.
  destruct (find_group (group_loader group) groups) as [[i eg]|] eqn:Hfind.
  - rewrite (find_group_insert_same l groups i eg)
      by (eauto using find_group_lookup).
    destruct (find_group l groups) as [[j g]|] eqn:Hl; [|apply grown_refl].
    destruct (decide (j = i)) as [->|Hne]; [|apply grown_refl].
    apply find_group_lookup in Hfind, Hl.
    assert (g = eg) by congruence. subst g. cbn [classes].
    apply include_classes_grown.
  - destruct (find_group l groups) as [[j g]|] eqn:Hl.
    + rewrite (find_group_app l groups _ j g Hl). apply grown_refl.
    + intros sig Hsig. discriminate.
Qed.

(** X20: [includeJavaMethod] never takes a method out of the plan and
    never shortens what the plan holds for it: a method of a class of a
    loader that has a signature in the plan has one afterwards, the same or
    a longer one; and the native part of the plan is as it was. *)
Theorem includeJavaMethod_never_removes `{JavaRuntime} (pattern : string)
  (plan : TracePlan) (l : option Loader) (c bare signature : string) :
  java_lookup (java plan) l c bare = Some signature ->
  (exists signature',
     java_lookup (java (includeJavaMethod pattern plan)) l c bare
     = Some signature'
     /\ String.length signature <= String.length signature')
  /\ native (includeJavaMethod pattern plan) = native plan.
Proof.
  intros Hsig. split; [|reflexivity].
  unfold includeJavaMethod. cbn [java with_java].
  assert (Hall : forall matches groups,
             grown (java_lookup groups l c bare)
               (java_lookup (fold_left include_group matches groups)
                  l c bare)).
  { induction matches as [|group matches IH]; intros groups; cbn [fold_left];
      [apply grown_refl|].
    eapply grown_trans; [apply include_group_grown|apply IH]. }
  exact (Hall _ _ signature Hsig).
Qed.

(** *** Exclusion *)

Lemma exclude_methods_shrunk (names : list string) bare :
  forall ms : list (string * string),
    shrunk (JsMap.get bare ms)
      (JsMap.get bare
         (fold_left
            (fun existingMethods methodName =>
               JsMap.delete (javaBareMethodNameFromMethodName methodName)
                 existingMethods)
            names ms)).
Proof.
  induction names as [|n names IH]; intros ms; cbn [fold_left];
    [apply shrunk_refl|].
  eapply shrunk_trans; [|apply IH].
  destruct (decide (javaBareMethodNameFromMethodName n = bare)) as [<-|Hne].
  - rewrite JsMap_get_delete_same. intros sig Hsig. discriminate.
  - rewrite JsMap_get_delete_other by assumption. apply shrunk_refl.
Qed.

Lemma exclude_class_shrunk (cs : list (string * JavaTargetClass)) klass c bare :
  shrunk (class_lookup cs c bare) (class_lookup (exclude_class cs klass) c bare).
Proof.
  unfold class_lookup, exclude_class.
  destruct (JsMap.get (class_name klass) cs) as [existing|] eqn:Hget;
    [|apply shrunk_refl].
  destruct (decide (class_name klass = c)) as [<-|Hne].
  - rewrite JsMap_get_set_same, Hget. cbn [mbind option_bind methods].
    apply exclude_methods_shrunk.
  - rewrite JsMap_get_set_other by assumption. apply shrunk_refl.
Qed.

Lemma exclude_class_keys (cs : list (string * JavaTargetClass)) klass :
  JsMap.keys (exclude_class cs klass) = JsMap.keys cs.
Proof.
  unfold exclude_class.
  destruct (JsMap.get (class_name klass) cs) as [existing|] eqn:Hget;
    [|reflexivity].
  now apply (JsMap_keys_set_existing _ _ existing).
Qed.

Lemma exclude_classes (klasses : list EnumerateMethodsMatchClass) :
  forall cs : list (string * JavaTargetClass),
    JsMap.keys (fold_left exclude_class klasses cs) = JsMap.keys cs
    /\ forall c bare,
         shrunk (class_lookup cs c bare)
           (class_lookup (fold_left exclude_class klasses cs) c bare).
Proof.
  induction klasses as [|k klasses IH]; intros cs; cbn [fold_left].
  - split; [reflexivity|]. intros c bare. apply shrunk_refl.
  - destruct (IH (exclude_class cs k)) as [Hkeys Hshrunk].
    split; [now rewrite Hkeys, exclude_class_keys|].
    intros c bare. eapply shrunk_trans; [apply exclude_class_shrunk|].
    apply Hshrunk.
Qed.

Lemma exclude_group_facts groups group :
  class_names (exclude_group groups group) = class_names groups
  /\ forall l c bare,
       shrunk (java_lookup groups l c bare)
         (java_lookup (exclude_group groups group) l c bare).
Proof.
  unfold exclude_group.
  destruct (find_group (group_loader group) groups) as [[i eg]|] eqn:Hfind.
  2:{ split; [reflexivity|]. intros l c bare. apply shrunk_refl. }
  pose proof (find_group_lookup _ _ _ _ Hfind) as Hi.
  destruct (exclude_classes (group_classes group) (classes eg))
    as [Hkeys Hshrunk].
  split.
  - unfold class_names. rewrite list_fmap_insert. cbn [loader classes].
    rewrite Hkeys. apply list_insert_id.
    now rewrite list_lookup_fmap, Hi.
  - intros l c bare. rewrite !java_lookup_class.
    rewrite (find_group_insert_same l groups i eg) by easy.
    destruct (find_group l groups) as [[j g]|] eqn:Hl; [|apply shrunk_refl].
    destruct (decide (j = i)) as [->|Hne]; [|apply shrunk_refl].
    apply find_group_lookup in Hl. assert (g = eg) by congruence. subst g.
    cbn [classes]. apply Hshrunk.
Qed.

Lemma request_scope_names (groups : list JavaTargetGroup) :
  map scope_name (java_request_scopes groups)
  = concat (class_names groups).*2.
Proof.
  unfold java_request_scopes, class_names, JsMap.entries, JsMap.keys.
  induction groups as [|g groups IH]; [reflexivity|].
  cbn [flat_map map fmap list_fmap concat snd]. rewrite map_app, IH.
  f_equal. rewrite map_map. reflexivity.
Qed.

(** X21: [excludeJavaMethod] removes methods and nothing else: the plan
    keeps its loaders and, for each, its classes, in their order, also a
    class that is left without any method, so that the request for the
    handlers has the same scopes as before, some of them without members; a
    method that has a signature afterwards had that signature before; and
    the native part of the plan is as it was. *)
Theorem excludeJavaMethod_keeps_classes `{JavaRuntime} (pattern : string)
  (plan : TracePlan) :
  class_names (java (excludeJavaMethod pattern plan)) = class_names (java plan)
  /\ map scope_name (java_request_scopes (java (excludeJavaMethod pattern plan)))
     = map scope_name (java_request_scopes (java plan))
  /\ (forall l c bare signature,
        java_lookup (java (excludeJavaMethod pattern plan)) l c bare
        = Some signature ->
        java_lookup (java plan) l c bare = Some signature)
  /\ native (excludeJavaMethod pattern plan) = native plan.
Proof.
  assert (Hall : class_names (java (excludeJavaMethod pattern plan))
                 = class_names (java plan)
                 /\ forall l c bare,
                      shrunk (java_lookup (java plan) l c bare)
                        (java_lookup (java (excludeJavaMethod pattern plan))
                           l c bare)).
  { unfold excludeJavaMethod. cbn [java with_java]. generalize (java plan).
    induction (java_enumerateMethods pattern) as [|group matches IH];
      intros groups; cbn [fold_left].
    - split; [reflexivity|]. intros l c bare. apply shrunk_refl.
    - destruct (exclude_group_facts groups group) as [Hn Hs].
      destruct (IH (exclude_group groups group)) as [Hn' Hs'].
      split; [now rewrite Hn', Hn|].
      intros l c bare. eapply shrunk_trans; [apply Hs|apply Hs']. }
  destruct Hall as [Hnames Hshrunk].
  split; [exact Hnames|]. split; [now rewrite !request_scope_names, Hnames|].
  split; [|reflexivity]. intros l c bare sig. apply Hshrunk.
Qed.

End JavaPlanFacts.

(** ** Objective-C type encodings *)

Section ObjCTypesFacts.
Import TargetPlan ObjCTypes.

Lemma strip_qualifiers_app q s :
  qualifiers q = true -> strip_qualifiers (q +:+ s) = strip_qualifiers s.
Proof.
  induction q as [|c q IH]; intros Hq; [reflexivity|].
  cbn [qualifiers] in Hq. apply andb_true_iff in Hq as [Hc Hq].
  change (String c q +:+ s) with (String c (q +:+ s)).
  cbn [strip_qualifiers]. rewrite Hc. now apply IH.
Qed.

Lemma strip_qualifiers_split s :
  exists q, qualifiers q = true /\ s = q +:+ strip_qualifiers s.
Proof.
  induction s as [|c s (q & Hq & Hs)]; [now exists EmptyString|].
  cbn [strip_qualifiers]. destruct (is_qualifier c) eqn:Hc.
  - exists (String c q). cbn [qualifiers]. rewrite Hc, Hq.
    split; [reflexivity|].
    change (String c q +:+ strip_qualifiers s)
      with (String c (q +:+ strip_qualifiers s)).
    now rewrite <- Hs.
  - now exists EmptyString.
Qed.

(** X24: [isObjcType] holds exactly of the encodings [@] and [#] behind any
    number of type qualifiers.  An encoding that goes on after the [@], as
    that of a block or of an object with its class name, is not one, nor is
    a pointer to an object. *)
Theorem isObjcType_exactly (typeStr : string) :
  isObjcType (Some typeStr) = true
  <-> exists q, qualifiers q = true
                /\ (typeStr = q +:+ "@" \/ typeStr = q +:+ "#").
Proof.
  split.
  - cbn [isObjcType]. destruct (strip_qualifiers_split typeStr)
      as (q & Hq & Hsplit).
    destruct (strip_qualifiers typeStr) as [|c [|d rest]]; try discriminate.
    intros Hc. exists q. split; [exact Hq|].
    apply orb_true_iff in Hc as [Hc|Hc]; apply Ascii.eqb_eq in Hc; subst c;
      [now left|now right].
  - intros (q & Hq & [-> | ->]); cbn [isObjcType];
      now rewrite strip_qualifiers_app.
Qed.

Lemma argInfo_fold (argumentType : nat -> option string) (i : nat) :
  forall count first (argInfo : gmap nat bool),
    2 <= first ->
    fold_left
      (fun argInfo argIndex =>
         if isObjcType (argumentType argIndex)
         then <[argIndex - 2 := true]> argInfo
         else argInfo)
      (seq first count) argInfo !! i
    = if bool_decide (first <= i + 2 < first + count)
         && isObjcType (argumentType (i + 2))
      then Some true
      else argInfo !! i.
Proof.
  induction count as [|count IH]; intros first argInfo Hfirst;
    cbn [seq fold_left].
  - rewrite bool_decide_eq_false_2 by lia. reflexivity.
  - rewrite IH by lia.
    destruct (decide (first = i + 2)) as [->|Hne].
    + rewrite bool_decide_eq_false_2 by lia.
      rewrite bool_decide_eq_true_2 by lia. cbn [andb].
      destruct (isObjcType (argumentType (i + 2))); [|reflexivity].
      replace (i + 2 - 2) with i by lia. apply lookup_insert_eq.
    + destruct (decide (S first <= i + 2 < S first + count)) as [Hin|Hout].
      * rewrite !bool_decide_eq_true_2 by lia. cbn [andb].
        destruct (isObjcType (argumentType (i + 2))); [reflexivity|].
        destruct (isObjcType (argumentType first)); [|reflexivity].
        apply lookup_insert_ne. lia.
      * rewrite !bool_decide_eq_false_2 by lia. cbn [andb].
        destruct (isObjcType (argumentType first)); [|reflexivity].
        apply lookup_insert_ne. lia.
Qed.

(** X25: the signature that [methdTypeSignatureOf] gives marks the
    arguments that are objects or classes, counted from the first argument
    behind the receiver and the selector, and holds nothing for the others:
    no position is marked [false]. *)
Theorem methdTypeSignatureOf_argInfo (numberOfArg : nat)
  (argumentType : nat -> option string) (returnType : option string)
  (i : nat) :
  argInfo (methdTypeSignatureOf numberOfArg argumentType returnType) !! i
  = (if bool_decide (i + 2 < numberOfArg)
        && isObjcType (argumentType (i + 2))
     then Some true
     else None)
  /\ retType (methdTypeSignatureOf numberOfArg argumentType returnType)
     = isObjcType returnType.
Proof.
  split; [|reflexivity]. cbn [methdTypeSignatureOf argInfo].
  rewrite argInfo_fold by lia. rewrite lookup_empty.
  destruct (decide (i + 2 < numberOfArg)).
  - now rewrite !bool_decide_eq_true_2 by lia.
  - now rewrite !bool_decide_eq_false_2 by lia.
Qed.

End ObjCTypesFacts.

(** ** From [init] to [agent:started] *)

Section LifecycleFacts.
Import TargetPlan Provisioning Dispatch Session Registry Rules Lifecycle.
Context {Param TraceState : Type} `{!Frida Param TraceState}.
Context `{!NativeRuntime} `{!ObjCRuntime} `{!RegExpEngine} `{!JavaRuntime}.
Implicit Types (w : World Param TraceState).

Lemma phase_no_error host w w' c message :
  sent w = [] ->
  phase host w w' c ->
  AgentError message
  ∉ sent match c with
         | Done => send (AgentStarted (size (handlers w'))) w'
         | Pending => w'
         end.
Proof.
  intros Hw (ms & Hms & Hnone & _). rewrite Hw in Hms. cbn [app] in Hms.
  assert (Hno : AgentError message ∉ ms).
  { intros Hin. rewrite Forall_forall in Hnone.
    specialize (Hnone _ Hin). discriminate. }
  destruct c; cbn [sent send]; rewrite Hms; [|exact Hno].
  intros Hin. apply elem_of_app in Hin as [Hin|Hin]; [now apply Hno|].
  apply list_elem_of_singleton in Hin. discriminate.
Qed.

(** X26: when [init] has loaded its scripts and [agent:error] is sent in a
    session that had sent nothing, it is the only message sent: no handler
    was requested, and the handler table, the id counter and the probes are
    as they were.  Its message is that of the error that the loop over the
    specification threw, or it tells that the Java runtime is not there
    while the specification has a rule of the scope [java-method]. *)
Theorem error_ends_start (initScripts : list InitScript) (host : Host)
  (spec : TraceSpec) w w' (message : string) :
  init initScripts host spec w = inl w' ->
  sent w = [] ->
  AgentError message ∈ sent w' ->
  sent w' = [AgentError message]
  /\ handlers w' = handlers w
  /\ nextId w' = nextId w
  /\ listeners w' = listeners w
  /\ wrappers w' = wrappers w
  /\ (resolve spec = inr message
      \/ (message = "Java runtime is not available"
          /\ java_available = false
          /\ java_rules spec <> []
          /\ exists st, resolve spec = inl st)).
Proof.
  unfold init. destruct (load_scripts initScripts); [discriminate|].
  intros Hinit Hw Herr. injection Hinit as <-.
  destruct (resolve spec) as [[plan q]|failure] eqn:Hres.
  - destruct (decide (q <> [] -> java_available = true)) as [Hjava|Hjava].
    + destruct (start_phase host q plan w Hjava) as (w1 & c & P & Hstart).
      rewrite Hstart in Herr.
      now apply (phase_no_error host w w1 c message Hw P) in Herr.
    + assert (Hq : q <> [] /\ java_available = false).
      { destruct q; [destruct Hjava; intros Hne; now destruct Hne|].
        split; [discriminate|]. destruct java_available; [|reflexivity].
        destruct Hjava. reflexivity. }
      destruct Hq as [Hq Hno]. unfold start in *.
      destruct q as [|e es]; [now destruct Hq|]. rewrite Hno in *.
      cbn [negb sent send handlers nextId listeners wrappers] in *.
      rewrite Hw in *. cbn [app] in *.
      apply list_elem_of_singleton in Herr. injection Herr as ->.
      repeat split. right. repeat split; [|eauto].
      apply apply_rules_inv in Hres as [Hqueue _]. cbn in Hqueue.
      rewrite <- Hqueue. discriminate.
  - cbn [sent send handlers nextId listeners wrappers] in *.
    rewrite Hw in *. cbn [app] in *.
    apply list_elem_of_singleton in Herr. injection Herr as ->.
    repeat split. now left.
Qed.

End LifecycleFacts.

(** ** The handlers of the Java methods *)

Section JavaHandlersFacts.
Import TargetPlan Provisioning Dispatch Session Registry JavaPlan.
Context {Param TraceState : Type} `{!Frida Param TraceState}.
Implicit Types (w : World Param TraceState).

(** The members of the request of [traceJavaTargets] are those of the
    methods, in the order in which the methods are wrapped. *)
Lemma java_request_members (groups : list JavaTargetGroup) :
  flat_members (java_request_scopes groups)
  = map java_member (java_methods groups).
Proof.
  unfold java_request_scopes, java_methods, JsMap.entries.
  induction groups as [|g groups IH]; [reflexivity|].
  cbn [flat_map]. rewrite flat_members_app, map_app, IH. f_equal.
  induction (classes g) as [|[cn cls] rest IHc]; [reflexivity|].
  cbn [map flat_map].
  change (flat_members (?x :: ?l)) with (scope_members x ++ flat_members l).
  rewrite map_app, IHc. f_equal.
  unfold java_scope, JsMap.keys, java_member. cbn [scope_members fst snd].
  rewrite map_map. unfold fmap, list_fmap. rewrite map_map. reflexivity.
Qed.

(** What the loop of [traceJavaTargets] stores and wraps. *)
Lemma wrap_methods_handlers baseId scripts
  (ms : list (JavaClassName * JavaMethodName * string)) :
  forall w offset,
    (forall i m,
       ms !! i = Some m ->
       handlers (fold_left (wrap_method baseId scripts) ms (w, offset)).1
       !! (baseId + Z.of_nat (offset + i))%Z
       = Some (handler_of_script (script_at scripts (offset + i))))
    /\ wrappers (fold_left (wrap_method baseId scripts) ms (w, offset)).1
       = wrappers w
         ++ imap (fun i (m : JavaClassName * JavaMethodName * string) =>
                    (m.1.1, m.1.2, (baseId + Z.of_nat (offset + i))%Z))
              ms.
Proof.
  induction ms as [|m ms IH]; intros w offset; cbn [fold_left].
  - cbn. rewrite app_nil_r. split; [|reflexivity]. intros i m Hi.
    destruct i; discriminate.
  - destruct m as [[className bareName] fullName]. cbn [wrap_method].
    pose proof (parseHandler_handler fullName (script_at scripts offset) w)
      as Hhandler.
    destruct (parseHandler_fields fullName (script_at scripts offset) w)
      as (Hh & _ & _ & Hwr).
    destruct (parseHandler fullName (script_at scripts offset) w)
      as [handler w1]. cbn [fst snd] in Hhandler, Hh, Hwr.
    match goal with
    | |- context [fold_left _ ms (?x, S offset)] =>
        destruct (IH x (S offset)) as (H1 & H2);
        destruct (wrap_methods_detail baseId scripts ms x (S offset))
          as (_ & Hout & _)
    end.
    cbn [handlers wrappers add_wrapper set_handler] in *.
    split.
    + intros [|i] m Hi.
      * rewrite Nat.add_0_r, Hout by lia. rewrite Hhandler.
        apply lookup_insert_eq.
      * change (ms !! i = Some m) in Hi. specialize (H1 i m Hi).
        now replace (offset + S i) with (S offset + i) by lia.
    + rewrite H2, Hwr, <- app_assoc. apply (f_equal (app _)).
      rewrite imap_cons. cbn [fst snd]. rewrite Nat.add_0_r.
      apply (f_equal (cons _)), imap_ext. intros i x _. cbn [compose].
      now replace (offset + S i) with (S offset + i) by lia.
Qed.

(** X27: when the host answers every request with one script per member,
    in order, [traceJavaTargets] gives the i-th method of the plan the id
    [nextId + i], stores under it the handler parsed from the script that
    the host wrote for the member of that method under that id, and wraps
    the method of that class under that id; it adds no listener, and the id
    counter moves past the ids of the methods.  (The lookups of the Java
    bridge are taken to succeed.) *)
Theorem every_java_method_gets_its_handler (host : Host)
  (answer : Z -> MemberName -> HandlerScript)
  (groups : list JavaTargetGroup) w (i : nat)
  (m : JavaClassName * JavaMethodName * string) :
  answers_in_order host answer ->
  java_methods groups !! i = Some m ->
  handlers (traceJavaTargets host groups w).1 !! (nextId w + Z.of_nat i)%Z
  = Some (handler_of_script
            (answer (nextId w + Z.of_nat i)%Z (java_member m)))
  /\ (m.1.1, m.1.2, (nextId w + Z.of_nat i)%Z)
     ∈ wrappers (traceJavaTargets host groups w).1
  /\ listeners (traceJavaTargets host groups w).1 = listeners w
  /\ nextId (traceJavaTargets host groups w).1
     = (nextId w + Z.of_nat (length (java_methods groups)))%Z.
Proof.
  intros Hhost Hi. unfold traceJavaTargets.
  fold (java_request_scopes groups).
  match goal with
  | |- context [getHandlers host ?req] =>
      destruct (getHandlers_in_order host answer req Hhost) as (reqs & ->)
  end.
  cbn [baseId scopes scripts]. rewrite java_request_members, length_map.
  set (ms := java_methods groups) in *.
  set (w1 := advance_nextId (length ms) w).
  destruct (send_all_fields reqs w1) as (Hh & Hn & Hl & Hwr).
  set (w2 := fold_left (fun w r => send (HandlersGet r) w) reqs w1) in *.
  set (scr := imap (fun k x => answer (nextId w + Z.of_nat k)%Z x)
                (map java_member ms)).
  destruct (wrap_methods_handlers (nextId w) scr ms w2 0) as (H1 & H2).
  destruct (wrap_methods_detail (nextId w) scr ms w2 0)
    as (_ & _ & H3 & H4 & _).
  cbn [fst snd]. split; [|split; [|split]].
  - specialize (H1 i m Hi). cbn [Nat.add] in H1. rewrite H1. do 2 f_equal.
    unfold script_at, scr.
    rewrite list_lookup_imap. change (map java_member ms) with (java_member <$> ms).
    rewrite list_lookup_fmap, Hi. reflexivity.
  - rewrite H2. apply elem_of_app. right.
    apply (elem_of_lookup_imap_2
             (fun i (m : JavaClassName * JavaMethodName * string) =>
                (m.1.1, m.1.2, (nextId w + Z.of_nat (0 + i))%Z)) ms m i Hi).
  - now rewrite H3, Hl.
  - now rewrite H4, Hn.
Qed.

End JavaHandlersFacts.

(** ** Classes made of one enumeration *)

Section JavaMatchFacts.
Import TargetPlan.

(** [new Map(pairs)] holds, for a key, the value of the last pair with that
    key. *)
Lemma of_entries_get {A V : Type} (key : A -> string) (value : A -> V)
  (k : string) (l : list A) :
  forall m : list (string * V),
    JsMap.get k
      (fold_left (fun m (e : string * V) => JsMap.set e.1 e.2 m)
         (map (fun x => (key x, value x)) l) m)
    = match last (filter (fun x => key x = k) l) with
      | Some x => Some (value x)
      | None => JsMap.get k m
      end.
Proof.
  induction l as [|x l IH]; intros m; cbn [map fold_left]; [reflexivity|].
  rewrite IH, filter_cons. cbn [fst snd].
  destruct (decide (key x = k)) as [<-|Hne].
  - rewrite last_cons. destruct (last (filter _ l)); [reflexivity|].
    apply JsMap_get_set_same.
  - destruct (last (filter _ l)); [reflexivity|].
    now apply JsMap_get_set_other.
Qed.

(** X28: a class made of one enumeration holds, for a bare name, the last
    of the overloads of that name in the enumeration, whatever their
    lengths, and nothing for a bare name without an overload; and a group
    made of one enumeration holds, for a class name, the class made of the
    last match of that name. *)
Theorem javaTargetClassFromMatchClass_last_overload
  (group : EnumerateMethodsMatchGroup) (klass : EnumerateMethodsMatchClass)
  (className bare : string) :
  JsMap.get bare (methods (javaTargetClassFromMatchClass klass))
  = last (filter
            (fun fullName => javaBareMethodNameFromMethodName fullName = bare)
            (class_methods klass))
  /\ JsMap.get className (classes (javaTargetGroupFromMatchGroup group))
     = javaTargetClassFromMatchClass
       <$> last (filter (fun k => class_name k = className)
                   (group_classes group))
  /\ loader (javaTargetGroupFromMatchGroup group) = group_loader group.
Proof.
  split; [|split; [|reflexivity]].
  - unfold javaTargetClassFromMatchClass, JsMap.of_entries. cbn [methods].
    rewrite (of_entries_get javaBareMethodNameFromMethodName (fun x => x)).
    now destruct (last _).
  - unfold javaTargetGroupFromMatchGroup, JsMap.of_entries. cbn [classes].
    rewrite (of_entries_get class_name javaTargetClassFromMatchClass).
    now destruct (last _).
Qed.

End JavaMatchFacts.

(** ** The names of Objective-C methods *)

Section ObjCNameFacts.
Import TargetPlan Rules.

Lemma take_append s t : JsString.take (String.length s) (s +:+ t) = s.
Proof.
  induction s as [|c s IH]; [now destruct t|].
  change (String c s +:+ t) with (String c (s +:+ t)).
  cbn [String.length JsString.take]. now rewrite IH.
Qed.

Lemma length_append s t :
  String.length (s +:+ t) = String.length s + String.length t.
Proof.
  induction s as [|c s IH]; [reflexivity|].
  change (String c s +:+ t) with (String c (s +:+ t)).
  cbn [String.length]. now rewrite IH.
Qed.

(** X29: the target of a match of the Objective-C resolver named
    [-[Class selector]] or [+[Class selector]] has the class for its scope
    and the selector for its name, is displayed under the whole name of the
    match, and carries the signature of the method. *)
Theorem objcMethodTargetFromMatch_parts `{ObjCRuntime} (kind : ascii)
  (className selector : string) (address : NativeId) :
  free_of " " className -> free_of " " selector ->
  let name :=
    String kind ("[" +:+ className +:+ " " +:+ selector +:+ "]") in
  let m := {| match_name := name; match_address := address |} in
  objcMethodTargetFromMatch m
  = (NativeObjC, className, MemberTyped selector name (objc_signature m)).
Proof.
  intros Hclass Hselector name m. unfold objcMethodTargetFromMatch.
  assert (Hparts : objc_name_parts (match_name m) = (className, selector)).
  { unfold objc_name_parts. cbn [match_name m]. subst name.
    rewrite append_char. cbn [JsString.drop String.length].
    replace (S (S (String.length
                     (className +:+ " " +:+ selector +:+ "]"))) - 3)
      with (String.length (className +:+ " " +:+ selector)).
    2:{ rewrite !length_append. cbn [String.length]. lia. }
    replace (className +:+ " " +:+ selector +:+ "]")
      with ((className +:+ " " +:+ selector) +:+ "]").
    2:{ clear. induction className as [|c s IH]; cbn.
        - reflexivity.
        - change (String c s +:+ ?t) with (String c (s +:+ t)).
          now rewrite <- IH. }
    rewrite take_append, append_char, split_app.
    rewrite (split_free " " className Hclass),
      (split_free " " selector Hselector).
    reflexivity. }
  now rewrite Hparts.
Qed.

End ObjCNameFacts.

(** ** Worked examples *)

Section Examples.
Import TargetPlan Provisioning Dispatch Session Registry Batcher Threads.
Import JavaDispatch Rules JavaPlan Lifecycle Samples MoreSamples.

(** After two events, a flush and a third event, a flush is scheduled. *)
Lemma flush_stays_scheduled_witness :
  scheduled (run sample_steps fresh_agent).1
  /\ (flush (flush (run sample_steps fresh_agent).1).1).2 = None.
Proof.
  apply (flush_stays_scheduled sample_steps fresh_agent).
  intros Hne. now destruct Hne.
Defined.

(** The exit of the outer call of the thread 1 reports the depth 0 of its
    entry. *)
Lemma exit_reports_depth_of_entry_witness :
  (updateDepth 1%Z Leave
     (depth_after sample_calls (updateDepth 1%Z Enter ∅).1)).2
  = (updateDepth 1%Z Enter ∅).2.
Proof.
  apply (exit_reports_depth_of_entry 1%Z sample_calls ∅). reflexivity.
Defined.

(** The third request for 2500 functions has the id 2001 and the last 500
    functions. *)
Lemma getHandlers_request_sizes_witness :
  exists r,
    (getHandlers answering_host (request_of 2500)).1 !! 2 = Some r
    /\ baseId r = 2001%Z
    /\ length (flat_members (scopes r)) = 500.
Proof.
  destruct ((getHandlers answering_host (request_of 2500)).1 !! 2) as [r|]
    eqn:Hr.
  - exists r. split; [reflexivity|].
    destruct (getHandlers_request_sizes answering_host (request_of 2500) 2 r)
      as (Hid & Hlen & _).
    + intros req. unfold answering_host. eauto.
    + exact Hr.
    + rewrite Hid, Hlen. split; vm_compute; reflexivity.
  - vm_compute in Hr. discriminate.
Defined.

(** The function [bar] of [libfoo] gets the id 1, the handler of the
    script written for it under that id, and a listener at its address. *)
Lemma every_target_gets_its_handler_witness :
  handlers
    (@traceNativeTargets _ _ accepting_interceptor answering_host
       (native bar_plan) new_world).1 !! 1%Z
  = Some (@handler_of_script _ _ accepting_interceptor
            (sample_answer 1 (MemberBare "bar")))
  /\ ("0x1000", 1%Z)
     ∈ listeners
         (@traceNativeTargets _ _ accepting_interceptor answering_host
            (native bar_plan) new_world).1.
Proof.
  destruct (@every_target_gets_its_handler _ _ accepting_interceptor
              answering_host sample_answer (native bar_plan) new_world)
    as (_ & _ & Htarget).
  - intros req. reflexivity.
  - destruct (Htarget "0x1000" NativeC "libfoo" (MemberBare "bar"))
      as (k & Hk & Hhandler & Hlistener).
    + apply list_elem_of_here.
    + assert (k = 1%Z) as -> by (cbn in Hk; lia).
      split; [exact Hhandler|]. apply Hlistener. reflexivity.
Defined.

(** No listener reports under the id 5, which was not given out. *)
Lemma every_listener_has_its_target_witness :
  ("0x1000", 5%Z)
  ∉ listeners
      (@traceNativeTargets _ _ accepting_interceptor answering_host
         (native bar_plan) new_world).1.
Proof.
  intros Hin.
  destruct (@every_listener_has_its_target _ _ accepting_interceptor
              answering_host sample_answer (native bar_plan) new_world
              "0x1000" 5%Z) as [_ Hback].
  - intros req. reflexivity.
  - destruct (Hback Hin) as [Hold|(Hrange & _)].
    + cbn in Hold. now apply elem_of_nil in Hold.
    + cbn in Hrange. lia.
Defined.

(** The host answers the one request, and [agent:started] is sent. *)
Lemma started_iff_every_request_answered_witness :
  exists n,
    AgentStarted n
    ∈ sent (@start _ _ refusing_interceptor no_java answering_host []
              bar_plan new_world).
Proof.
  destruct (@started_iff_every_request_answered _ _ refusing_interceptor
              no_java answering_host [] bar_plan new_world)
    as [[_ Hstarted] _].
  - reflexivity.
  - intros Hne. now destruct Hne.
  - apply Hstarted, Forall_forall. intros r _. unfold answering_host. eauto.
Defined.


(** One target: the id 1 is taken and the id counter is at 2. *)
Lemma start_takes_consecutive_ids_witness :
  nextId
    (@start _ _ refusing_interceptor no_java answering_host [] bar_plan
       new_world)
  = 2%Z.
Proof.
  destruct (@start_takes_consecutive_ids _ _ refusing_interceptor no_java
              answering_host [] bar_plan new_world 1%Z "bar" "{}")
    as (Hnext & _).
  - reflexivity.
  - intros req. unfold answering_host. eauto.
  - intros Hne. now destruct Hne.
  - rewrite Hnext. reflexivity.
Defined.

(** The script error of [onEnter] is deferred and the caller gets the 42
    of [onLeave] for the 7 of the original. *)
Lemma java_wrapper_is_transparent_witness :
  (handleJavaInvocation "TypeError" 1005 1009 7%Z 1%Z returning_method
     sample_java_handler tt [] sample_java_agent).2
  = Returns 42%Z
  /\ deferred
       (handleJavaInvocation "TypeError" 1005 1009 7%Z 1%Z returning_method
          sample_java_handler tt [] sample_java_agent).1
     = ["boom"].
Proof.
  destruct (java_wrapper_is_transparent "TypeError" 1005 1009 7%Z 1%Z
              returning_method sample_java_handler tt [] sample_java_agent)
    as (_ & Hresult & Hdeferred).
  - exact I.
  - intros retval _. exact I.
  - split; [exact Hresult|exact Hdeferred].
Defined.

(** The original throws: the depth of the thread stays at 1. *)
Lemma java_wrapper_depth_witness :
  depth_read 7%Z
    (stackDepth
       (agent
          (handleJavaInvocation "TypeError" 1005 1009 7%Z 1%Z throwing_method
             sample_java_handler tt [] sample_java_agent).1))
  = 1%Z.
Proof.
  destruct (java_wrapper_depth "TypeError" 1005 1009 7%Z 1%Z throwing_method
              sample_java_handler tt [] sample_java_agent eq_refl)
    as (_ & Hdepth).
  exact Hdepth.
Defined.

(** The exclusion of [bar] keeps [baz] and adds nothing. *)
Lemma rules_add_or_remove_witness :
  native baz_plan `sublist_of` native libfoo_plan.
Proof.
  destruct (@rules_add_or_remove sample_runtime only_class_C literal_engine
              Exclude ScopeFunction "libfoo!bar" libfoo_plan baz_plan [] []
              eq_refl) as (_ & _ & Hsub & _).
  apply Hsub. discriminate.
Defined.

(** Excluding [bar] after including the module is excluding [bar]. *)
Lemma exclusion_removes_matched_addresses_witness :
  @apply_rule sample_runtime only_class_C literal_engine
    (@includeFunction sample_runtime "libfoo!bar" libfoo_plan, [])
    (Exclude, ScopeFunction, "libfoo!bar")
  = inl (baz_plan, []).
Proof.
  destruct (@exclusion_removes_matched_addresses sample_runtime only_class_C
              literal_engine ScopeFunction "libfoo!bar" (libfoo_plan, [])
              (baz_plan, []) eq_refl eq_refl) as [_ Hafter].
  apply Hafter. reflexivity.
Defined.

(** The Java rule that comes first is queued; the other two are applied. *)
Lemma java_rules_are_queued_witness :
  [(Include, "*K!foo()V")] = @java_rules sample_spec
  /\ java baz_plan = []
  /\ NoDup (JsMap.keys (native baz_plan)).
Proof.
  apply (@java_rules_are_queued sample_runtime only_class_C literal_engine
           sample_spec baz_plan [(Include, "*K!foo()V")]).
  reflexivity.
Defined.

Lemma parseModuleFunctionPattern_round_trip_witness :
  parseModuleFunctionPattern ("libfoo" +:+ "!" +:+ "bar") = ("libfoo", "bar")
  /\ parseModuleFunctionPattern
       ("libfoo" +:+ "!" +:+ "bar" +:+ "!" +:+ "baz")
     = parseModuleFunctionPattern ("libfoo" +:+ "!" +:+ "bar")
  /\ parseModuleFunctionPattern "bar" = ("*", "bar").
Proof.
  apply (parseModuleFunctionPattern_round_trip "libfoo" "bar" "baz");
    reflexivity.
Defined.

Lemma targets_from_match_names_witness :
  moduleFunctionTargetFromMatch
    {| match_name := "a" +:+ "!" +:+ "libfoo" +:+ "!" +:+ "bar";
       match_address := "0x1000" |}
  = (NativeC, "libfoo", MemberBare "bar")
  /\ swiftFuncTargetFromMatch
       {| match_name := "a" +:+ "!" +:+ "libfoo" +:+ "!" +:+ "bar";
          match_address := "0x1000" |}
     = (NativeSwift, "a", MemberBare "libfoo").
Proof.
  destruct (targets_from_match_names "a" "libfoo" "bar" "0x1000"
              eq_refl eq_refl eq_refl) as (Hmodule & Hswift & _).
  split; [exact Hmodule|exact Hswift].
Defined.

(** The method [bar] of another class keeps its signature. *)
Lemma includeJavaMethod_never_removes_witness :
  exists signature',
    java_lookup (java (@includeJavaMethod two_overloads "*K!foo()V"
                         other_class_plan))
      (Some 5) "com.example.Other" "bar"
    = Some signature'
    /\ String.length "bar()V" <= String.length signature'.
Proof.
  apply (@includeJavaMethod_never_removes two_overloads "*K!foo()V"
           other_class_plan (Some 5) "com.example.Other" "bar" "bar()V").
  reflexivity.
Defined.

(** [agent:error] for a Java rule without a Java runtime. *)
Lemma error_ends_start_witness :
  sent (send (AgentError "Java runtime is not available") new_world)
  = [AgentError "Java runtime is not available"].
Proof.
  destruct (@error_ends_start _ _ refusing_interceptor sample_runtime
              only_class_C literal_engine no_java [] silent_host
              [(Include, ScopeJavaMethod, "*K!foo()V")] new_world
              (send (AgentError "Java runtime is not available") new_world)
              "Java runtime is not available")
    as (Hsent & _).
  - reflexivity.
  - reflexivity.
  - apply list_elem_of_here.
  - exact Hsent.
Defined.



(** The one method of the plan gets the id 1 and is wrapped under it. *)
Lemma every_java_method_gets_its_handler_witness :
  handlers
    (@traceJavaTargets _ _ accepting_interceptor answering_host
       (java other_class_plan) new_world).1 !! 1%Z
  = Some (@handler_of_script _ _ accepting_interceptor
            (sample_answer 1 (MemberPair "bar" "Other.bar")))
  /\ ("com.example.Other", "bar", 1%Z)
     ∈ wrappers
         (@traceJavaTargets _ _ accepting_interceptor answering_host
            (java other_class_plan) new_world).1.
Proof.
  destruct (@every_java_method_gets_its_handler _ _ accepting_interceptor
              answering_host sample_answer (java other_class_plan) new_world
              0 ("com.example.Other", "bar", "bar()V"))
    as (Hhandler & Hwrapper & _).
  - intros req. reflexivity.
  - reflexivity.
  - split; [exact Hhandler|exact Hwrapper].
Defined.

Lemma objcMethodTargetFromMatch_parts_witness :
  @objcMethodTargetFromMatch only_class_C
    {| match_name := "-[C dealloc]"; match_address := "0x12" |}
  = (NativeObjC, "C",
     MemberTyped "dealloc" "-[C dealloc]"
       (@objc_signature only_class_C
          {| match_name := "-[C dealloc]"; match_address := "0x12" |})).
Proof.
  apply (@objcMethodTargetFromMatch_parts only_class_C "-" "C" "dealloc"
           "0x12"); reflexivity.
Defined.

End Examples.
